(** * Story generation pipeline: text sanitizer, choice extractor and
      narrative state machine of [services/storyGeneration.ts], with the
      session store of [store/storyState.ts].

    The repository holds two revisions of [storyGeneration.ts].  They are
    embedded side by side: module [V1] is the revision with
    [cleanGeneratedText], [parseChoicesFromText], [generateSummary] and
    [refreshStoryPrompt]; module [V2] is the revision with [cleanText],
    [generateChoices] and [getEnvironment]. *)

From Stdlib Require Import String Ascii.
From Stdlib Require Import List NArith ZArith QArith Qround Bool Lia Lqa.
Import ListNotations.
Close Scope Q_scope.

Set Implicit Arguments.

(** ** JavaScript strings

    A JavaScript string is a sequence of UTF-16 code units; [length],
    [substring], [slice], [indexOf] and the regular expressions of the source
    (none has the [u] flag) all count and compare code units. *)

Definition cu := N.
Definition jstring := list cu.

Definition ch (a : ascii) : cu := N_of_ascii a.

Definition js (s : string) : jstring := map ch (list_ascii_of_string s).

Definition cu_eqb (a b : cu) : bool := N.eqb a b.

Fixpoint jeqb (a b : jstring) : bool :=
  match a, b with
  | [], [] => true
  | x :: a', y :: b' => cu_eqb x y && jeqb a' b'
  | _, _ => false
  end.

(** WhiteSpace and LineTerminator code units: what [\s] matches and what
    [String.prototype.trim] strips. *)
Definition is_space (c : cu) : bool :=
  ((9 <=? c) && (c <=? 13) || (c =? 32) || (c =? 160) || (c =? 5760)
   || ((8192 <=? c) && (c <=? 8202)) || (c =? 8232) || (c =? 8233)
   || (c =? 8239) || (c =? 8287) || (c =? 12288) || (c =? 65279))%N.

(** [\w] is [A-Za-z0-9_], [\d] is [0-9]. *)
Definition is_digit (c : cu) : bool := ((48 <=? c) && (c <=? 57))%N.
Definition is_upper (c : cu) : bool := ((65 <=? c) && (c <=? 90))%N.
Definition is_lower (c : cu) : bool := ((97 <=? c) && (c <=? 122))%N.
Definition is_alpha (c : cu) : bool := is_upper c || is_lower c.
Definition is_word (c : cu) : bool := is_alpha c || is_digit c || (c =? 95)%N.

(** [.] without the [s] flag matches everything but a line terminator. *)
Definition is_dot (c : cu) : bool :=
  negb ((c =? 10) || (c =? 13) || (c =? 8232) || (c =? 8233))%N.

Definition in_set (s : string) (c : cu) : bool := existsb (cu_eqb c) (js s).

Fixpoint drop_while (p : cu -> bool) (s : jstring) : jstring :=
  match s with
  | c :: t => if p c then drop_while p t else s
  | [] => []
  end.

Definition trimStart (s : jstring) : jstring := drop_while is_space s.
Definition trimEnd (s : jstring) : jstring := rev (drop_while is_space (rev s)).
Definition trim (s : jstring) : jstring := trimEnd (trimStart s).

Fixpoint startsWith (s p : jstring) : bool :=
  match p, s with
  | [], _ => true
  | x :: p', y :: s' => cu_eqb x y && startsWith s' p'
  | _ :: _, [] => false
  end.

Definition endsWith (s p : jstring) : bool := startsWith (rev s) (rev p).

(** [s.indexOf(p)]: the first index at which [p] occurs. *)
Fixpoint indexOf_from (i : nat) (s p : jstring) : option nat :=
  if startsWith s p then Some i
  else match s with
       | [] => None
       | _ :: t => indexOf_from (S i) t p
       end.

Definition indexOf (s p : jstring) : option nat := indexOf_from 0 s p.

Definition includes (s p : jstring) : bool :=
  match indexOf s p with Some _ => true | None => false end.

(** [s.lastIndexOf(c)] for a one-character [c], as an integer with [-1] for
    absence. *)
Fixpoint lastIndexOf_from (i : Z) (acc : Z) (s : jstring) (c : cu) : Z :=
  match s with
  | [] => acc
  | x :: t => lastIndexOf_from (i + 1) (if cu_eqb x c then i else acc) t c
  end.

Definition lastIndexOf (s : jstring) (c : cu) : Z := lastIndexOf_from 0 (-1) s c.

(** [s.substring(0, n)] and [s.slice(n)] for [0 <= n], [s.slice(-n)]. *)
Definition substring0 (n : nat) (s : jstring) : jstring := firstn n s.
Definition slice_from (n : nat) (s : jstring) : jstring := skipn n s.
Definition slice_last (n : nat) (s : jstring) : jstring :=
  skipn (length s - n) s.

(** [s.split(sep)] for a separator that is one code unit, or one character
    class: never empty, the pieces are the maximal runs between separators. *)
Fixpoint split_acc (p : cu -> bool) (cur : jstring) (s : jstring) : list jstring :=
  match s with
  | [] => [rev cur]
  | c :: t => if p c then rev cur :: split_acc p [] t
              else split_acc p (c :: cur) t
  end.

Definition split_on (p : cu -> bool) (s : jstring) : list jstring :=
  split_acc p [] s.

(** [a.join(sep)] *)
Fixpoint join (sep : jstring) (l : list jstring) : jstring :=
  match l with
  | [] => []
  | [x] => x
  | x :: t => x ++ sep ++ join sep t
  end.

(** [[...new Set(l)]]: first occurrences, in order. *)
Fixpoint dedup_acc (seen : list jstring) (l : list jstring) : list jstring :=
  match l with
  | [] => []
  | x :: t => if existsb (jeqb x) seen then dedup_acc seen t
              else x :: dedup_acc (x :: seen) t
  end.

Definition dedup (l : list jstring) : list jstring := dedup_acc [] l.

(** ** Regular expressions

    A backtracking matcher in the order of the ECMAScript semantics: [run r st]
    lists the states in which a match of [r] started in [st] can end, most
    preferred first, so that the head of the list is the match that [exec]
    reports.  A state is a position in the subject (the text before it,
    reversed, and the text after it) with the captures made so far. *)

Inductive re : Type :=
| Eps
| Chr (p : cu -> bool)
| Seq (a b : re)
| Alt (a b : re)
| Star (greedy : bool) (a : re)
| Grp (n : nat) (a : re)
| Bol
| Eol
| WordB
| Ahead (a : re).

Record mstate : Type := MState {
  before : jstring;
  after : jstring;
  pos : N;
  caps : list (nat * jstring)
}.

Fixpoint cap_lookup (cs : list (nat * jstring)) (n : nat) : option jstring :=
  match cs with
  | [] => None
  | (k, v) :: t => if Nat.eqb k n then Some v else cap_lookup t n
  end.

Definition word_at (s : jstring) : bool :=
  match s with c :: _ => is_word c | [] => false end.

(** The star of a matcher [step].  [pos] counts the characters that the
    match has consumed; an iteration that consumes nothing is rejected, as in
    the ECMAScript RepeatMatcher.  The ends of the iterations are listed in
    front of [rest]: a greedy star puts those of one more iteration before
    the state it stands in, a lazy star after it. *)
Fixpoint star_loop (step : mstate -> list mstate) (greedy : bool) (n : nat)
  (st : mstate) (rest : list mstate) {struct n} : list mstate :=
  match n with
  | 0 => st :: rest
  | S n' =>
      let more (rest' : list mstate) :=
        fold_right (fun st' out =>
                      if N.ltb (pos st) (pos st')
                      then star_loop step greedy n' st' out else out)
                   rest' (step st) in
      if greedy then more (st :: rest) else st :: more rest
  end.

Fixpoint run (r : re) (st : mstate) {struct r} : list mstate :=
  match r with
  | Eps => [st]
  | Chr p =>
      match after st with
      | c :: t => if p c then [MState (c :: before st) t (N.succ (pos st)) (caps st)]
                  else []
      | [] => []
      end
  | Seq a b => flat_map (run b) (run a st)
  | Alt a b => run a st ++ run b st
  | Star greedy a => star_loop (run a) greedy (length (after st)) st []
  | Grp n a =>
      map (fun st' =>
             MState (before st') (after st') (pos st')
                    ((n, firstn (N.to_nat (pos st' - pos st)) (after st)) :: caps st'))
          (run a st)
  | Bol => match before st with [] => [st] | _ => [] end
  | Eol => match after st with [] => [st] | _ => [] end
  | WordB => if xorb (word_at (before st)) (word_at (after st)) then [st] else []
  | Ahead a =>
      match run a st with
      | st' :: _ => [MState (before st) (after st) (pos st) (caps st')]
      | [] => []
      end
  end.

(** Pattern-building shorthands. *)
Definition chr (a : ascii) : re := Chr (cu_eqb (ch a)).
Definition cls (s : string) : re := Chr (in_set s).
Definition ncls (s : string) : re := Chr (fun c => negb (in_set s c)).
Definition plus (greedy : bool) (a : re) : re := Seq a (Star greedy a).
Definition opt (a : re) : re := Alt a Eps.
Definition seqs (l : list re) : re := fold_right Seq Eps l.
Definition lit (s : string) : re := seqs (map chr (list_ascii_of_string s)).

(** With the [i] flag an ASCII pattern character matches its two cases and
    nothing else: Canonicalize never maps a code unit above 127 to one
    below. *)
Definition to_upper_ascii (c : cu) : cu := if is_lower c then (c - 32)%N else c.
Definition to_lower_ascii (c : cu) : cu := if is_upper c then (c + 32)%N else c.
Definition chr_i (a : ascii) : re :=
  Chr (fun c => cu_eqb c (to_upper_ascii (ch a)) || cu_eqb c (to_lower_ascii (ch a))).
Definition lit_i (s : string) : re := seqs (map chr_i (list_ascii_of_string s)).

Definition ws : re := Chr is_space.
Definition dot : re := Chr is_dot.
Definition any : re := Chr (fun _ => true).

(** A match as [exec] reports it: the matched text and the captures. *)
Record mres : Type := MRes {
  m_0 : jstring;
  m_caps : list (nat * jstring)
}.

(** [$n] / [match[n]]: a group that did not take part gives the empty
    string in a replacement. *)
Definition grp (m : mres) (n : nat) : jstring :=
  match cap_lookup (m_caps m) n with Some v => v | None => [] end.

Definition start (bef aft : jstring) : mstate := MState bef aft 0 [].

Definition hit (aft : jstring) (st' : mstate) : mres :=
  MRes (firstn (N.to_nat (pos st')) aft) (caps st').

(** [r.exec(s)] from index 0 (a fresh regex): the first position at which
    [r] matches. *)
Fixpoint exec_from (r : re) (bef aft : jstring) {struct aft} : option mres :=
  match run r (start bef aft) with
  | st' :: _ => Some (hit aft st')
  | [] => match aft with
          | [] => None
          | c :: t => exec_from r (c :: bef) t
          end
  end.

Definition exec (r : re) (s : jstring) : option mres := exec_from r [] s.

Definition test (r : re) (s : jstring) : bool :=
  match exec r s with Some _ => true | None => false end.

(** The subject cut into the successive matches of a [g] regex and the
    characters between them.  After an empty match the scan moves on by one
    character, as [lastIndex] does. *)
Inductive piece : Type :=
| Lit (c : cu)
| Hit (m : mres).

Fixpoint pieces (n : nat) (r : re) (bef aft : jstring) {struct n} : list piece :=
  match n with
  | 0 => map Lit aft
  | S n' =>
      match run r (start bef aft) with
      | st' :: _ =>
          let h := Hit (hit aft st') in
          if N.ltb 0 (pos st')
          then h :: pieces n' r (before st') (after st')
          else match aft with
               | [] => [h]
               | c :: t => h :: Lit c :: pieces n' r (c :: bef) t
               end
      | [] =>
          match aft with
          | [] => []
          | c :: t => Lit c :: pieces n' r (c :: bef) t
          end
      end
  end.

Definition gpieces (r : re) (s : jstring) : list piece :=
  pieces (S (length s)) r [] s.

(** [s.match(r)] for a [g] regex, with [|| []] applied: the matched texts. *)
Definition match_all (r : re) (s : jstring) : list jstring :=
  flat_map (fun p => match p with Hit m => [m_0 m] | Lit _ => [] end) (gpieces r s).

(** The matches that a [while ((m = r.exec(s)) !== null)] loop visits. *)
Definition exec_all (r : re) (s : jstring) : list mres :=
  flat_map (fun p => match p with Hit m => [m] | Lit _ => [] end) (gpieces r s).

(** [s.replace(r, f)] for a [g] regex; [f] builds the replacement from the
    match. *)
Definition replace_all (r : re) (f : mres -> jstring) (s : jstring) : jstring :=
  flat_map (fun p => match p with Hit m => f m | Lit c => [c] end) (gpieces r s).

(** [s.replace(r, f)] for a regex without [g]: the first match only. *)
Fixpoint replace_first_from (r : re) (f : mres -> jstring) (bef aft : jstring)
  {struct aft} : jstring :=
  match run r (start bef aft) with
  | st' :: _ => f (hit aft st') ++ after st'
  | [] => match aft with
          | [] => []
          | c :: t => c :: replace_first_from r f (c :: bef) t
          end
  end.

Definition replace_first (r : re) (f : mres -> jstring) (s : jstring) : jstring :=
  replace_first_from r f [] s.

(** String literals of the source that hold a double quote are written with
    an apostrophe in its place; [jsq] puts the double quotes back.  (No such
    literal of the source holds an apostrophe of its own.) *)
Definition c_quote : cu := 34%N.
Definition c_apos : cu := 39%N.
Definition jsq (s : string) : jstring :=
  map (fun c => if cu_eqb c c_apos then c_quote else c) (js s).

(** ** JSON.parse

    The values [JSON.parse] builds.  A number is kept exactly, as
    [(-1)^neg * mant * 10^exp10]; an object keeps its members in source
    order. *)

#[local] Unset Elimination Schemes.
Inductive json : Type :=
| JNull
| JBool (b : bool)
| JNum (neg : bool) (mant : N) (exp10 : Z)
| JStr (s : jstring)
| JArr (l : list json)
| JObj (l : list (jstring * json)).
#[local] Set Elimination Schemes.

Definition json_ws (c : cu) : bool :=
  ((c =? 9) || (c =? 10) || (c =? 13) || (c =? 32))%N.

Definition hex_digit (c : cu) : option N :=
  if is_digit c then Some (c - 48)%N
  else if ((97 <=? c) && (c <=? 102))%N then Some (c - 87)%N
  else if ((65 <=? c) && (c <=? 70))%N then Some (c - 55)%N
  else None.

Definition hex4 (a b c d : cu) : option cu :=
  match hex_digit a, hex_digit b, hex_digit c, hex_digit d with
  | Some x, Some y, Some z, Some w => Some (((x * 16 + y) * 16 + z) * 16 + w)%N
  | _, _, _, _ => None
  end.

Definition json_escape (e : cu) : option cu :=
  if (e =? 34)%N then Some 34%N
  else if (e =? 92)%N then Some 92%N
  else if (e =? 47)%N then Some 47%N
  else if (e =? 98)%N then Some 8%N
  else if (e =? 102)%N then Some 12%N
  else if (e =? 110)%N then Some 10%N
  else if (e =? 114)%N then Some 13%N
  else if (e =? 116)%N then Some 9%N
  else None.

(** The body of a string literal, after its opening quote. *)
Fixpoint pstring (s : jstring) (acc : jstring) {struct s} : option (jstring * jstring) :=
  match s with
  | [] => None
  | c :: t =>
      if (c =? 34)%N then Some (rev acc, t)
      else if (c =? 92)%N then
        match t with
        | e :: t' =>
            if (e =? 117)%N then
              match t' with
              | h1 :: h2 :: h3 :: h4 :: t'' =>
                  match hex4 h1 h2 h3 h4 with
                  | Some v => pstring t'' (v :: acc)
                  | None => None
                  end
              | _ => None
              end
            else match json_escape e with
                 | Some v => pstring t' (v :: acc)
                 | None => None
                 end
        | [] => None
        end
      else if (c <? 32)%N then None
      else pstring t (c :: acc)
  end.

(** A run of decimal digits: its value continued from [acc], how many there
    were, and the rest. *)
Fixpoint pdigits (s : jstring) (acc : N) (k : nat) : N * nat * jstring :=
  match s with
  | c :: t => if is_digit c then pdigits t (acc * 10 + (c - 48))%N (S k)
              else (acc, k, s)
  | [] => (acc, k, s)
  end.

Definition pexponent (s : jstring) : option (Z * jstring) :=
  match s with
  | e :: t =>
      if ((e =? 101) || (e =? 69))%N then
        let '(sign, t1) :=
          match t with
          | c :: t' => if (c =? 45)%N then (-1, t')%Z
                       else if (c =? 43)%N then (1, t')%Z else (1%Z, t)
          | [] => (1%Z, t)
          end in
        match pdigits t1 0%N 0 with
        | (_, 0, _) => None
        | (v, _, r) => Some ((sign * Z.of_N v)%Z, r)
        end
      else Some (0%Z, s)
  | [] => Some (0%Z, s)
  end.

Definition pnumber (s : jstring) : option (json * jstring) :=
  let '(neg, s1) :=
    match s with
    | c :: t => if (c =? 45)%N then (true, t) else (false, s)
    | [] => (false, s)
    end in
  match s1 with
  | d :: t =>
      if negb (is_digit d) then None
      else
        let '(ip, r1) :=
          if (d =? 48)%N then (0%N, t)
          else let '(v, _, r) := pdigits s1 0%N 0 in (v, r) in
        let frac :=
          match r1 with
          | p :: r2 =>
              if (p =? 46)%N then
                match pdigits r2 ip 0 with
                | (_, 0, _) => None
                | (v, k, r) => Some (v, Z.of_nat k, r)
                end
              else Some (ip, 0%Z, r1)
          | [] => Some (ip, 0%Z, r1)
          end in
        match frac with
        | None => None
        | Some (m, k, r3) =>
            match pexponent r3 with
            | None => None
            | Some (e, r4) => Some (JNum neg m (e - k)%Z, r4)
            end
        end
  | [] => None
  end.

Fixpoint pvalue (n : nat) (s : jstring) {struct n} : option (json * jstring) :=
  match n with
  | 0 => None
  | S n' =>
      match drop_while json_ws s with
      | [] => None
      | c :: t =>
          if (c =? 123)%N then
            match drop_while json_ws t with
            | c2 :: r => if (c2 =? 125)%N then Some (JObj [], r)
                         else pmembers n' t []
            | [] => None
            end
          else if (c =? 91)%N then
            match drop_while json_ws t with
            | c2 :: r => if (c2 =? 93)%N then Some (JArr [], r)
                         else pelems n' t []
            | [] => None
            end
          else if (c =? 34)%N then
            match pstring t [] with
            | Some (x, r) => Some (JStr x, r)
            | None => None
            end
          else if startsWith (c :: t) (js "true") then Some (JBool true, skipn 4 (c :: t))
          else if startsWith (c :: t) (js "false") then Some (JBool false, skipn 5 (c :: t))
          else if startsWith (c :: t) (js "null") then Some (JNull, skipn 4 (c :: t))
          else pnumber (c :: t)
      end
  end
with pelems (n : nat) (s : jstring) (acc : list json) {struct n}
  : option (json * jstring) :=
  match n with
  | 0 => None
  | S n' =>
      match pvalue n' s with
      | Some (v, r) =>
          match drop_while json_ws r with
          | c :: r' =>
              if (c =? 44)%N then pelems n' r' (v :: acc)
              else if (c =? 93)%N then Some (JArr (rev (v :: acc)), r')
              else None
          | [] => None
          end
      | None => None
      end
  end
with pmembers (n : nat) (s : jstring) (acc : list (jstring * json)) {struct n}
  : option (json * jstring) :=
  match n with
  | 0 => None
  | S n' =>
      match drop_while json_ws s with
      | q :: t =>
          if negb (q =? 34)%N then None
          else
            match pstring t [] with
            | Some (k, r) =>
                match drop_while json_ws r with
                | col :: r1 =>
                    if negb (col =? 58)%N then None
                    else
                      match pvalue n' r1 with
                      | Some (v, r2) =>
                          match drop_while json_ws r2 with
                          | c :: r3 =>
                              if (c =? 44)%N then pmembers n' r3 ((k, v) :: acc)
                              else if (c =? 125)%N
                                   then Some (JObj (rev ((k, v) :: acc)), r3)
                                   else None
                          | [] => None
                          end
                      | None => None
                      end
                | [] => None
                end
            | None => None
            end
      | [] => None
      end
  end.

(** [JSON.parse(s)]; [None] is the SyntaxError it throws.  The recursion
    uses up at most two units of fuel for each value of the text. *)
Definition JSON_parse (s : jstring) : option json :=
  match pvalue (2 * length s + 2) s with
  | Some (v, r) => match drop_while json_ws r with
                   | [] => Some v
                   | _ :: _ => None
                   end
  | None => None
  end.

(** [v.key] on a parsed value: [Some None] is [undefined] (no such member:
    neither arrays nor primitives nor [Object.prototype] have a [text] or
    [consequence] property), [None] is the TypeError of reading a property
    of [null].  Of two members with one key [JSON.parse] keeps the later. *)
Fixpoint member (k : jstring) (l : list (jstring * json)) : option json :=
  match l with
  | [] => None
  | (k', v) :: t => if jeqb k' k then Some v else member k t
  end.

Definition get_prop (v : json) (k : jstring) : option (option json) :=
  match v with
  | JNull => None
  | JObj l => Some (member k (rev l))
  | _ => Some None
  end.

(** ToBoolean.  A number is falsy when it is zero as a double: when its
    mantissa is zero or its magnitude is at most [2^-1075], which rounds to
    zero. *)
Definition truthy (v : json) : bool :=
  match v with
  | JNull => false
  | JBool b => b
  | JNum _ m e =>
      negb (m =? 0)%N && ((0 <=? e)%Z || (10 ^ (- e) <? Z.of_N m * 2 ^ 1075)%Z)
  | JStr s => match s with [] => false | _ :: _ => true end
  | JArr _ | JObj _ => true
  end.

(** [x || d] where [x] may be [undefined]. *)
Definition or_default (x : option json) (d : json) : json :=
  match x with
  | Some v => if truthy v then v else d
  | None => d
  end.

(** ** Data model ([types/Environment.ts], [types/Story.ts])

    JavaScript numbers are carried as exact rationals: the source only
    stores, copies and compares them, and draws some from [Math.random]. *)

Record LightingConfig : Type := {
  intensity : Q;
  color : jstring;
  ambient : Q;
  shadows : bool
}.

Record ParticleConfig : Type := {
  p_type : jstring;
  p_density : Q;
  p_speed : Q
}.

Record AtmosphereConfig : Type := {
  fog : bool;
  fogDensity : option Q;
  fogColor : option jstring;
  particles : option ParticleConfig
}.

Record Prop_ : Type := {
  prop_type : jstring;
  position : Q * Q * Q;
  rotation : option (Q * Q * Q);
  scale : option (Q * Q * Q)
}.

Record EnvironmentDescription : Type := {
  baseEnvironment : jstring;
  lighting : LightingConfig;
  atmosphere : AtmosphereConfig;
  props : list Prop_
}.

Inductive TransitionType : Type := fade | slide | zoom.

Record AnimationEffect : Type := {
  transitionType : option TransitionType;
  anim_intensity : option Q;
  duration : option Q
}.

(** [Partial<LightingConfig>] and [Partial<AtmosphereConfig>]: every field
    may be absent. *)
Record LightingChange : Type := {
  d_intensity : option Q;
  d_color : option jstring;
  d_ambient : option Q;
  d_shadows : option bool
}.

Record AtmosphereChange : Type := {
  d_fog : option bool;
  d_fogDensity : option Q;
  d_fogColor : option jstring;
  d_particles : option ParticleConfig
}.

Record EnvironmentModification : Type := {
  lightingChange : option LightingChange;
  atmosphereChange : option AtmosphereChange;
  addProps : option (list Prop_);
  removeProps : option (list jstring);
  animationEffect : option AnimationEffect
}.

Record StoryMetadata : Type := {
  mood : jstring;
  location : jstring;
  timeOfDay : jstring;
  weatherConditions : jstring
}.

(** A choice.  The interface types [text] and [consequence] as strings, and
    that is what a caller passes to [generateNextStorySegment] ([Choice]);
    the choices that [parseChoicesFromText] builds from parsed JSON carry
    whatever value the JSON held ([RChoice]). *)
Record ChoiceOf (T : Type) : Type := {
  text : T;
  consequence : T;
  environmentImpact : EnvironmentModification
}.

Definition Choice : Type := ChoiceOf jstring.
Definition RChoice : Type := ChoiceOf json.

Definition as_built (c : Choice) : RChoice :=
  {| text := JStr (text c); consequence := JStr (consequence c);
     environmentImpact := environmentImpact c |}.

Record StorySegment : Type := {
  seg_text : jstring;
  environment : EnvironmentDescription;
  choices : list RChoice;
  metadata : StoryMetadata
}.

(** Object spread [{...base, ...change}]: a field present in [change]
    replaces the one of [base]; spreading [undefined] adds nothing. *)
Definition override {A : Type} (base : A) (change : option A) : A :=
  match change with Some v => v | None => base end.

Definition override_opt {A : Type} (base : option A) (change : option A) : option A :=
  match change with Some v => Some v | None => base end.

Definition mergeLighting (base : LightingConfig) (change : option LightingChange)
  : LightingConfig :=
  match change with
  | None => base
  | Some c =>
      {| intensity := override (intensity base) (d_intensity c);
         color := override (color base) (d_color c);
         ambient := override (ambient base) (d_ambient c);
         shadows := override (shadows base) (d_shadows c) |}
  end.

Definition mergeAtmosphere (base : AtmosphereConfig) (change : option AtmosphereChange)
  : AtmosphereConfig :=
  match change with
  | None => base
  | Some c =>
      {| fog := override (fog base) (d_fog c);
         fogDensity := override_opt (fogDensity base) (d_fogDensity c);
         fogColor := override_opt (fogColor base) (d_fogColor c);
         particles := override_opt (particles base) (d_particles c) |}
  end.

(** The impact literal that recurs in the source:
    [{ lightingChange: { intensity }, atmosphereChange: { fogDensity },
       animationEffect: { transitionType, intensity, duration } }]. *)
Definition impact (li : Q) (fd : Q) (tt : option TransitionType) (ai : Q) (du : Q)
  : EnvironmentModification :=
  {| lightingChange := Some {| d_intensity := Some li; d_color := None;
                               d_ambient := None; d_shadows := None |};
     atmosphereChange := Some {| d_fog := None; d_fogDensity := Some fd;
                                 d_fogColor := None; d_particles := None |};
     addProps := None;
     removeProps := None;
     animationEffect := Some {| transitionType := tt; anim_intensity := Some ai;
                                duration := Some du |} |}.

Definition choice_lit (t c : string) (i : EnvironmentModification) : RChoice :=
  {| text := JStr (js t); consequence := JStr (js c); environmentImpact := i |}.

(** ** The host

    What the program takes from its runtime and does not compute itself: the
    text-generation pipeline, [Math.random] and the locale-independent but
    Unicode-wide [String.prototype.toLowerCase].

    [complete n prompt] is the [generated_text] that the [n]-th request to
    the model yields for [prompt]; [None] stands for every way in which
    [generateText] fails before it cleans the text: the model cannot be
    initialised, the pipeline call rejects, or its result has neither of the
    two expected shapes.  [random n] is the [n]-th value of [Math.random]. *)

Record Host : Type := {
  complete : nat -> jstring -> option jstring;
  random : nat -> Q;
  toLowerCase : jstring -> jstring
}.

(** ** The session store ([store/storyState.ts])

    Of the store, the two fields that the generation service reads and
    writes. *)

Record Store : Type := {
  storySummary : jstring;
  segmentsSincePromptRefresh : nat
}.

Definition initialStore : Store :=
  {| storySummary := []; segmentsSincePromptRefresh := 0 |}.

(** What a call does to the outside, in order: store updates and requests to
    the model. *)
Inductive event : Type :=
| EvIncrement
| EvReset
| EvSummary (s : jstring)
| EvComplete (prompt : jstring) (answered : bool).

Record World : Type := {
  store : Store;
  calls : nat;
  draws : nat;
  trace : list event
}.

Definition initialWorld : World :=
  {| store := initialStore; calls := 0; draws := 0; trace := [] |}.

(** An [async] function body: it runs from a world to a world and either
    returns a value or throws (the promise rejects). *)
Inductive outcome (A : Type) : Type :=
| Ret (a : A)
| Throw.
Arguments Throw {A}.

Definition M (A : Type) : Type := World -> outcome A * World.

Definition ret {A : Type} (a : A) : M A := fun w => (Ret a, w).

Definition throw {A : Type} : M A := fun w => (Throw, w).

Definition bind {A B : Type} (m : M A) (k : A -> M B) : M B :=
  fun w => match m w with
           | (Ret a, w') => k a w'
           | (Throw, w') => (Throw, w')
           end.

(** [try { m } catch { h }] *)
Definition try_catch {A : Type} (m : M A) (h : M A) : M A :=
  fun w => match m w with
           | (Ret a, w') => (Ret a, w')
           | (Throw, w') => h w'
           end.

Declare Scope m_scope.
Delimit Scope m_scope with m.
Notation "x <- m ;; k" := (bind m (fun x => k))
  (at level 61, m at next level, right associativity) : m_scope.
Notation "m ;;; k" := (bind m (fun _ => k))
  (at level 61, right associativity) : m_scope.
Open Scope m_scope.

Definition emit (e : event) (w : World) : World :=
  {| store := store w; calls := calls w; draws := draws w;
     trace := trace w ++ [e] |}.

Definition set_store (s : Store) (w : World) : World :=
  {| store := s; calls := calls w; draws := draws w; trace := trace w |}.

(** [useStoryStore.getState()] *)
Definition getState : M Store := fun w => (Ret (store w), w).

Definition updateStorySummary (newSummary : jstring) : M unit :=
  fun w =>
    (Ret tt,
     emit (EvSummary newSummary)
       (set_store {| storySummary := newSummary;
                     segmentsSincePromptRefresh :=
                       segmentsSincePromptRefresh (store w) |} w)).

Definition incrementSegmentCount : M unit :=
  fun w =>
    (Ret tt,
     emit EvIncrement
       (set_store {| storySummary := storySummary (store w);
                     segmentsSincePromptRefresh :=
                       segmentsSincePromptRefresh (store w) + 1 |} w)).

Definition resetSegmentCount : M unit :=
  fun w =>
    (Ret tt,
     emit EvReset
       (set_store {| storySummary := storySummary (store w);
                     segmentsSincePromptRefresh := 0 |} w)).

(** One request to the model: the raw [generated_text], or a throw. *)
Definition asked (prompt : jstring) (answered : bool) (w : World) : World :=
  {| store := store w; calls := calls w + 1; draws := draws w;
     trace := trace w ++ [EvComplete prompt answered] |}.

Definition request (h : Host) (prompt : jstring) : M jstring :=
  fun w =>
    match complete h (calls w) prompt with
    | Some raw => (Ret raw, asked prompt true w)
    | None => (Throw, asked prompt false w)
    end.

(** [Math.random()] *)
Definition mathRandom (h : Host) : M Q :=
  fun w =>
    (Ret (random h (draws w)),
     {| store := store w; calls := calls w; draws := draws w + 1;
        trace := trace w |}).

(** ** First revision of [services/storyGeneration.ts] *)

Module V1.

(** *** [cleanGeneratedText] *)

Definition irrelevantPatterns : list re :=
  map (fun s => Seq (lit_i s) (Star true dot))
      [ "The protagonist just chose to:"%string;
        "This leads to:"%string;
        "Setting:"%string;
        "Describe only what happens"%string;
        "Continue the story"%string;
        "Be vivid but concise"%string;
        "Write a brief continuation"%string;
        "The story was first published"%string;
        "The book was first published"%string ].

(** [/[^.!?]+[.!?]+/g] *)
Definition sentenceRegex : re := Seq (plus true (ncls ".!?")) (plus true (cls ".!?")).

(** [/\s+/g], [/\n+/g], [/\.+/g], [/([.!?])\s*([.!?])+/g] *)
Definition spacesRegex : re := plus true ws.
Definition newlinesRegex : re := plus true (chr "010").
Definition periodsRegex : re := plus true (chr ".").
Definition punctuationRegex : re :=
  seqs [Grp 1 (cls ".!?"); Star true ws; plus true (Grp 2 (cls ".!?"))].

Definition fallbackSentence : jstring := js "The adventure continues...".

(** Remove the prompt from the beginning of the text. *)
Definition stripPrompt (generatedText prompt : jstring) : jstring :=
  let cleanedText := trim generatedText in
  if startsWith cleanedText prompt
  then trim (slice_from (length prompt) cleanedText)
  else cleanedText.

(** Handle possible JSON in text. *)
Definition cutJson (cleanedText : jstring) : jstring :=
  match indexOf cleanedText (js "[{") with
  | Some jsonStartIndex => trim (substring0 jsonStartIndex cleanedText)
  | None => cleanedText
  end.

(** Remove prompt repetitions and metadata. *)
Definition stripPatterns (cleanedText : jstring) : jstring :=
  fold_left (fun acc pattern => replace_first pattern (fun _ => []) acc)
            irrelevantPatterns cleanedText.

(** Remove duplicate sentences, when there is more than one sentence. *)
Definition dedupSentences (cleanedText : jstring) : jstring :=
  let sentences := match_all sentenceRegex cleanedText in
  if Nat.ltb 1 (length sentences)
  then join (js " ") (dedup sentences)
  else cleanedText.

(** Limit length: cut after the last sentence end within the first 300. *)
Definition lastSentenceEndOf (truncated : jstring) : Z :=
  Z.max (Z.max (lastIndexOf truncated (ch ".")) (lastIndexOf truncated (ch "!")))
        (lastIndexOf truncated (ch "?")).

Definition limitLength (cleanedText : jstring) : jstring :=
  if Nat.ltb 300 (length cleanedText) then
    let truncated := substring0 300 cleanedText in
    let lastSentenceEnd := lastSentenceEndOf truncated in
    if (0 <? lastSentenceEnd)%Z
    then substring0 (Z.to_nat (lastSentenceEnd + 1)) cleanedText
    else cleanedText
  else cleanedText.

Definition finalCleanup (cleanedText : jstring) : jstring :=
  replace_all punctuationRegex (fun m => grp m 1)
    (replace_all periodsRegex (fun _ => js ".")
       (replace_all newlinesRegex (fun _ => js " ")
          (replace_all spacesRegex (fun _ => js " ")
             (trim cleanedText)))).

(** [x || d] on strings. *)
Definition or_else (x d : jstring) : jstring :=
  match x with [] => d | _ :: _ => x end.

Definition cleanGeneratedText (generatedText prompt : jstring) : jstring :=
  or_else
    (finalCleanup
       (limitLength
          (dedupSentences
             (stripPatterns
                (cutJson
                   (stripPrompt generatedText prompt))))))
    fallbackSentence.

(** *** [generateText] *)

Definition generateText (h : Host) (prompt : jstring) : M jstring :=
  try_catch
    (generatedText <- request h prompt ;;
     ret (cleanGeneratedText generatedText prompt))
    throw.

(** *** [parseChoicesFromText] *)

(** [/\[\s*\{.*?\}\s*\]/gs] *)
Definition jsonArrayRegex : re :=
  seqs [chr "["; Star true ws; chr "{"; Star false any; chr "}"; Star true ws; chr "]"].

(** [/'/g], [/(\w+)\s*:/g], [/:\s*\x22?([^\x22,\}\]]+)\x22?([,\}\]])/g]
    (in these comments [\x22] stands for the double quote of the source's
    regular expressions) *)
Definition aposRegex : re := Chr (cu_eqb c_apos).
Definition keyRegex : re := seqs [Grp 1 (plus true (Chr is_word)); Star true ws; chr ":"].
Definition not_value_end (c : cu) : bool :=
  negb (cu_eqb c c_quote || in_set ",}]" c).
Definition valueRegex : re :=
  seqs [chr ":"; Star true ws; opt (Chr (cu_eqb c_quote));
        Grp 1 (plus true (Chr not_value_end)); opt (Chr (cu_eqb c_quote));
        Grp 2 (cls ",}]")].

Definition repairJson (matched : jstring) : jstring :=
  replace_all valueRegex
    (fun m => js ":" ++ [c_quote] ++ grp m 1 ++ [c_quote] ++ grp m 2)
    (replace_all keyRegex
       (fun m => [c_quote] ++ grp m 1 ++ [c_quote] ++ js ":")
       (replace_all aposRegex (fun _ => [c_quote]) matched)).

Definition animationTypes : list TransitionType := [fade; slide; zoom].

(** [a[Math.floor(x)]]: [undefined] out of range. *)
Definition index_floor {A : Type} (a : list A) (x : Q) : option A :=
  let i := Qfloor x in
  if (i <? 0)%Z then None else nth_error a (Z.to_nat i).

(** [c[k]] inside the [map] callback: reading a property of [null] throws. *)
Definition prop (c : json) (k : string) : M (option json) :=
  match get_prop c (js k) with
  | Some v => ret v
  | None => throw
  end.

Definition choiceOfParsed (h : Host) (c : json) (index : nat) : M RChoice :=
  t <- prop c "text" ;;
  q <- prop c "consequence" ;;
  r1 <- mathRandom h ;;
  r2 <- mathRandom h ;;
  r3 <- mathRandom h ;;
  r4 <- mathRandom h ;;
  ret {| text := or_default t (JStr (js "Continue"));
         consequence := or_default q (JStr (js "You continue your journey"));
         environmentImpact :=
           {| lightingChange :=
                Some {| d_intensity := Some (if Nat.eqb index 0 then 0.8 else 1.2)%Q;
                        d_color := None; d_ambient := None; d_shadows := None |};
              atmosphereChange :=
                Some {| d_fog := None; d_fogDensity := Some (r1 * 0.1)%Q;
                        d_fogColor := None; d_particles := None |};
              addProps := None;
              removeProps := None;
              animationEffect :=
                Some {| transitionType :=
                          index_floor animationTypes
                            (r2 * inject_Z (Z.of_nat (length animationTypes)))%Q;
                        anim_intensity := Some (1 + r3 * 0.5)%Q;
                        duration := Some (2 + r4 * 1)%Q |} |} |}.

(** [parsed.map((c, index) => ...)] *)
Fixpoint mapChoices (h : Host) (l : list json) (index : nat) : M (list RChoice) :=
  match l with
  | [] => ret []
  | c :: t =>
      x <- choiceOfParsed h c index ;;
      xs <- mapChoices h t (S index) ;;
      ret (x :: xs)
  end.

(** Approach 1: find and parse a JSON array.  [Some] is the [return] inside
    the [try]; [None] falls through to the next approach, also after the
    [catch]. *)
Definition approach1 (h : Host) (jsonString : jstring) : M (option (list RChoice)) :=
  try_catch
    (match exec jsonArrayRegex jsonString with
     | Some m =>
         match m_0 m with
         | [] => ret None
         | _ :: _ =>
             let cleanedJson := repairJson (m_0 m) in
             match JSON_parse cleanedJson with
             | None => throw
             | Some (JArr parsed) =>
                 if Nat.leb 2 (length parsed)
                 then cs <- mapChoices h parsed 0 ;; ret (Some cs)
                 else ret None
             | Some _ => ret None
             end
         end
     | None => ret None
     end)
    (ret None).

(** [/\x22?text\x22?\s*:\s*\x22([^\x22]+)\x22/gi] and the same for
    [consequence] *)
Definition fieldRegex (name : string) : re :=
  seqs [opt (Chr (cu_eqb c_quote)); lit_i name; opt (Chr (cu_eqb c_quote));
        Star true ws; chr ":"; Star true ws; Chr (cu_eqb c_quote);
        Grp 1 (plus true (Chr (fun c => negb (cu_eqb c c_quote))));
        Chr (cu_eqb c_quote)].
Definition textRegex : re := fieldRegex "text".
Definition consequenceRegex : re := fieldRegex "consequence".

(** The [while ((m = r.exec(s)) !== null) { if (m[1]) out.push(m[1].trim()) }]
    loop. *)
Definition captures (r : re) (s : jstring) : list jstring :=
  flat_map (fun m => match grp m 1 with
                     | [] => []
                     | _ :: _ => [trim (grp m 1)]
                     end)
           (exec_all r s).

Definition firstImpact : EnvironmentModification :=
  impact 0.8 0.1 (Some fade) 1.2 2.
Definition secondImpact : EnvironmentModification :=
  impact 1.2 0.01 (Some zoom) 1.3 2.5.

Definition pairOf (t1 c1 t2 c2 : jstring) : list RChoice :=
  [ {| text := JStr t1; consequence := JStr c1; environmentImpact := firstImpact |};
    {| text := JStr t2; consequence := JStr c2; environmentImpact := secondImpact |} ].

(** Approach 2: text/consequence pairs. *)
Definition approach2 (jsonString : jstring) : option (list RChoice) :=
  let texts := captures textRegex jsonString in
  let consequences := captures consequenceRegex jsonString in
  match texts, consequences with
  | t1 :: t2 :: _, c1 :: c2 :: _ => Some (pairOf t1 c1 t2 c2)
  | _, _ => None
  end.

(** [/\d+\.\s*([^\n\.]+)/g] and [/^\d+\.\s*/];
    [/[\*\-•]\s*([^\n\.]+)/g] and [/^[\*\-•]\s*/] *)
Definition c_bullet : cu := 8226%N.
Definition is_bullet (c : cu) : bool := in_set "*-" c || cu_eqb c c_bullet.
Definition not_line_end (c : cu) : bool := negb (cu_eqb c 10%N || cu_eqb c (ch ".")).
Definition numberedRegex : re :=
  seqs [plus true (Chr is_digit); chr "."; Star true ws;
        Grp 1 (plus true (Chr not_line_end))].
Definition numberPrefixRegex : re :=
  seqs [Bol; plus true (Chr is_digit); chr "."; Star true ws].
Definition bulletRegex : re :=
  seqs [Chr is_bullet; Star true ws; Grp 1 (plus true (Chr not_line_end))].
Definition bulletPrefixRegex : re := seqs [Bol; Chr is_bullet; Star true ws].

Definition itemText (prefix : re) (item : jstring) : jstring :=
  trim (replace_first prefix (fun _ => []) item).

(** Approach 3: numbered items, then bullet points. *)
Definition approach3 (jsonString : jstring) : option (list RChoice) :=
  match match_all numberedRegex jsonString with
  | n1 :: n2 :: _ =>
      Some (pairOf (itemText numberPrefixRegex n1) (js "You choose the first option.")
                   (itemText numberPrefixRegex n2) (js "You choose the second option."))
  | _ =>
      match match_all bulletRegex jsonString with
      | b1 :: b2 :: _ =>
          Some (pairOf (itemText bulletPrefixRegex b1) (js "You choose this path.")
                       (itemText bulletPrefixRegex b2) (js "You choose this direction."))
      | _ => None
      end
  end.

Definition defaultChoices : list RChoice :=
  [ choice_lit "Explore further"
      "You decide to venture deeper into the unknown."
      (impact 0.8 0.1 (Some slide) 1.2 2.5);
    choice_lit "Stay cautious"
      "You decide to carefully observe your surroundings before proceeding."
      (impact 1.2 0.01 (Some fade) 1.1 2) ].

Definition parseChoicesFromText (h : Host) (choicesText : jstring) : M (list RChoice) :=
  try_catch
    (let jsonString := trim choicesText in
     r1 <- approach1 h jsonString ;;
     match r1 with
     | Some cs => ret cs
     | None =>
         match approach2 jsonString with
         | Some cs => ret cs
         | None =>
             match approach3 jsonString with
             | Some cs => ret cs
             | None => throw
             end
         end
     end)
    (ret defaultChoices).

(** *** Environment presets *)

Record Preset : Type := {
  defaultDescription : jstring;
  p_lighting : LightingConfig;
  p_atmosphere : AtmosphereConfig;
  p_metadata : StoryMetadata
}.

Definition forest : Preset :=
  {| defaultDescription :=
       js "You find yourself in a mysterious forest clearing. The air is thick with anticipation, and strange sounds echo in the distance.";
     p_lighting := {| intensity := 1.2; color := js "#fdf4c4"; ambient := 0.6;
                      shadows := true |};
     p_atmosphere := {| fog := true; fogDensity := Some 0.02%Q;
                        fogColor := Some (js "#d8e8f0"); particles := None |};
     p_metadata := {| mood := js "mysterious"; location := js "forest";
                      timeOfDay := js "day"; weatherConditions := js "clear" |} |}.

Definition ruins : Preset :=
  {| defaultDescription :=
       js "Ancient stone structures rise before you, covered in vines and moss. The remnants of a forgotten civilization.";
     p_lighting := {| intensity := 1.1; color := js "#e8d8c0"; ambient := 0.5;
                      shadows := true |};
     p_atmosphere := {| fog := true; fogDensity := Some 0.03%Q;
                        fogColor := Some (js "#e0e0d8"); particles := None |};
     p_metadata := {| mood := js "ancient"; location := js "ruins";
                      timeOfDay := js "day"; weatherConditions := js "clear" |} |}.

Definition cave : Preset :=
  {| defaultDescription :=
       js "The dark cave opens before you, stalactites hanging from the ceiling. Water drips somewhere in the distance.";
     p_lighting := {| intensity := 0.4; color := js "#a0c0e0"; ambient := 0.2;
                      shadows := true |};
     p_atmosphere := {| fog := true; fogDensity := Some 0.08%Q;
                        fogColor := Some (js "#202030"); particles := None |};
     p_metadata := {| mood := js "mysterious"; location := js "cave";
                      timeOfDay := js "night"; weatherConditions := js "enclosed" |} |}.

(** [baseEnvironments[key] || baseEnvironments.forest], for a key that is
    not the name of a member of [Object.prototype]. *)
Definition baseEnvironments (key : jstring) : Preset :=
  if jeqb key (js "forest") then forest
  else if jeqb key (js "ruins") then ruins
  else if jeqb key (js "cave") then cave
  else forest.

(** *** Summaries and prompts *)

Definition nl : jstring := [10%N].

(** [text.split('.')[0]] *)
Definition firstSentence (text : jstring) : jstring :=
  hd [] (split_on (cu_eqb (ch ".")) text).

Definition summaryPrompt (text previousSummary : jstring) : jstring :=
  nl ++ js "Summarize this story in a single concise paragraph (max 3 sentences):"
     ++ nl ++ nl ++ js "Previous summary: " ++ previousSummary
     ++ nl ++ nl ++ js "New content: " ++ text
     ++ nl ++ nl ++ js "Keep only the most important plot points and character information."
     ++ nl.

(** The summary that [generateSummary] falls back to when the model fails:
    a simple concatenation, limited in length. *)
Definition simpleSummary (text previousSummary : jstring) : jstring :=
  substring0 200
    (match previousSummary with
     | _ :: _ => previousSummary ++ js " Then, " ++ firstSentence text ++ js "."
     | [] => firstSentence text ++ js "."
     end).

Definition generateSummary (h : Host) (text previousSummary : jstring) : M jstring :=
  try_catch
    (summary <- generateText h (summaryPrompt text previousSummary) ;;
     ret (trim summary))
    (ret (simpleSummary text previousSummary)).

Definition REFRESH_PROMPT_AFTER_SEGMENTS : nat := 3.

Definition buildPrompt (summary lastParagraph setting : jstring) : jstring :=
  nl ++ js "Genre: Fantasy"
     ++ nl ++ js "Setting: " ++ setting
     ++ nl ++ js "Story summary: " ++ summary
     ++ nl ++ nl ++ js "Last scene:"
     ++ nl ++ lastParagraph
     ++ nl ++ nl
     ++ js "Write a brief continuation of this fantasy story in 2-3 sentences. Be vivid but concise."
     ++ nl.

Definition buildFreshPrompt (summary lastParagraph setting : jstring)
  (metadata : StoryMetadata) : jstring :=
  nl ++ js "RESET CONTEXT"
     ++ nl ++ js "Genre: Fantasy Adventure"
     ++ nl ++ js "Setting: A " ++ mood metadata ++ js " " ++ setting ++ js " during "
     ++ timeOfDay metadata ++ js ", " ++ weatherConditions metadata ++ js " conditions"
     ++ nl ++ nl ++ js "Complete Story Summary: " ++ summary
     ++ nl ++ nl ++ js "Most Recent Scene:"
     ++ nl ++ lastParagraph
     ++ nl ++ nl
     ++ js "Write a fresh, focused continuation of this fantasy story in 2-3 sentences."
     ++ nl ++ js "Be vivid but concise. Match the established mood and setting."
     ++ nl ++ js "Avoid repeating phrases from the summary."
     ++ nl.

Definition newSummaryPrompt (storySummary : jstring) : jstring :=
  nl ++ js "Create a fresh, concise summary (3 sentences max) of this fantasy story:"
     ++ nl ++ nl ++ storySummary
     ++ nl ++ nl
     ++ js "Focus only on the most important plot points and character development."
     ++ nl ++ js "Capture the essence of the story without using repetitive language."
     ++ nl.

(** Refresh the story's prompt and summary: on success the store takes the
    new summary and the segment count is reset; if the refresh fails the
    original summary is returned and the store is left as it is. *)
Definition refreshStoryPrompt (h : Host) (storySummary : jstring)
  (lastSegment : StorySegment) : M jstring :=
  try_catch
    (refreshedSummary <- generateText h (newSummaryPrompt storySummary) ;;
     updateStorySummary refreshedSummary ;;;
     resetSegmentCount ;;;
     ret refreshedSummary)
    (ret storySummary).

Definition choicesPromptTail : jstring :=
  nl ++ nl ++ js "RESPOND WITH ONLY THIS JSON FORMAT:"
     ++ nl
     ++ jsq "[{'text':'First choice text','consequence':'First choice result'},{'text':'Second choice text','consequence':'Second choice result'}]"
     ++ nl ++ nl ++ js "Keep each text and consequence under 10 words.".

(** *** [generateInitialStory] *)

Definition initialPrompt : jstring :=
  js "Write a brief, one-line introduction to a fantasy adventure".

Definition initialChoicesPrompt : jstring :=
  js "Answer with ONLY a JSON array and nothing else. Create two choices for a  adventure."
     ++ choicesPromptTail.

Definition forestEnvironment : EnvironmentDescription :=
  {| baseEnvironment := js "forest";
     lighting := p_lighting forest;
     atmosphere := p_atmosphere forest;
     props := [] |}.

(** The predefined story that [generateInitialStory] returns when
    generation fails. *)
Definition fallbackInitialSegment : StorySegment :=
  {| seg_text := defaultDescription forest;
     environment := forestEnvironment;
     choices :=
       [ choice_lit "Explore further"
           "You decide to venture deeper into this mysterious forest."
           (impact 0.8 0.1 (Some slide) 1.2 2);
         choice_lit "Stay cautious"
           "You decide to carefully observe your surroundings before proceeding."
           (impact 1.4 0.01 (Some fade) 1.1 2) ];
     metadata := p_metadata forest |}.

Definition generateInitialStory (h : Host) : M StorySegment :=
  try_catch
    (let environment := forest in
     generatedText <- generateText h initialPrompt ;;
     summary <- generateSummary h generatedText [] ;;
     updateStorySummary summary ;;;
     choicesText <- generateText h initialChoicesPrompt ;;
     choices <- parseChoicesFromText h choicesText ;;
     ret {| seg_text := or_else generatedText (defaultDescription environment);
            environment := forestEnvironment;
            choices := choices;
            metadata := p_metadata environment |})
    (let fallbackText := defaultDescription forest in
     summary <- try_catch (generateSummary h fallbackText [])
                          (ret (js "A protagonist finds themselves in a mysterious forest.")) ;;
     updateStorySummary summary ;;;
     ret fallbackInitialSegment).

(** *** [generateNextStorySegment] *)

(** [a.slice(-2)] on an array *)
Definition lastTwo {A : Type} (l : list A) : list A := skipn (length l - 2) l.

(** [currentStory.text.split(".").slice(-2).join(".").trim()] *)
Definition lastParagraphOf (text : jstring) : jstring :=
  trim (join (js ".") (lastTwo (split_on (cu_eqb (ch ".")) text))).

Definition nextChoicesPrompt (generatedText : jstring) : jstring :=
  js "Answer with ONLY a JSON array and nothing else. Create two choices based on this situation: "
     ++ [c_quote] ++ generatedText ++ [c_quote] ++ choicesPromptTail.

(** The next environment, from the generated text. *)
Definition nextEnvironmentOf (h : Host) (current generatedText : jstring) : jstring :=
  let lowerText := toLowerCase h generatedText in
  if includes lowerText (js "cave") || includes lowerText (js "cavern")
     || includes lowerText (js "underground")
  then js "cave"
  else if includes lowerText (js "ruin") || includes lowerText (js "ancient")
          || includes lowerText (js "structure")
  then js "ruins"
  else current.

(** The simpler story segment that [generateNextStorySegment] returns when
    generation fails: it is built from the current story and the choice
    alone. *)
Definition fallbackSegment (currentStory : StorySegment) (choice : Choice)
  : StorySegment :=
  {| seg_text := consequence choice
                   ++ js " As you continue your journey, new paths reveal themselves.";
     environment :=
       {| baseEnvironment := baseEnvironment (environment currentStory);
          lighting := mergeLighting (lighting (environment currentStory))
                        (lightingChange (environmentImpact choice));
          atmosphere := mergeAtmosphere (atmosphere (environment currentStory))
                          (atmosphereChange (environmentImpact choice));
          props := props (environment currentStory) |};
     choices :=
       [ choice_lit "Explore the area"
           "You take time to explore your surroundings."
           (impact 1.1 0.05 (Some zoom) 1.3 2.5);
         choice_lit "Continue on your path"
           "You decide to keep moving forward."
           (impact 0.9 0.03 (Some slide) 1.2 2) ];
     metadata :=
       {| mood := mood (metadata currentStory);
          location := baseEnvironment (environment currentStory);
          timeOfDay := timeOfDay (metadata currentStory);
          weatherConditions := weatherConditions (metadata currentStory) |} |}.

(** Either the standard prompt or the fresh prompt, based on whether the
    turn refreshes. *)
Definition storyPromptOf (currentStory : StorySegment) (shouldRefreshPrompt : bool)
  (workingSummary : jstring) : jstring :=
  let lastParagraph := lastParagraphOf (seg_text currentStory) in
  if shouldRefreshPrompt
  then buildFreshPrompt workingSummary lastParagraph
         (baseEnvironment (environment currentStory)) (metadata currentStory)
  else buildPrompt workingSummary lastParagraph
         (baseEnvironment (environment currentStory)).

(** The [try] block from the continuation prompt on: what follows the
    refresh decision. *)
Definition continueStory (h : Host) (currentStory : StorySegment) (choice : Choice)
  (shouldRefreshPrompt : bool) (workingSummary : jstring) : M StorySegment :=
  let nextText := consequence choice ++ js " " in
  let storyPrompt := storyPromptOf currentStory shouldRefreshPrompt workingSummary in
  generatedText <- generateText h storyPrompt ;;
  let fullNewText := nextText ++ generatedText in
  (if shouldRefreshPrompt then ret tt
   else updatedSummary <- generateSummary h fullNewText workingSummary ;;
        updateStorySummary updatedSummary) ;;;
  let nextEnvironment :=
    nextEnvironmentOf h (baseEnvironment (environment currentStory)) generatedText in
  let environmentSettings := baseEnvironments nextEnvironment in
  choicesText <- generateText h (nextChoicesPrompt generatedText) ;;
  newChoices <- parseChoicesFromText h choicesText ;;
  ret {| seg_text := fullNewText;
         environment :=
           {| baseEnvironment := nextEnvironment;
              lighting := mergeLighting (lighting (environment currentStory))
                            (lightingChange (environmentImpact choice));
              atmosphere := mergeAtmosphere (atmosphere (environment currentStory))
                              (atmosphereChange (environmentImpact choice));
              props := props (environment currentStory) |};
         choices := newChoices;
         metadata :=
           {| mood := mood (p_metadata environmentSettings);
              location := nextEnvironment;
              timeOfDay := timeOfDay (p_metadata environmentSettings);
              weatherConditions := weatherConditions (p_metadata environmentSettings) |} |}.

(** [segmentsSincePromptRefresh >= REFRESH_PROMPT_AFTER_SEGMENTS], on the
    count read before it is incremented. *)
Definition shouldRefresh (st : Store) : bool :=
  Nat.leb REFRESH_PROMPT_AFTER_SEGMENTS (segmentsSincePromptRefresh st).

(** The body of the [try] block. *)
Definition nextSegmentBody (h : Host) (currentStory : StorySegment) (choice : Choice)
  : M StorySegment :=
  st <- getState ;;
  incrementSegmentCount ;;;
  let shouldRefreshPrompt := shouldRefresh st in
  workingSummary <- (if shouldRefreshPrompt
                     then refreshStoryPrompt h (storySummary st) currentStory
                     else ret (storySummary st)) ;;
  continueStory h currentStory choice shouldRefreshPrompt workingSummary.

Definition generateNextStorySegment (h : Host) (currentStory : StorySegment)
  (choice : Choice) : M StorySegment :=
  try_catch (nextSegmentBody h currentStory choice)
            (ret (fallbackSegment currentStory choice)).

End V1.

(** ** Second revision of [services/storyGeneration.ts] *)

Module V2.

Definition REFRESH_PROMPT_AFTER_SEGMENTS : nat := 3.

(** *** [cleanText] *)

(** After the four replacements of the first revision's final cleanup:
    [/[<>\u2039\u203A\u203C]/g], [/\u00A0/g], [/(\.\s+|\n|^)ou\b/g],
    [/(\.\s+|\n|^)he\b/g], [/\s+([,.!?])/g], [/([.!?])(?=[a-zA-Z])/g],
    and the test [/[.!?]$/]. *)
Definition is_odd_bracket (c : cu) : bool :=
  in_set "<>" c || cu_eqb c 8249%N || cu_eqb c 8250%N || cu_eqb c 8252%N.
Definition bracketsRegex : re := Chr is_odd_bracket.
Definition nbspRegex : re := Chr (cu_eqb 160%N).
Definition sentenceStart : re :=
  Grp 1 (Alt (Seq (chr ".") (plus true ws)) (Alt (chr "010") Bol)).
Definition ouRegex : re := seqs [sentenceStart; lit "ou"; WordB].
Definition heRegex : re := seqs [sentenceStart; lit "he"; WordB].
Definition spaceBeforeRegex : re := seqs [plus true ws; Grp 1 (cls ",.!?")].
Definition noSpaceAfterRegex : re := seqs [Grp 1 (cls ".!?"); Ahead (Chr is_alpha)].
Definition endsInPunctuationRegex : re := seqs [cls ".!?"; Eol].

Definition stripPrompt (text prompt : jstring) : jstring :=
  let cleanedText := trim text in
  if startsWith cleanedText prompt
  then trim (slice_from (length prompt) cleanedText)
  else cleanedText.

Definition normalise (cleanedText : jstring) : jstring :=
  replace_all noSpaceAfterRegex (fun m => grp m 1 ++ js " ")
    (replace_all spaceBeforeRegex (fun m => grp m 1)
       (replace_all heRegex (fun m => grp m 1 ++ js "The")
          (replace_all ouRegex (fun m => grp m 1 ++ js "You")
             (replace_all nbspRegex (fun _ => js " ")
                (replace_all bracketsRegex (fun _ => [])
                   (V1.finalCleanup cleanedText)))))).

Definition cleanText (text prompt : jstring) : jstring :=
  let cleanedText := normalise (V1.limitLength (stripPrompt text prompt)) in
  let cleanedText :=
    if test endsInPunctuationRegex cleanedText then cleanedText
    else cleanedText ++ js "." in
  if Nat.ltb 20 (length cleanedText) then cleanedText
  else V1.or_else cleanedText (js "The adventure continues...").

(** *** [generateText] *)

Definition generateText (h : Host) (prompt : jstring) : M jstring :=
  try_catch
    (text <- request h prompt ;;
     ret (cleanText text prompt))
    throw.

(** *** [generateChoices] *)

Definition choicesPrompt (trimmedContext : jstring) : jstring :=
  js "Based on this fantasy adventure context: " ++ [c_quote] ++ trimmedContext
     ++ [c_quote] ++ js " 

Generate two distinct, compelling choices for what the protagonist could do next.
Each choice should:
1. Be brief (3-7 words)
2. Offer a clear action
3. Suggest different approaches/directions
4. Fit the current story situation

Format each choice on a new line:".

(** The separators of [/[\.|\n|;]/] and the two filters
    [/[:|\x22]/] and [/^[0-9\-*•]/]. *)
Definition is_separator (c : cu) : bool := in_set ".|;" c || cu_eqb c 10%N.
Definition unwantedRegex : re := Chr (fun c => in_set ":|" c || cu_eqb c c_quote).
Definition leadingRegex : re :=
  Seq Bol (Chr (fun c => is_digit c || in_set "-*" c || cu_eqb c V1.c_bullet)).

Definition goodLine (line : jstring) : bool :=
  let goodLength := Nat.ltb 3 (length line) && Nat.ltb (length line) 50 in
  let noUnwantedChars := negb (test unwantedRegex line) in
  let noLeadingNumbersOrBullets := negb (test leadingRegex line) in
  goodLength && noUnwantedChars && noLeadingNumbersOrBullets.

Definition consequenceOf (h : Host) (line : jstring) : jstring :=
  js "You decide to "
     ++ replace_first (Seq (chr ".") Eol) (fun _ => []) (toLowerCase h line)
     ++ js ".".

Definition defaultChoices : list RChoice :=
  [ choice_lit "Investigate further"
      "You decide to investigate further into the mystery."
      (impact 0.8 0.1 (Some fade) 1.2 2);
    choice_lit "Take an alternative path"
      "You choose a different direction, seeking a new opportunity."
      (impact 1.2 0.01 (Some slide) 1.3 2.5) ].

Definition failedChoices : list RChoice :=
  [ choice_lit "Explore the unknown"
      "You venture deeper into the mysterious surroundings."
      (impact 0.8 0.1 (Some slide) 1.2 2.5);
    choice_lit "Proceed with caution"
      "You move forward carefully, alert to the dangers around you."
      (impact 1.2 0.01 (Some fade) 1.1 2) ].

Definition generateChoices (h : Host) (context : jstring) : M (list RChoice) :=
  try_catch
    (let trimmedContext := slice_last 200 context in
     choicesText <- generateText h (choicesPrompt trimmedContext) ;;
     let lines := filter goodLine (map trim (split_on is_separator choicesText)) in
     match lines with
     | l0 :: l1 :: _ =>
         r <- mathRandom h ;;
         let secondChoiceTransition := if Qle_bool r 0.5 then slide else zoom in
         ret [ {| text := JStr l0; consequence := JStr (consequenceOf h l0);
                  environmentImpact := impact 0.8 0.1 (Some fade) 1.2 2 |};
               {| text := JStr l1; consequence := JStr (consequenceOf h l1);
                  environmentImpact :=
                    impact 1.2 0.01 (Some secondChoiceTransition) 1.3 2.5 |} ]
     | _ => ret defaultChoices
     end)
    (ret failedChoices).

(** *** Environment presets and [getEnvironment] *)

Inductive envKey : Type := k_forest | k_cave | k_ruins.

Definition keyName (k : envKey) : jstring :=
  match k with
  | k_forest => js "forest"
  | k_cave => js "cave"
  | k_ruins => js "ruins"
  end.

(** The presets have the lighting, atmosphere and metadata of the first
    revision's, under other descriptions. *)
Definition environments (k : envKey) : V1.Preset :=
  match k with
  | k_forest =>
      {| V1.defaultDescription :=
           js "A mysterious forest with ancient trees reaching toward the sky.";
         V1.p_lighting := {| intensity := 1.2; color := js "#fdf4c4"; ambient := 0.6;
                             shadows := true |};
         V1.p_atmosphere := {| fog := true; fogDensity := Some 0.02%Q;
                               fogColor := Some (js "#d8e8f0"); particles := None |};
         V1.p_metadata := {| mood := js "mysterious"; location := js "forest";
                             timeOfDay := js "day"; weatherConditions := js "clear" |} |}
  | k_cave =>
      {| V1.defaultDescription :=
           js "A dark cave with stalactites hanging from the ceiling.";
         V1.p_lighting := {| intensity := 0.4; color := js "#a0c0e0"; ambient := 0.2;
                             shadows := true |};
         V1.p_atmosphere := {| fog := true; fogDensity := Some 0.08%Q;
                               fogColor := Some (js "#202030"); particles := None |};
         V1.p_metadata := {| mood := js "mysterious"; location := js "cave";
                             timeOfDay := js "night"; weatherConditions := js "enclosed" |} |}
  | k_ruins =>
      {| V1.defaultDescription := js "Ancient ruins of a forgotten civilization.";
         V1.p_lighting := {| intensity := 1.1; color := js "#e8d8c0"; ambient := 0.5;
                             shadows := true |};
         V1.p_atmosphere := {| fog := true; fogDensity := Some 0.03%Q;
                               fogColor := Some (js "#e0e0d8"); particles := None |};
         V1.p_metadata := {| mood := js "ancient"; location := js "ruins";
                             timeOfDay := js "day"; weatherConditions := js "clear" |} |}
  end.

Definition getEnvironment (h : Host) (text : jstring) : envKey :=
  let lowerText := toLowerCase h text in
  if includes lowerText (js "cave") || includes lowerText (js "underground")
     || includes lowerText (js "dark")
  then k_cave
  else if includes lowerText (js "ruin") || includes lowerText (js "ancient")
          || includes lowerText (js "temple")
  then k_ruins
  else k_forest.

(** *** [generateInitialStory] *)

Definition initialPrompt : jstring :=
  js "Write an engaging opening to a fantasy adventure. 
Establish a clear setting and atmosphere in 2-3 sentences. 
Use second-person perspective (you) and set up an intriguing situation:".

Definition forestEnvironment : EnvironmentDescription :=
  {| baseEnvironment := keyName k_forest;
     lighting := V1.p_lighting (environments k_forest);
     atmosphere := V1.p_atmosphere (environments k_forest);
     props := [] |}.

Definition fallbackInitialSegment : StorySegment :=
  {| seg_text :=
       js "You find yourself in a mysterious forest clearing. The air is thick with anticipation, and strange sounds echo in the distance. The ancient trees around you seem to watch your every move.";
     environment := forestEnvironment;
     choices :=
       [ choice_lit "Explore the forest"
           "You venture deeper into the mysterious forest."
           (impact 0.8 0.1 (Some slide) 1.2 2);
         choice_lit "Look for a path"
           "You search for a clear path through the trees."
           (impact 1.2 0.01 (Some fade) 1.1 2) ];
     metadata := V1.p_metadata (environments k_forest) |}.

Definition generateInitialStory (h : Host) : M StorySegment :=
  try_catch
    (text <- generateText h initialPrompt ;;
     updateStorySummary text ;;;
     choices <- generateChoices h text ;;
     ret {| seg_text := text;
            environment := forestEnvironment;
            choices := choices;
            metadata := V1.p_metadata (environments k_forest) |})
    (ret fallbackInitialSegment).

(** *** [generateNextStorySegment] *)

Definition freshPrompt (currentStory : StorySegment) (storySummary : jstring)
  (choice : Choice) : jstring :=
  js "Fantasy adventure setting: " ++ baseEnvironment (environment currentStory)
     ++ js "
      
Previous events: " ++ storySummary ++ js "

Current situation: " ++ consequence choice ++ js "

Continue the adventure by describing what happens next. Use vivid details and second-person perspective.
Write 2-3 sentences that advance the story in an interesting way:".

Definition standardPrompt (storySummary : jstring) (choice : Choice) : jstring :=
  js "Fantasy adventure in progress:
      
Story so far: " ++ [c_quote] ++ slice_last 300 storySummary ++ [c_quote] ++ js "

The protagonist just chose to: " ++ text choice ++ js "
This leads to: " ++ consequence choice ++ js "

Continue the story with 2-3 vivid sentences that advance the plot. 
Use second-person perspective (you) and include sensory details:".

(** Join the consequence and the generated text with proper spacing and
    avoiding redundancy. *)
Definition joinText (consequence generatedText : jstring) : jstring :=
  if negb (startsWith generatedText consequence) then
    (if negb (endsWith consequence (js ".")) && negb (endsWith consequence (js "!"))
        && negb (endsWith consequence (js "?"))
     then consequence ++ js ". "
     else consequence ++ js " ")
    ++ generatedText
  else generatedText.

Definition maxSummaryLength : nat := 1000.

Definition fallbackSegment (currentStory : StorySegment) (choice : Choice)
  : StorySegment :=
  let envType := baseEnvironment (environment currentStory) in
  {| seg_text := consequence choice
                   ++ js " As you continue your journey, new paths reveal themselves before you. The atmosphere shifts, hinting at unknown adventures ahead.";
     environment :=
       {| baseEnvironment := envType;
          lighting := mergeLighting (lighting (environment currentStory))
                        (lightingChange (environmentImpact choice));
          atmosphere := mergeAtmosphere (atmosphere (environment currentStory))
                          (atmosphereChange (environmentImpact choice));
          props := props (environment currentStory) |};
     choices :=
       [ choice_lit "Explore further"
           "You decide to explore the area more thoroughly."
           (impact 0.8 0.1 (Some slide) 1.2 2.5);
         choice_lit "Take a cautious approach"
           "You proceed with caution, carefully observing your surroundings."
           (impact 1.2 0.01 (Some fade) 1.1 2) ];
     metadata :=
       {| mood := mood (metadata currentStory);
          location := envType;
          timeOfDay := timeOfDay (metadata currentStory);
          weatherConditions := weatherConditions (metadata currentStory) |} |}.

(** The [try] block from the completion of the prompt on. *)
Definition continueStory (h : Host) (currentStory : StorySegment) (choice : Choice)
  (storySummary prompt : jstring) : M StorySegment :=
  generatedText <- generateText h prompt ;;
  let fullText := joinText (consequence choice) generatedText in
  let newSummary :=
    slice_last maxSummaryLength (storySummary ++ js " " ++ fullText) in
  updateStorySummary newSummary ;;;
  let envType := getEnvironment h fullText in
  let env := environments envType in
  choices <- generateChoices h fullText ;;
  ret {| seg_text := fullText;
         environment :=
           {| baseEnvironment := keyName envType;
              lighting := mergeLighting (V1.p_lighting env)
                            (lightingChange (environmentImpact choice));
              atmosphere := mergeAtmosphere (V1.p_atmosphere env)
                              (atmosphereChange (environmentImpact choice));
              props := props (environment currentStory) |};
         choices := choices;
         metadata :=
           {| mood := mood (V1.p_metadata env);
              location := keyName envType;
              timeOfDay := timeOfDay (V1.p_metadata env);
              weatherConditions := weatherConditions (V1.p_metadata env) |} |}.

Definition shouldRefresh (st : Store) : bool :=
  Nat.leb REFRESH_PROMPT_AFTER_SEGMENTS (segmentsSincePromptRefresh st).

(** The body of the [try] block. *)
Definition nextSegmentBody (h : Host) (currentStory : StorySegment) (choice : Choice)
  : M StorySegment :=
  st <- getState ;;
  incrementSegmentCount ;;;
  prompt <- (if shouldRefresh st
             then resetSegmentCount ;;;
                  ret (freshPrompt currentStory (storySummary st) choice)
             else ret (standardPrompt (storySummary st) choice)) ;;
  continueStory h currentStory choice (storySummary st) prompt.

Definition generateNextStorySegment (h : Host) (currentStory : StorySegment)
  (choice : Choice) : M StorySegment :=
  try_catch (nextSegmentBody h currentStory choice)
            (ret (fallbackSegment currentStory choice)).

End V2.

(** ** The story store and the hook that drives the generation
    ([store/storyState.ts], [hooks/useStoryGeneration.ts])

    The store as the hook sees it: the current segment, the history, the
    loading flag, the error and, in [session], the summary and the segment
    count with the runtime's counters.  The download progress, the current
    file and the initialisation flag are written while the model loads, which
    the host stands for, and are left out. *)

Record StoryState : Type := {
  currentSegment : option StorySegment;
  storyHistory : list StorySegment;
  isLoading : bool;
  error : option jstring;
  session : World
}.

Definition initialState : StoryState :=
  {| currentSegment := None; storyHistory := []; isLoading := false; error := None;
     session := initialWorld |}.

Definition setCurrentSegment (segment : StorySegment) (st : StoryState) : StoryState :=
  {| currentSegment := Some segment;
     storyHistory := storyHistory st ++ [segment];
     isLoading := isLoading st; error := error st; session := session st |}.

Definition makeChoice (_ : Choice) (st : StoryState) : StoryState :=
  {| currentSegment := currentSegment st; storyHistory := storyHistory st;
     isLoading := true; error := error st; session := session st |}.

Definition resetStory (st : StoryState) : StoryState :=
  {| currentSegment := None; storyHistory := []; isLoading := isLoading st;
     error := None; session := set_store initialStore (session st) |}.

Definition setLoading (loading : bool) (st : StoryState) : StoryState :=
  {| currentSegment := currentSegment st; storyHistory := storyHistory st;
     isLoading := loading; error := error st; session := session st |}.

Definition setError (e : option jstring) (st : StoryState) : StoryState :=
  {| currentSegment := currentSegment st; storyHistory := storyHistory st;
     isLoading := false; error := e; session := session st |}.

(** The store after a run of the generation service. *)
Definition withSession (w : World) (st : StoryState) : StoryState :=
  {| currentSegment := currentSegment st; storyHistory := storyHistory st;
     isLoading := isLoading st; error := error st; session := w |}.

(** The actions that write the summary and the segment count. *)
Definition onSession (m : M unit) (st : StoryState) : StoryState :=
  withSession (snd (m (session st))) st.

(** What a rejected promise carries: the message of an [Error], or
    something that is not an [Error]. *)
Inductive thrown : Type :=
| AnError (message : jstring)
| NotAnError.

(** [error instanceof Error ? error.message : fallback] *)
Definition messageOf (e : thrown) (fallback : jstring) : jstring :=
  match e with AnError m => m | NotAnError => fallback end.

Definition noSegmentMessage : jstring :=
  js "No current story segment found. Please start a new story.".

(** [generateStoryStart] and [generateNextSegment].  [service] is the
    function imported from [services/storyGeneration]; [rejection] is what
    its promise rejects with, should it reject. *)
Definition generateStoryStart (service : M StorySegment) (rejection : thrown)
  (st : StoryState) : StoryState :=
  let st := setLoading true (setError None st) in
  let st :=
    match service (session st) with
    | (Ret initialStory, w) => setCurrentSegment initialStory (withSession w st)
    | (Throw, w) =>
        setError
          (Some (messageOf rejection
                   (js "Failed to generate story. Please check your internet connection and try again.")))
          (withSession w st)
    end in
  setLoading false st.

Definition generateNextSegment (service : StorySegment -> Choice -> M StorySegment)
  (rejection : thrown) (choice : Choice) (st : StoryState) : StoryState :=
  let st := setLoading true (setError None st) in
  let st :=
    match currentSegment st with
    | None => setError (Some (messageOf (AnError noSegmentMessage)
                                (js "Failed to generate the next part of the story. Please try again.")))
                       st
    | Some current =>
        match service current choice (session st) with
        | (Ret nextSegment, w) => setCurrentSegment nextSegment (withSession w st)
        | (Throw, w) =>
            setError
              (Some (messageOf rejection
                       (js "Failed to generate the next part of the story. Please try again.")))
              (withSession w st)
        end
    end in
  setLoading false st.

(** ** The application ([App.tsx]) *)

(** [getPreviousSegment] *)
Definition getPreviousSegment (st : StoryState) : option StorySegment :=
  if Nat.ltb (length (storyHistory st)) 2 then None
  else nth_error (storyHistory st) (length (storyHistory st) - 2).

(** [x || d] on a number that may be absent. *)
Definition or_number (x : option Q) (d : Q) : Q :=
  match x with
  | Some v => if Qeq_bool v 0 then d else v
  | None => d
  end.

Definition animationEffectType : jstring := js "animationEffect".

(** The prop in which [handleChoiceSelected] stores the animation of a
    choice: the transition as a number, the intensity and the duration. *)
Definition animationProp (e : AnimationEffect) : Prop_ :=
  {| prop_type := animationEffectType;
     position :=
       ((match transitionType e with
         | Some fade => 0
         | Some slide => 1
         | _ => 2
         end)%Q,
        or_number (anim_intensity e) 1, or_number (duration e) 2);
     rotation := None;
     scale := Some (or_number (anim_intensity e) 1, 1%Q, 1%Q) |}.

Definition isAnimationProp (p : Prop_) : bool := jeqb (prop_type p) animationEffectType.

(** The props that [handleChoiceSelected] gives the current segment before
    it asks for the next one. *)
Definition propsAfterChoice (impact : EnvironmentModification) (props : list Prop_)
  : list Prop_ :=
  match animationEffect impact with
  | Some e => filter (fun p => negb (isAnimationProp p)) props ++ [animationProp e]
  | None => props
  end.

(** ** The environment view ([components/BasicEnvironment.tsx]) *)

(** The animation that the view reads back from the props when the
    metadata has changed. *)
Definition animationOfProps (props : list Prop_) : option (TransitionType * Q * Q) :=
  match find isAnimationProp props with
  | Some animationEffectProp =>
      let '(t, i, d) := position animationEffectProp in
      Some (if Qeq_bool t 0 then fade else if Qeq_bool t 1 then slide else zoom, i, d)
  | None => None
  end.

(** ** The environment transition ([hooks/useEnvironmentTransition.ts]) *)

(** The environment that [transitionEnvironment] resolves to. *)
Definition transitionEnvironment (currentEnvironment : EnvironmentDescription)
  (modification : EnvironmentModification) : EnvironmentDescription :=
  let props0 := props currentEnvironment in
  let props1 :=
    match addProps modification with
    | Some added => props0 ++ added
    | None => props0
    end in
  let props2 :=
    match removeProps modification with
    | Some removed =>
        filter (fun prop => negb (existsb (jeqb (prop_type prop)) removed)) props1
    | None => props1
    end in
  {| baseEnvironment := baseEnvironment currentEnvironment;
     lighting := mergeLighting (lighting currentEnvironment) (lightingChange modification);
     atmosphere := mergeAtmosphere (atmosphere currentEnvironment)
                     (atmosphereChange modification);
     props := props2 |}.

(** ** The result of the pipeline ([generateText], both revisions)

    A result of the text-generation pipeline is taken as a plain value, or
    [undefined] ([None]).  [None] as an outcome is a throw: the [throw] of
    the source, or the TypeError of reading a property of [null] or
    [undefined] or of calling [trim] on something that is not a string. *)

(** [typeof v === 'object'] on a value that is not [undefined]. *)
Definition isObjectType (v : json) : bool :=
  match v with JNull | JArr _ | JObj _ => true | _ => false end.

(** ['generated_text' in v] for [v] of type object and not [null]. *)
Definition hasGeneratedText (v : json) : bool :=
  match v with
  | JObj l => match member (js "generated_text") (rev l) with Some _ => true | None => false end
  | _ => false
  end.

Definition isString (v : option json) : bool :=
  match v with Some (JStr _) => true | _ => false end.

(** [result.generated_text], for [result] neither [null] nor [undefined]. *)
Definition generated_text (v : json) : option json :=
  match get_prop v (js "generated_text") with Some x => x | None => None end.

Definition isSingleGeneration (result : option json) : bool :=
  match result with
  | Some v => truthy v && isObjectType v && hasGeneratedText v
              && isString (generated_text v)
  | None => false
  end.

Definition isGenerationArray (result : option json) : bool :=
  match result with
  | Some (JArr l) => Nat.ltb 0 (length l) && isSingleGeneration (nth_error l 0)
  | _ => false
  end.

(** The text that the first revision takes from a result. *)
Definition V1_generatedTextOf (result : option json) : option jstring :=
  if isGenerationArray result then
    match result with
    | Some (JArr (v :: _)) =>
        match generated_text v with Some (JStr s) => Some s | _ => None end
    | _ => None
    end
  else if isSingleGeneration result then
    match result with
    | Some v => match generated_text v with Some (JStr s) => Some s | _ => None end
    | None => None
    end
  else None.

(** The text that the second revision passes to [cleanText], and what
    [cleanText] can trim: a string. *)
Definition V2_generatedTextOf (result : option json) : option jstring :=
  let text :=
    match result with
    | Some (JArr (v :: _)) =>
        match get_prop v (js "generated_text") with
        | Some x => Some x
        | None => None
        end
    | Some v =>
        if truthy v && isObjectType v && hasGeneratedText v
        then Some (generated_text v)
        else None
    | None => None
    end in
  match text with
  | Some (Some (JStr s)) => Some s
  | _ => None
  end.

(** * Notions used to state the properties *)

Unset Implicit Arguments.

(** [m] never throws. *)
Definition total {A : Type} (m : M A) : Prop :=
  forall w, exists a w', m w = (Ret a, w').

(** Every run of [m] relates the world it starts in to the one it ends
    in by [R], whether it returns or throws. *)
Definition keeps (R : World -> World -> Prop) {A : Type} (m : M A) : Prop :=
  forall w, R w (snd (m w)).

(** Relations between the world before a run and the world after it: the
    store is untouched; the segment count is untouched; the summary is
    untouched. *)
Definition same_store (w w' : World) : Prop := store w' = store w.
Definition same_count (w w' : World) : Prop :=
  segmentsSincePromptRefresh (store w') = segmentsSincePromptRefresh (store w).
Definition same_summary (w w' : World) : Prop :=
  storySummary (store w') = storySummary (store w).

(** Nothing but [Math.random] was used: store, trace and the count of model
    requests are as before. *)
Definition quiet (w w' : World) : Prop :=
  store w' = store w /\ calls w' = calls w /\ trace w' = trace w.

(** The trace only grows. *)
Definition trace_grows (w w' : World) : Prop := exists tl, trace w' = trace w ++ tl.

(** The intensity that a choice sets the lighting to, if it sets one. *)
Definition lightingIntensity (c : RChoice) : option Q :=
  match lightingChange (environmentImpact c) with
  | Some l => d_intensity l
  | None => None
  end.

(** Text and consequence of [c] are values that [||] lets through: not
    [undefined], [null], [false], zero or the empty string. *)
Definition usable (c : RChoice) : Prop :=
  truthy (text c) = true /\ truthy (consequence c) = true.

(** The shape of a pair built by approaches 2 and 3. *)
Definition scraped (cs : list RChoice) : Prop :=
  exists t1 c1 t2 c2, cs = V1.pairOf t1 c1 t2 c2.

(** A host whose model always fails, whose [Math.random] always gives 0 and
    which lowers ASCII letters only: enough to run the program on ASCII
    text. *)
Definition silentHost : Host :=
  {| complete := fun _ _ => None;
     random := fun _ => 0%Q;
     toLowerCase := map to_lower_ascii |}.

(** A host that answers the [n]-th request with [answers n], whatever the
    prompt. *)
Definition scriptedHost (answers : nat -> option jstring) : Host :=
  {| complete := fun n _ => answers n;
     random := fun _ => 0%Q;
     toLowerCase := map to_lower_ascii |}.

(** A string that is not empty. *)
Definition nonEmptyString (v : json) : Prop := exists s, v = JStr s /\ s <> [].

(** The contract of the extractor as the specification words it: exactly
    two choices, each with a non-empty text and consequence, and impacts
    that are not identical. *)
Definition extractsExactlyTwo (h : Host) (raw : jstring) (w : World) : Prop :=
  exists c1 c2 w',
    V1.parseChoicesFromText h raw w = (Ret [c1; c2], w') /\
    nonEmptyString (text c1) /\ nonEmptyString (consequence c1) /\
    nonEmptyString (text c2) /\ nonEmptyString (consequence c2) /\
    environmentImpact c1 <> environmentImpact c2.

(** The list that a run returns; empty if it throws. *)
Definition returned {A : Type} (r : outcome (list A) * World) : list A :=
  match fst r with Ret l => l | Throw => [] end.

(** Two inputs of the extractor: a well-formed array of three objects, and
    prose in which the quoted texts are blank. *)
Definition threeObjects : jstring := jsq "[{'text':'a'},{'text':'b'},{'text':'c'}]".
Definition blankTexts : jstring :=
  jsq "text:' ',consequence:'a',text:' ',consequence:'b'".

(** The input of the scenario of the specification: a well-formed array of
    two choices. *)
Definition runOrFight : jstring :=
  jsq "[{'text':'Run','consequence':'You flee'},{'text':'Fight','consequence':'You attack'}]".

(** What the model answers to the refresh request of a turn that starts
    in [w]. *)
Definition refreshAnswer (h : Host) (w : World) : option jstring :=
  complete h (calls w) (V1.newSummaryPrompt (storySummary (store w))).

(** The fresh summary that a refresh stores. *)
Definition freshSummary (raw : jstring) (w : World) : jstring :=
  V1.cleanGeneratedText raw (V1.newSummaryPrompt (storySummary (store w))).

(** The world in which a turn started in [w] goes on after the refresh
    decision. *)
Definition afterRefresh (h : Host) (w : World) : World :=
  let w1 := snd (incrementSegmentCount w) in
  let p := V1.newSummaryPrompt (storySummary (store w)) in
  if V1.shouldRefresh (store w) then
    match refreshAnswer h w with
    | Some raw =>
        snd (resetSegmentCount
               (snd (updateStorySummary (freshSummary raw w) (asked p true w1))))
    | None => asked p false w1
    end
  else w1.

(** The summary that the turn goes on with: the fresh one if the turn
    refreshes and the refresh succeeds, the stored one otherwise. *)
Definition workingSummaryOf (h : Host) (w : World) : jstring :=
  if V1.shouldRefresh (store w) then
    match refreshAnswer h w with
    | Some raw => freshSummary raw w
    | None => storySummary (store w)
    end
  else storySummary (store w).

(** The segment count after a turn: reset by a refresh that succeeded,
    one more than at entry otherwise. *)
Definition countAfter (h : Host) (w : World) : nat :=
  if V1.shouldRefresh (store w) then
    match refreshAnswer h w with
    | Some _ => 0
    | None => segmentsSincePromptRefresh (store w) + 1
    end
  else segmentsSincePromptRefresh (store w) + 1.

(** [h] with a model that always fails. *)
Definition mute (h : Host) : Host :=
  {| complete := fun _ _ => None;
     random := random h;
     toLowerCase := toLowerCase h |}.

(** The world that one call of [generateNextStorySegment] leaves. *)
Definition worldAfter (h : Host) (cur : StorySegment) (ch : Choice) (w : World) : World :=
  snd (V1.generateNextStorySegment h cur ch w).

(** The segment count of the store. *)
Definition countOf (w : World) : nat := segmentsSincePromptRefresh (store w).

(** The continuation prompt of a turn that starts in [w]. *)
Definition continuationPrompt (h : Host) (cur : StorySegment) (w : World) : jstring :=
  V1.storyPromptOf cur (V1.shouldRefresh (store w)) (workingSummaryOf h w).

(** A choice to run scenarios with, and a host whose model answers every
    request with the same sentence. *)
Definition goOn : Choice :=
  {| text := js "Go on";
     consequence := js "You go on";
     environmentImpact := impact 0.8 0.1 (Some fade) 1.2 2 |}.

Definition steadyHost : Host :=
  scriptedHost (fun _ => Some (js "The road bends to the north.")).


(** The claim as it is worded: a call that returns the fallback segment
    leaves the count one above its value at entry. *)
Definition fallbackKeepsIncrement (h : Host) (cur : StorySegment) (ch : Choice)
  (w : World) : Prop :=
  fst (V1.generateNextStorySegment h cur ch w) = Ret (V1.fallbackSegment cur ch) ->
  countOf (worldAfter h cur ch w) = countOf w + 1.

(** A host whose model answers the first request and fails from then on,
    and a world in which a refresh is due: the first request of a turn that
    starts there is the refresh request. *)
Definition refreshThenFail : Host :=
  scriptedHost (fun n => match n with
                         | 0 => Some (js "A traveller crossed the forest.")
                         | _ => None
                         end).

Definition dueWorld : World :=
  {| store := {| storySummary := js "A traveller set out.";
                 segmentsSincePromptRefresh := 3 |};
     calls := 0; draws := 0; trace := [] |}.

(** The second revision: the prompt of a turn and the world in which it
    is completed. *)
Definition V2_prompt (cur : StorySegment) (ch : Choice) (w : World) : jstring :=
  if V2.shouldRefresh (store w)
  then V2.freshPrompt cur (storySummary (store w)) ch
  else V2.standardPrompt (storySummary (store w)) ch.

Definition V2_afterRefresh (w : World) : World :=
  let w1 := snd (incrementSegmentCount w) in
  if V2.shouldRefresh (store w) then snd (resetSegmentCount w1) else w1.

(** A host whose model tells of a cave, then answers every other request
    with two well-formed choices. *)
Definition caveHost : Host :=
  scriptedHost (fun n => match n with
                         | 0 => Some (js "You enter a cave.")
                         | _ => Some runOrFight
                         end).


(** The join of consequence and continuation in the specification's words:
    the consequence is prepended to the generated text, joined with a
    period when it lacks terminal punctuation, unless the generated text
    already restates the consequence at its start. *)
Definition joinAsSpecified (consequence generated : jstring) : jstring :=
  if startsWith generated consequence then generated
  else if endsWith consequence (js ".") || endsWith consequence (js "!")
          || endsWith consequence (js "?")
       then consequence ++ js " " ++ generated
       else consequence ++ js ". " ++ generated.

(** A host whose model restates the consequence of [goOn] before it goes
    on. *)
Definition restatingHost : Host :=
  scriptedHost (fun n => match n with
                         | 0 => Some (js "You go on. It rains.")
                         | _ => Some runOrFight
                         end).

(** The summary of the store is at most [cap] characters long. *)
Definition summaryWithin (cap : nat) (w : World) : Prop :=
  length (storySummary (store w)) <= cap.

(** The summary is within the cap of the second revision, the larger of
    the two caps of the source. *)
Definition summaryWithinCap (w : World) : Prop :=
  summaryWithin V2.maxSummaryLength w.

(** The world that one call of the second revision's
    [generateNextStorySegment] leaves. *)
Definition V2_worldAfter (h : Host) (cur : StorySegment) (ch : Choice) (w : World)
  : World :=
  snd (V2.generateNextStorySegment h cur ch w).

(** Successive turns of the second revision. *)
Fixpoint V2_turns (h : Host) (inputs : list (StorySegment * Choice)) (w : World)
  : World :=
  match inputs with
  | [] => w
  | (cur, ch) :: rest => V2_turns h rest (V2_worldAfter h cur ch w)
  end.





(** Patterns without lookahead. *)
Fixpoint no_ahead (r : re) : bool :=
  match r with
  | Seq a b | Alt a b => no_ahead a && no_ahead b
  | Star _ a | Grp _ a => no_ahead a
  | Ahead _ => false
  | _ => true
  end.

(** The least number of characters that a match of [r] consumes. *)
Fixpoint min_len (r : re) : nat :=
  match r with
  | Chr _ => 1
  | Seq a b => min_len a + min_len b
  | Alt a b => Nat.min (min_len a) (min_len b)
  | Grp _ a => min_len a
  | _ => 0
  end.

(** The position of a matcher state, as a natural number. *)
Definition at_ (st : mstate) : nat := N.to_nat (pos st).

(** [st'] is reached from [st] by consuming at least [m] characters: the
    position has moved on by what the text after it has lost, and every
    capture is either an old one or no longer than what was consumed. *)
Definition reached (m : nat) (st st' : mstate) : Prop :=
  at_ st + m <= at_ st' /\
  at_ st' + length (after st') = at_ st + length (after st) /\
  forall k v, In (k, v) (caps st') ->
              In (k, v) (caps st) \/ length v + at_ st <= at_ st'.

(** What a replacement writes for one piece of the text: the replacement
    for a match, the character itself otherwise. *)
Definition render (f : mres -> jstring) (p : piece) : jstring :=
  match p with Hit m => f m | Lit c => [c] end.

(** The length cap of the sanitizer applies to a raw text: what is left
    when the cap is reached (after the prompt, the JSON tail, the
    instructional phrases and the duplicate sentences are removed) is at
    most 300 characters long, or has a sentence end at an index from 1 to
    299 to be cut at. *)
Definition capApplies (raw prompt : jstring) : Prop :=
  let t := V1.dedupSentences (V1.stripPatterns (V1.cutJson (V1.stripPrompt raw prompt))) in
  length t <= 300 \/ (0 < V1.lastSentenceEndOf (substring0 300 t))%Z.

(** The contract of the sanitizer as the specification words it. *)
Definition endsInTerminalPunctuation (s : jstring) : bool :=
  endsWith s (js ".") || endsWith s (js "!") || endsWith s (js "?").

Definition cleanContract (raw prompt : jstring) : Prop :=
  let r := V1.cleanGeneratedText raw prompt in
  r <> [] /\ endsInTerminalPunctuation r = true /\ length r <= 300 /\
  startsWith r prompt = false.

(** Two raw texts: 301 letters without a sentence end, and a text that
    begins with its prompt and says one sentence twice. *)
Definition unbroken : jstring := repeat (ch "a") 301.

Definition echoed : jstring :=
  js "Tell a tale. The gate opens. The gate opens. A bell rings.  ".


(** ** Notions for the store, the hook and the course of a story *)

(** [p] occurs in [s]. *)
Definition occurs (p s : jstring) : Prop := exists a b, s = a ++ p ++ b.

(** The model does what the prompt for the next choices asks for: its
    answer, once the echoed prompt is taken off, begins with a JSON array
    of objects. *)
Definition answersWithJson (h : Host) : Prop :=
  forall n g raw,
    complete h n (V1.nextChoicesPrompt g) = Some raw ->
    startsWith (V1.stripPrompt raw (V1.nextChoicesPrompt g)) (js "[{") = true.

(** A model that answers the requests for choices with the JSON array
    that the prompt asks for, and every other request with a sentence. *)
Definition obedientHost : Host :=
  {| complete := fun _ prompt =>
       if startsWith prompt (js "Answer with ONLY a JSON array")
       then Some runOrFight
       else Some (js "The road bends to the north.");
     random := fun _ => 0%Q;
     toLowerCase := map to_lower_ascii |}.

(** The location in the metadata of a segment names its environment. *)
Definition located (seg : StorySegment) : Prop :=
  location (metadata seg) = baseEnvironment (environment seg).

(** Successive turns of the first revision. *)
Fixpoint V1_turns (h : Host) (inputs : list (StorySegment * Choice)) (w : World)
  : World :=
  match inputs with
  | [] => w
  | (cur, ch) :: rest => V1_turns h rest (worldAfter h cur ch w)
  end.

(** A story played from [seg]: each choice is made on the segment that the
    choice before it led to. *)
Fixpoint V1_play (h : Host) (chosen : list Choice) (seg : StorySegment) (w : World)
  : StorySegment * World :=
  match chosen with
  | [] => (seg, w)
  | ch :: rest =>
      match V1.generateNextStorySegment h seg ch w with
      | (Ret seg', w') => V1_play h rest seg' w'
      | (Throw, w') => (seg, w')
      end
  end.

(** A run of [m] that returns has made exactly [k] requests to the model. *)
Definition costs (k : nat) {A : Type} (m : M A) : Prop :=
  forall w a w', m w = (Ret a, w') -> calls w' = calls w + k.

(** Every run of [m] makes at least [lo] and at most [hi] requests. *)
Definition within (lo hi : nat) {A : Type} (m : M A) : Prop :=
  forall w, calls w + lo <= calls (snd (m w)) <= calls w + hi.

(** Whatever [m] returns satisfies [P]. *)
Definition yields {A : Type} (P : A -> Prop) (m : M A) : Prop :=
  forall w a w', m w = (Ret a, w') -> P a.

(** [m] always returns, and what it returns satisfies [P]. *)
Definition always {A : Type} (P : A -> Prop) (m : M A) : Prop :=
  forall w, exists a w', m w = (Ret a, w') /\ P a.

(** The segment is set in the cave or in the ruins. *)
Definition inCaveOrRuins (seg : StorySegment) : Prop :=
  baseEnvironment (environment seg) = js "cave" \/
  baseEnvironment (environment seg) = js "ruins".

(** A line that [generateChoices] keeps as the text of a choice. *)
Definition tidyLine (l : jstring) : Prop :=
  3 < length l < 50 /\
  trim l = l /\
  Forall (fun c => V2.is_separator c = false /\ in_set ":|" c = false /\ c <> c_quote) l /\
  match l with
  | c :: _ => is_digit c = false /\ in_set "-*" c = false /\ c <> V1.c_bullet
  | [] => True
  end.

(** The choices are made of two tidy lines, with the consequences that
    [generateChoices] attaches to them. *)
Definition generatedPair (h : Host) (cs : list RChoice) : Prop :=
  exists l0 l1,
    tidyLine l0 /\ tidyLine l1 /\
    map (@text json) cs = [JStr l0; JStr l1] /\
    map (@consequence json) cs
    = [JStr (V2.consequenceOf h l0); JStr (V2.consequenceOf h l1)].

(** [Math.random] gives numbers from 0 up to, but not including, 1. *)
Definition fairHost (h : Host) : Prop :=
  forall n, (0 <= random h n)%Q /\ (random h n < 1)%Q.

(** The impact of a choice is complete and moderate: it names a
    transition, and its fog density, animation intensity and duration lie
    in the ranges that the source draws them from. *)
Definition tempered (c : RChoice) : Prop :=
  exists a t i d l f,
    animationEffect (environmentImpact c) = Some a /\
    transitionType a = Some t /\
    anim_intensity a = Some i /\ (1 <= i)%Q /\ (i <= 1.5)%Q /\
    duration a = Some d /\ (2 <= d)%Q /\ (d <= 3)%Q /\
    atmosphereChange (environmentImpact c) = Some l /\
    d_fogDensity l = Some f /\ (0 <= f)%Q /\ (f <= 0.1)%Q.

(** The last element of a list, if it has one. *)
Definition lastOf {A : Type} (l : list A) : option A :=
  match rev l with x :: _ => Some x | [] => None end.

(** The current segment is the one that the history ends with. *)
Definition currentIsLast (st : StoryState) : Prop :=
  currentSegment st = lastOf (storyHistory st).

(** What can happen to the store: its actions and the two functions of the
    hook. *)
Inductive action : Type :=
| ASetCurrentSegment (segment : StorySegment)
| AMakeChoice (choice : Choice)
| AResetStory
| ASetLoading (loading : bool)
| ASetError (e : option jstring)
| AUpdateStorySummary (newSummary : jstring)
| AIncrementSegmentCount
| AResetSegmentCount
| AGenerateStoryStart (rejection : thrown)
| AGenerateNextSegment (rejection : thrown) (choice : Choice).

(** The store after an action, with [opening] and [next] as the two
    generators of the service. *)
Definition act (opening : M StorySegment)
  (next : StorySegment -> Choice -> M StorySegment)
  (st : StoryState) (a : action) : StoryState :=
  match a with
  | ASetCurrentSegment segment => setCurrentSegment segment st
  | AMakeChoice choice => makeChoice choice st
  | AResetStory => resetStory st
  | ASetLoading loading => setLoading loading st
  | ASetError e => setError e st
  | AUpdateStorySummary newSummary => onSession (updateStorySummary newSummary) st
  | AIncrementSegmentCount => onSession incrementSegmentCount st
  | AResetSegmentCount => onSession resetSegmentCount st
  | AGenerateStoryStart rejection => generateStoryStart opening rejection st
  | AGenerateNextSegment rejection choice => generateNextSegment next rejection choice st
  end.

(** The store after a story has been started with a model that never
    answers. *)
Definition openedState : StoryState :=
  generateStoryStart (V1.generateInitialStory silentHost) NotAnError initialState.

(** The animation that a choice asks for, with the defaults of
    [handleChoiceSelected]. *)
Definition animationOf (e : AnimationEffect) : TransitionType * Q * Q :=
  (match transitionType e with Some t => t | None => zoom end,
   or_number (anim_intensity e) 1, or_number (duration e) 2).

(** The empty modification. *)
Definition noChange : EnvironmentModification :=
  {| lightingChange := None; atmosphereChange := None; addProps := None;
     removeProps := None; animationEffect := None |}.

(** A modification that adds a prop of the very type that it removes. *)
Definition addThenRemove : EnvironmentModification :=
  {| lightingChange := None; atmosphereChange := None;
     addProps := Some [animationProp {| transitionType := None; anim_intensity := None;
                                        duration := None |}];
     removeProps := Some [animationEffectType]; animationEffect := None |}.

(** The segment is set in one of the three presets of the second
    revision. *)
Definition inAPreset (seg : StorySegment) : Prop :=
  exists k, baseEnvironment (environment seg) = V2.keyName k.

(** The same for the second revision. *)
Fixpoint V2_play (h : Host) (chosen : list Choice) (seg : StorySegment) (w : World)
  : StorySegment * World :=
  match chosen with
  | [] => (seg, w)
  | ch :: rest =>
      match V2.generateNextStorySegment h seg ch w with
      | (Ret seg', w') => V2_play h rest seg' w'
      | (Throw, w') => (seg, w')
      end
  end.

(** A segment set in the cave. *)
Definition caveSegment : StorySegment :=
  {| seg_text := V1.defaultDescription V1.cave;
     environment := {| baseEnvironment := js "cave";
                       lighting := V1.p_lighting V1.cave;
                       atmosphere := V1.p_atmosphere V1.cave;
                       props := [] |};
     choices := V1.defaultChoices;
     metadata := V1.p_metadata V1.cave |}.


(** A result of the pipeline as the library gives it: an array of one
    generation. *)
Definition oneGeneration : option json :=
  Some (JArr [JObj [(js "generated_text", JStr (js "Once upon a time"))]]).

(** * Properties *)

(** ** Strings *)

Lemma jeqb_spec (a b : jstring) : jeqb a b = true <-> a = b.
Proof.
  revert b; induction a as [|x a IH]; intros [|y b]; simpl; split; intro H;
    try discriminate; try reflexivity.
  - apply andb_true_iff in H as [H1 H2]. apply N.eqb_eq in H1.
    apply IH in H2. now subst.
  - injection H as -> ->. apply andb_true_iff; split.
    + apply N.eqb_refl.
    + now apply IH.
Qed.

Lemma jeqb_refl (a : jstring) : jeqb a a = true.
Proof. now apply jeqb_spec. Qed.


Lemma length_substring0 n (s : jstring) : length (substring0 n s) <= n.
Proof. unfold substring0. rewrite length_firstn. lia. Qed.



(** ** Reasoning about effects *)

Section Effects.

Lemma total_ret {A : Type} (a : A) : total (ret a).
Proof. intro w. now exists a, w. Qed.

Lemma total_bind {A B : Type} (m : M A) (k : A -> M B) :
  total m -> (forall a, total (k a)) -> total (bind m k).
Proof.
  intros Hm Hk w. unfold bind.
  destruct (Hm w) as (a & w1 & ->). apply Hk.
Qed.

Lemma total_try_catch {A : Type} (m h : M A) : total h -> total (try_catch m h).
Proof.
  intros Hh w. unfold try_catch.
  destruct (m w) as [[a|] w1].
  - now exists a, w1.
  - apply Hh.
Qed.

Lemma total_getState : total getState.
Proof. intro w. now eexists _, _. Qed.

Lemma total_updateStorySummary s : total (updateStorySummary s).
Proof. intro w. now eexists _, _. Qed.

Lemma total_incrementSegmentCount : total incrementSegmentCount.
Proof. intro w. now eexists _, _. Qed.

Lemma total_resetSegmentCount : total resetSegmentCount.
Proof. intro w. now eexists _, _. Qed.

Lemma total_mathRandom h : total (mathRandom h).
Proof. intro w. now eexists _, _. Qed.

Variable R : World -> World -> Prop.
Hypothesis R_refl : forall w, R w w.
Hypothesis R_trans : forall a b c, R a b -> R b c -> R a c.

Lemma keeps_ret {A : Type} (a : A) : keeps R (ret a).
Proof. intro w. apply R_refl. Qed.

Lemma keeps_throw {A : Type} : keeps R (@throw A).
Proof. intro w. apply R_refl. Qed.

Lemma keeps_getState : keeps R getState.
Proof. intro w. apply R_refl. Qed.

Lemma keeps_bind {A B : Type} (m : M A) (k : A -> M B) :
  keeps R m -> (forall a, keeps R (k a)) -> keeps R (bind m k).
Proof.
  intros Hm Hk w. unfold bind. specialize (Hm w).
  destruct (m w) as [[a|] w1]; simpl in *.
  - eapply R_trans; [exact Hm | apply Hk].
  - exact Hm.
Qed.

Lemma keeps_try_catch {A : Type} (m h : M A) :
  keeps R m -> keeps R h -> keeps R (try_catch m h).
Proof.
  intros Hm Hh w. unfold try_catch. specialize (Hm w).
  destruct (m w) as [[a|] w1]; simpl in *.
  - exact Hm.
  - eapply R_trans; [exact Hm | apply Hh].
Qed.

End Effects.

Lemma same_store_refl w : same_store w w.
Proof. reflexivity. Qed.
Lemma same_store_trans a b c : same_store a b -> same_store b c -> same_store a c.
Proof. unfold same_store. congruence. Qed.
Lemma same_count_refl w : same_count w w.
Proof. reflexivity. Qed.
Lemma same_count_trans a b c : same_count a b -> same_count b c -> same_count a c.
Proof. unfold same_count. congruence. Qed.
Lemma same_summary_refl w : same_summary w w.
Proof. reflexivity. Qed.
Lemma same_summary_trans a b c :
  same_summary a b -> same_summary b c -> same_summary a c.
Proof. unfold same_summary. congruence. Qed.

Lemma same_store_count w w' : same_store w w' -> same_count w w'.
Proof. unfold same_store, same_count. now intros ->. Qed.


Lemma keeps_weaken (R S : World -> World -> Prop) {A : Type} (m : M A) :
  (forall w w', R w w' -> S w w') -> keeps R m -> keeps S m.
Proof. intros HRS Hm w. apply HRS, Hm. Qed.

Create HintDb effects.

#[export] Hint Resolve total_ret total_bind total_try_catch total_getState
  total_updateStorySummary total_incrementSegmentCount total_resetSegmentCount
  total_mathRandom : effects.
#[export] Hint Resolve same_store_refl same_store_trans same_count_refl
  same_count_trans same_summary_refl same_summary_trans : effects.

Lemma keeps_store_request h p : keeps same_store (request h p).
Proof. intro w. unfold request. now destruct (complete h (calls w) p). Qed.

Lemma keeps_store_mathRandom h : keeps same_store (mathRandom h).
Proof. intro w. reflexivity. Qed.

Lemma keeps_count_updateStorySummary s : keeps same_count (updateStorySummary s).
Proof. intro w. reflexivity. Qed.

Lemma keeps_summary_incrementSegmentCount : keeps same_summary incrementSegmentCount.
Proof. intro w. reflexivity. Qed.

Lemma keeps_summary_resetSegmentCount : keeps same_summary resetSegmentCount.
Proof. intro w. reflexivity. Qed.

Lemma quiet_refl w : quiet w w.
Proof. now repeat split. Qed.

Lemma quiet_trans a b c : quiet a b -> quiet b c -> quiet a c.
Proof. unfold quiet. intros (? & ? & ?) (? & ? & ?). repeat split; congruence. Qed.

Lemma keeps_quiet_mathRandom h : keeps quiet (mathRandom h).
Proof. intro w. now repeat split. Qed.

Lemma trace_grows_refl w : trace_grows w w.
Proof. exists []. now rewrite app_nil_r. Qed.

Lemma trace_grows_trans a b c : trace_grows a b -> trace_grows b c -> trace_grows a c.
Proof. intros [t1 H1] [t2 H2]. exists (t1 ++ t2). now rewrite H2, H1, app_assoc. Qed.

Lemma quiet_same_store w w' : quiet w w' -> same_store w w'.
Proof. now intros (? & _). Qed.

Lemma quiet_trace_grows w w' : quiet w w' -> trace_grows w w'.
Proof. intros (_ & _ & H). exists []. now rewrite app_nil_r. Qed.

Lemma keeps_grows_request h p : keeps trace_grows (request h p).
Proof.
  intro w. unfold request.
  destruct (complete h (calls w) p); simpl; now eexists.
Qed.

Lemma keeps_grows_mathRandom h : keeps trace_grows (mathRandom h).
Proof. intro w. exists []. simpl. now rewrite app_nil_r. Qed.

Lemma keeps_grows_updateStorySummary s : keeps trace_grows (updateStorySummary s).
Proof. intro w. simpl. now eexists. Qed.

Lemma keeps_grows_incrementSegmentCount : keeps trace_grows incrementSegmentCount.
Proof. intro w. simpl. now eexists. Qed.

Lemma keeps_grows_resetSegmentCount : keeps trace_grows resetSegmentCount.
Proof. intro w. simpl. now eexists. Qed.

(** Composing [keeps] facts along the structure of a computation. *)
Ltac keeps_step :=
  first
    [ exact same_store_refl | exact same_store_trans
    | exact same_count_refl | exact same_count_trans
    | exact same_summary_refl | exact same_summary_trans
    | exact quiet_refl | exact quiet_trans
    | exact trace_grows_refl | exact trace_grows_trans
    | apply keeps_ret | apply keeps_throw | apply keeps_getState
    | apply keeps_store_request | apply keeps_store_mathRandom
    | apply keeps_quiet_mathRandom
    | apply keeps_count_updateStorySummary
    | apply keeps_summary_incrementSegmentCount
    | apply keeps_summary_resetSegmentCount
    | apply keeps_grows_request | apply keeps_grows_mathRandom
    | apply keeps_grows_updateStorySummary
    | apply keeps_grows_incrementSegmentCount
    | apply keeps_grows_resetSegmentCount
    | apply keeps_bind | apply keeps_try_catch
    | match goal with
      | |- forall _, _ => intro
      | |- keeps _ (if ?b then _ else _) => destruct b
      end ].

(** ** The choice extractor *)

Lemma truthy_or_default x d : truthy d = true -> truthy (or_default x d) = true.
Proof.
  intro Hd. unfold or_default. destruct x as [v|]; [|exact Hd].
  destruct (truthy v) eqn:E; [exact E | exact Hd].
Qed.

Lemma keeps_quiet_prop c k : keeps quiet (V1.prop c k).
Proof. unfold V1.prop. destruct (get_prop c (js k)); repeat keeps_step. Qed.

Lemma keeps_quiet_choiceOfParsed h c i : keeps quiet (V1.choiceOfParsed h c i).
Proof.
  unfold V1.choiceOfParsed.
  repeat first [apply keeps_quiet_prop | keeps_step].
Qed.

Lemma keeps_quiet_mapChoices h l : forall i, keeps quiet (V1.mapChoices h l i).
Proof.
  induction l as [|c l IH]; intro i; simpl.
  - repeat keeps_step.
  - repeat first [apply keeps_quiet_choiceOfParsed | apply IH | keeps_step].
Qed.

Lemma keeps_quiet_approach1 h s : keeps quiet (V1.approach1 h s).
Proof.
  unfold V1.approach1.
  apply keeps_try_catch; [exact quiet_trans | | repeat keeps_step].
  destruct (exec V1.jsonArrayRegex s) as [m|]; [|repeat keeps_step].
  destruct (m_0 m); [repeat keeps_step|].
  destruct (JSON_parse _) as [[| | | |parsed|]|]; try (repeat keeps_step).
  destruct (Nat.leb 2 (length parsed));
    repeat first [apply keeps_quiet_mapChoices | keeps_step].
Qed.

Lemma keeps_quiet_parseChoicesFromText h s : keeps quiet (V1.parseChoicesFromText h s).
Proof.
  unfold V1.parseChoicesFromText.
  apply keeps_try_catch; [exact quiet_trans | | repeat keeps_step].
  apply keeps_bind; [exact quiet_trans | apply keeps_quiet_approach1 |].
  intros [cs|]; [repeat keeps_step|].
  destruct (V1.approach2 _); [repeat keeps_step|].
  destruct (V1.approach3 _); repeat keeps_step.
Qed.

Lemma total_parseChoicesFromText h s : total (V1.parseChoicesFromText h s).
Proof. apply total_try_catch, total_ret. Qed.

Lemma choiceOfParsed_spec h c i w x w' :
  V1.choiceOfParsed h c i w = (Ret x, w') ->
  usable x /\ lightingIntensity x = Some (if Nat.eqb i 0 then 0.8 else 1.2)%Q.
Proof.
  unfold V1.choiceOfParsed, V1.prop, bind, mathRandom, ret.
  destruct (get_prop c (js "text")) as [t|]; [|discriminate].
  destruct (get_prop c (js "consequence")) as [q|]; [|discriminate].
  intro H. injection H as <- _. unfold usable, lightingIntensity. simpl.
  repeat split; apply truthy_or_default; reflexivity.
Qed.

Lemma mapChoices_spec h l : forall i w cs w',
  V1.mapChoices h l i w = (Ret cs, w') ->
  length cs = length l /\
  Forall usable cs /\
  forall j c, nth_error cs j = Some c ->
              lightingIntensity c = Some (if Nat.eqb (i + j) 0 then 0.8 else 1.2)%Q.
Proof.
  induction l as [|c0 l IH]; intros i w cs w'; simpl.
  - unfold ret. intro H. injection H as <- _. repeat split.
    + constructor.
    + intros [|j] c; discriminate.
  - unfold bind at 1.
    destruct (V1.choiceOfParsed h c0 i w) as [[x|] w1] eqn:Ex; [|discriminate].
    unfold bind at 1.
    destruct (V1.mapChoices h l (S i) w1) as [[xs|] w2] eqn:Exs; [|discriminate].
    unfold ret. intro H. injection H as <- _.
    apply choiceOfParsed_spec in Ex as [Hu Hi].
    apply IH in Exs as (Hlen & Hall & Hnth).
    repeat split.
    + simpl. now rewrite Hlen.
    + now constructor.
    + intros [|j] c; simpl.
      * intro H. injection H as <-. now rewrite Nat.add_0_r.
      * intro H. apply Hnth in H. now rewrite Nat.add_succ_r.
Qed.

(** What approach 1 returns, when it returns choices: one choice per
    element of an array of at least two, all usable, the first dimmer and
    every other brighter. *)
Lemma approach1_spec h s w cs w' :
  V1.approach1 h s w = (Ret (Some cs), w') ->
  2 <= length cs /\
  Forall usable cs /\
  forall j c, nth_error cs j = Some c ->
              lightingIntensity c = Some (if Nat.eqb j 0 then 0.8 else 1.2)%Q.
Proof.
  unfold V1.approach1, try_catch.
  destruct (exec V1.jsonArrayRegex s) as [m|]; [|discriminate].
  destruct (m_0 m); [discriminate|].
  destruct (JSON_parse _) as [[| | | |parsed|]|]; try discriminate.
  destruct (Nat.leb 2 (length parsed)) eqn:Hlen; [|discriminate].
  unfold bind.
  destruct (V1.mapChoices h parsed 0 w) as [[xs|] w1] eqn:Exs; [|discriminate].
  unfold ret. intro H. injection H as <- _.
  apply mapChoices_spec in Exs as (Hl & Hall & Hnth).
  apply Nat.leb_le in Hlen. repeat split; [lia | exact Hall | exact Hnth].
Qed.

Lemma approach1_total h s : total (V1.approach1 h s).
Proof. apply total_try_catch, total_ret. Qed.

Lemma impacts_differ (c1 c2 : RChoice) :
  lightingIntensity c1 = Some 0.8%Q -> lightingIntensity c2 = Some 1.2%Q ->
  environmentImpact c1 <> environmentImpact c2.
Proof.
  unfold lightingIntensity. intros H1 H2 E. rewrite E in H1.
  rewrite H1 in H2. discriminate.
Qed.

Lemma approach2_scraped s cs : V1.approach2 s = Some cs -> scraped cs.
Proof.
  unfold V1.approach2.
  destruct (V1.captures V1.textRegex s) as [|t1 [|t2 ?]]; try discriminate.
  destruct (V1.captures V1.consequenceRegex s) as [|c1 [|c2 ?]]; try discriminate.
  intro H. injection H as <-. now exists t1, c1, t2, c2.
Qed.

Lemma approach3_scraped s cs : V1.approach3 s = Some cs -> scraped cs.
Proof.
  unfold V1.approach3.
  destruct (match_all V1.numberedRegex s) as [|n1 [|n2 ?]].
  3: { intro H. injection H as <-. now eexists _, _, _, _. }
  all: destruct (match_all V1.bulletRegex s) as [|b1 [|b2 ?]]; try discriminate;
    intro H; injection H as <-; now eexists _, _, _, _.
Qed.

(** C1, counterexample.  A JSON array of three objects comes back as three
    choices (approach 1 maps the whole parsed array), and a text that is
    only blanks comes back from approach 2 as an empty text. *)
Lemma C1_counterexample :
  ~ extractsExactlyTwo silentHost threeObjects initialWorld /\
  ~ extractsExactlyTwo silentHost blankTexts initialWorld.
Proof.
  split.
  - intros (c1 & c2 & w' & H & _).
    assert (E : length (returned (V1.parseChoicesFromText silentHost threeObjects
                                    initialWorld)) = 3)
      by (vm_compute; reflexivity).
    rewrite H in E. discriminate.
  - intros (c1 & c2 & w' & H & (s & Hs & Hne) & _).
    assert (E : map (@text json) (returned (V1.parseChoicesFromText silentHost blankTexts
                                      initialWorld)) = [JStr []; JStr []])
      by (vm_compute; reflexivity).
    rewrite H in E. simpl in E. injection E as E _. rewrite Hs in E.
    injection E as ->. now apply Hne.
Qed.

(** C1, as amended.  For every raw text, whatever the host does, the
    extractor returns (it never throws) a list of at least two choices and
    touches neither the store nor the model.  The first choice carries the
    lighting intensity 0.8 and the second 1.2, so their impacts differ.
    There are exactly two choices unless approach 1 parsed a longer array and
    returned one choice per element.  Every text and consequence is usable
    (truthy, so not an empty string) unless the pair was scraped by
    approaches 2 and 3, which trim what they capture. *)
Theorem C1_extractor_returns_at_least_two (h : Host) (raw : jstring) (w : World) :
  exists c1 c2 rest w',
    V1.parseChoicesFromText h raw w = (Ret (c1 :: c2 :: rest), w') /\
    quiet w w' /\
    lightingIntensity c1 = Some 0.8%Q /\
    lightingIntensity c2 = Some 1.2%Q /\
    environmentImpact c1 <> environmentImpact c2 /\
    (rest = [] \/
     exists w1, V1.approach1 h (trim raw) w = (Ret (Some (c1 :: c2 :: rest)), w1)) /\
    (scraped (c1 :: c2 :: rest) \/ Forall usable (c1 :: c2 :: rest)).
Proof.
  pose proof (keeps_quiet_parseChoicesFromText h raw w) as Hq.
  unfold V1.parseChoicesFromText, try_catch, bind in *.
  destruct (approach1_total h (trim raw) w) as (r1 & w1 & E1).
  rewrite E1 in *. destruct r1 as [cs|].
  - destruct (approach1_spec _ _ _ _ _ E1) as (Hlen & Hall & Hnth).
    destruct cs as [|c1 [|c2 rest]]; simpl in Hlen; try lia.
    exists c1, c2, rest, w1.
    assert (H1 := Hnth 0 c1 eq_refl). assert (H2 := Hnth 1 c2 eq_refl).
    simpl in H1, H2.
    repeat split; try apply Hq; auto using impacts_differ.
    right. now exists w1.
  - destruct (V1.approach2 (trim raw)) as [cs|] eqn:E2.
    + destruct (approach2_scraped _ _ E2) as (t1 & q1 & t2 & q2 & ->).
      eexists _, _, [], w1. simpl in Hq.
      repeat split; try apply Hq; auto.
      * apply impacts_differ; reflexivity.
      * left. now exists t1, q1, t2, q2.
    + destruct (V1.approach3 (trim raw)) as [cs|] eqn:E3.
      * destruct (approach3_scraped _ _ E3) as (t1 & q1 & t2 & q2 & ->).
        eexists _, _, [], w1. simpl in Hq.
        repeat split; try apply Hq; auto.
        -- apply impacts_differ; reflexivity.
        -- left. now exists t1, q1, t2, q2.
      * eexists _, _, [], w1. simpl in Hq.
        repeat split; try apply Hq; auto.
        -- apply impacts_differ; reflexivity.
        -- right. repeat constructor.
Qed.


(** ** The narrative state machine, first revision *)

Lemma keeps_store_parseChoicesFromText h s :
  keeps same_store (V1.parseChoicesFromText h s).
Proof.
  apply keeps_weaken with (R := quiet);
    [exact quiet_same_store | apply keeps_quiet_parseChoicesFromText].
Qed.

Lemma keeps_grows_parseChoicesFromText h s :
  keeps trace_grows (V1.parseChoicesFromText h s).
Proof.
  apply keeps_weaken with (R := quiet);
    [exact quiet_trace_grows | apply keeps_quiet_parseChoicesFromText].
Qed.

Lemma V1_keeps_store_generateText h p : keeps same_store (V1.generateText h p).
Proof. unfold V1.generateText. repeat keeps_step. Qed.

Lemma V1_keeps_grows_generateText h p : keeps trace_grows (V1.generateText h p).
Proof. unfold V1.generateText. repeat keeps_step. Qed.

Lemma V1_generateText_eq h p w :
  V1.generateText h p w =
    match complete h (calls w) p with
    | Some raw => (Ret (V1.cleanGeneratedText raw p), asked p true w)
    | None => (Throw, asked p false w)
    end.
Proof.
  unfold V1.generateText, try_catch, bind, request, ret, throw.
  now destruct (complete h (calls w) p).
Qed.


Lemma V1_keeps_store_generateSummary h t p :
  keeps same_store (V1.generateSummary h t p).
Proof.
  unfold V1.generateSummary.
  repeat first [apply V1_keeps_store_generateText | keeps_step].
Qed.

Lemma V1_keeps_grows_generateSummary h t p :
  keeps trace_grows (V1.generateSummary h t p).
Proof.
  unfold V1.generateSummary.
  repeat first [apply V1_keeps_grows_generateText | keeps_step].
Qed.


Lemma V1_keeps_grows_refreshStoryPrompt h s cur :
  keeps trace_grows (V1.refreshStoryPrompt h s cur).
Proof.
  unfold V1.refreshStoryPrompt.
  repeat first [apply V1_keeps_grows_generateText | keeps_step].
Qed.

(** After the refresh decision a turn no longer touches the segment
    count. *)
Lemma V1_keeps_count_continueStory h cur ch b ws :
  keeps same_count (V1.continueStory h cur ch b ws).
Proof.
  unfold V1.continueStory.
  repeat first
    [ apply keeps_weaken with (R := same_store);
      [ exact same_store_count
      | first [ apply V1_keeps_store_generateText
              | apply V1_keeps_store_generateSummary
              | apply keeps_store_parseChoicesFromText ] ]
    | keeps_step ].
Qed.


Lemma V1_keeps_grows_continueStory h cur ch b ws :
  keeps trace_grows (V1.continueStory h cur ch b ws).
Proof.
  unfold V1.continueStory.
  repeat first
    [ apply V1_keeps_grows_generateText
    | apply V1_keeps_grows_generateSummary
    | apply keeps_grows_parseChoicesFromText
    | keeps_step ].
Qed.

Lemma snd_try_catch_ret {A : Type} (m : M A) (a : A) (w : World) :
  snd (try_catch m (ret a) w) = snd (m w).
Proof. unfold try_catch, ret. now destruct (m w) as [[?|] ?]. Qed.

Lemma V1_body_shape h cur ch w :
  V1.nextSegmentBody h cur ch w =
    V1.continueStory h cur ch (V1.shouldRefresh (store w)) (workingSummaryOf h w)
      (afterRefresh h w).
Proof.
  unfold V1.nextSegmentBody, afterRefresh, workingSummaryOf, refreshAnswer, freshSummary.
  unfold bind at 1. unfold getState at 1. unfold bind at 1.
  unfold incrementSegmentCount at 1. unfold bind at 1.
  destruct (V1.shouldRefresh (store w)); [|reflexivity].
  unfold V1.refreshStoryPrompt, try_catch, bind. rewrite V1_generateText_eq.
  simpl calls. simpl storySummary.
  destruct (complete h (calls w) (V1.newSummaryPrompt (storySummary (store w))));
    reflexivity.
Qed.

Lemma V1_turn_world h cur ch w :
  snd (V1.generateNextStorySegment h cur ch w) =
    snd (V1.continueStory h cur ch (V1.shouldRefresh (store w)) (workingSummaryOf h w)
           (afterRefresh h w)).
Proof.
  unfold V1.generateNextStorySegment. now rewrite snd_try_catch_ret, V1_body_shape.
Qed.

Lemma V1_turn_count h cur ch w :
  segmentsSincePromptRefresh (store (snd (V1.generateNextStorySegment h cur ch w)))
  = countAfter h w.
Proof.
  rewrite V1_turn_world.
  rewrite (V1_keeps_count_continueStory h cur ch _ _ (afterRefresh h w)).
  unfold afterRefresh, countAfter.
  destruct (V1.shouldRefresh (store w)); [|reflexivity].
  now destruct (refreshAnswer h w).
Qed.

Lemma V1_turn_trace h cur ch w :
  exists tl, trace (snd (V1.generateNextStorySegment h cur ch w))
             = trace w ++ EvIncrement :: tl.
Proof.
  rewrite V1_turn_world.
  destruct (V1_keeps_grows_continueStory h cur ch (V1.shouldRefresh (store w))
              (workingSummaryOf h w) (afterRefresh h w)) as [tl Htl].
  rewrite Htl. unfold afterRefresh.
  destruct (V1.shouldRefresh (store w)).
  - destruct (refreshAnswer h w); simpl; repeat rewrite <- app_assoc; simpl;
      now eexists.
  - simpl. rewrite <- app_assoc. simpl. now eexists.
Qed.


Lemma V1_total_generateNextStorySegment h cur ch :
  total (V1.generateNextStorySegment h cur ch).
Proof. apply total_try_catch, total_ret. Qed.

Lemma V1_total_generateInitialStory h : total (V1.generateInitialStory h).
Proof.
  apply total_try_catch.
  apply total_bind; [apply total_try_catch, total_ret|].
  intro s. apply total_bind; [apply total_updateStorySummary|].
  intros _. apply total_ret.
Qed.

Lemma V1_generateNext_mute h cur ch w :
  V1.generateNextStorySegment (mute h) cur ch w
  = (Ret (V1.fallbackSegment cur ch),
     asked (continuationPrompt (mute h) cur w) false (afterRefresh (mute h) w)).
Proof.
  unfold V1.generateNextStorySegment, try_catch. rewrite V1_body_shape.
  unfold V1.continueStory, bind at 1. rewrite V1_generateText_eq.
  unfold continuationPrompt. simpl complete. cbv iota. reflexivity.
Qed.






(** C10, counterexample.  The count is 3 at entry; the refresh request is
    answered and resets the count; the continuation request then fails and
    the call returns the fallback segment.  The count is left at 0, not at
    4. *)
Lemma C10_counterexample :
  ~ fallbackKeepsIncrement refreshThenFail V1.fallbackInitialSegment goOn dueWorld.
Proof.
  unfold fallbackKeepsIncrement. intro H.
  assert (F : fst (V1.generateNextStorySegment refreshThenFail
                     V1.fallbackInitialSegment goOn dueWorld)
              = Ret (V1.fallbackSegment V1.fallbackInitialSegment goOn)).
  { vm_compute. reflexivity. }
  apply H in F. vm_compute in F. discriminate.
Qed.

(** C10, as amended.  The first thing every call does, before any request
    to the model, is to increment the segment count, and the error handler
    restores nothing: whether the call returns the generated segment or the
    fallback segment, the count it leaves is the count at entry plus one,
    except that a refresh which succeeded in that same call has reset it to
    0 (also when the continuation fails afterwards and the fallback segment
    is returned). *)
Theorem C10_count_is_not_rolled_back (h : Host) (cur : StorySegment) (ch : Choice)
  (w : World) :
  (exists tl, trace (worldAfter h cur ch w) = trace w ++ EvIncrement :: tl) /\
  countOf (worldAfter h cur ch w) = countAfter h w /\
  (countAfter h w = countOf w + 1 \/
   (countAfter h w = 0 /\ V1.shouldRefresh (store w) = true /\
    exists raw, refreshAnswer h w = Some raw)).
Proof.
  split; [apply V1_turn_trace|]. split; [apply V1_turn_count|].
  unfold countAfter, countOf.
  destruct (V1.shouldRefresh (store w)); [|now left].
  destruct (refreshAnswer h w) as [raw|]; [|now left].
  right. repeat split. now exists raw.
Qed.

(** ** The narrative state machine, second revision *)

Lemma V2_generateText_eq h p w :
  V2.generateText h p w =
    match complete h (calls w) p with
    | Some raw => (Ret (V2.cleanText raw p), asked p true w)
    | None => (Throw, asked p false w)
    end.
Proof.
  unfold V2.generateText, try_catch, bind, request, ret, throw.
  now destruct (complete h (calls w) p).
Qed.

Lemma V2_total_generateChoices h ctx : total (V2.generateChoices h ctx).
Proof. apply total_try_catch, total_ret. Qed.

Lemma V2_keeps_store_generateText h p : keeps same_store (V2.generateText h p).
Proof. unfold V2.generateText. repeat keeps_step. Qed.

Lemma V2_keeps_store_generateChoices h ctx :
  keeps same_store (V2.generateChoices h ctx).
Proof.
  unfold V2.generateChoices.
  apply keeps_try_catch; [exact same_store_trans | | repeat keeps_step].
  apply keeps_bind; [exact same_store_trans | apply V2_keeps_store_generateText |].
  intro t. destruct (filter _ _) as [|l0 [|l1 ?]]; repeat keeps_step.
Qed.

Lemma V2_body_shape h cur ch w :
  V2.nextSegmentBody h cur ch w =
    V2.continueStory h cur ch (storySummary (store w)) (V2_prompt cur ch w)
      (V2_afterRefresh w).
Proof.
  unfold V2.nextSegmentBody, V2_prompt, V2_afterRefresh.
  unfold bind at 1. unfold getState at 1. unfold bind at 1.
  unfold incrementSegmentCount at 1. unfold bind at 1.
  now destruct (V2.shouldRefresh (store w)).
Qed.

Lemma V2_calls_afterRefresh w : calls (V2_afterRefresh w) = calls w.
Proof. unfold V2_afterRefresh. now destruct (V2.shouldRefresh (store w)). Qed.

(** What a successful turn of the second revision returns. *)
Lemma V2_continueStory_returns h cur ch summ prompt w seg w' :
  V2.continueStory h cur ch summ prompt w = (Ret seg, w') ->
  exists raw,
    complete h (calls w) prompt = Some raw /\
    seg_text seg = V2.joinText (consequence ch) (V2.cleanText raw prompt) /\
    environment seg =
      {| baseEnvironment := V2.keyName (V2.getEnvironment h (seg_text seg));
         lighting :=
           mergeLighting
             (V1.p_lighting (V2.environments (V2.getEnvironment h (seg_text seg))))
             (lightingChange (environmentImpact ch));
         atmosphere :=
           mergeAtmosphere
             (V1.p_atmosphere (V2.environments (V2.getEnvironment h (seg_text seg))))
             (atmosphereChange (environmentImpact ch));
         props := props (environment cur) |} /\
    storySummary (store w') =
      slice_last V2.maxSummaryLength (summ ++ js " " ++ seg_text seg).
Proof.
  unfold V2.continueStory, bind at 1. rewrite V2_generateText_eq.
  destruct (complete h (calls w) prompt) as [raw|]; [|discriminate].
  exists raw. revert H.
  generalize (V2.joinText (consequence ch) (V2.cleanText raw prompt)). intro t.
  unfold bind at 1. unfold updateStorySummary at 1. unfold bind at 1.
  match goal with
  | |- context [V2.generateChoices h ?c ?w0] =>
      pose proof (V2_keeps_store_generateChoices h c w0) as Hs;
      destruct (V2_total_generateChoices h c w0) as (cs & w2 & E)
  end.
  rewrite E in Hs. rewrite E. unfold ret. intro H.
  injection H as <- <-. unfold same_store in Hs. cbn [snd] in Hs.
  split; [reflexivity|]. split; [reflexivity|]. split; [reflexivity|].
  rewrite Hs. reflexivity.
Qed.

(** What a successful turn of the first revision returns. *)
Lemma V1_continueStory_returns h cur ch b ws w seg w' :
  V1.continueStory h cur ch b ws w = (Ret seg, w') ->
  exists raw,
    complete h (calls w) (V1.storyPromptOf cur b ws) = Some raw /\
    seg_text seg = consequence ch ++ js " "
                     ++ V1.cleanGeneratedText raw (V1.storyPromptOf cur b ws) /\
    lighting (environment seg) =
      mergeLighting (lighting (environment cur)) (lightingChange (environmentImpact ch)) /\
    atmosphere (environment seg) =
      mergeAtmosphere (atmosphere (environment cur))
        (atmosphereChange (environmentImpact ch)) /\
    props (environment seg) = props (environment cur) /\
    baseEnvironment (environment seg) =
      V1.nextEnvironmentOf h (baseEnvironment (environment cur))
        (V1.cleanGeneratedText raw (V1.storyPromptOf cur b ws)).
Proof.
  unfold V1.continueStory, bind at 1. rewrite V1_generateText_eq.
  destruct (complete h (calls w) (V1.storyPromptOf cur b ws)) as [raw|] eqn:Er;
    [exists raw|discriminate].
  revert H. generalize (V1.cleanGeneratedText raw (V1.storyPromptOf cur b ws)).
  intro g. unfold bind at 1.
  match goal with
  | |- context [match ?m ?w0 with _ => _ end] => destruct (m w0) as [[[]|] w1]
  end; [|discriminate].
  unfold bind at 1. rewrite V1_generateText_eq.
  destruct (complete h (calls w1) _); [|discriminate].
  unfold bind at 1.
  match goal with
  | |- context [V1.parseChoicesFromText h ?c ?w0] =>
      destruct (total_parseChoicesFromText h c w0) as (cs & w2 & E)
  end.
  rewrite E. unfold ret. intro H. injection H as <- _.
  split; [reflexivity|]. split; [cbn [seg_text]; now rewrite <- app_assoc|].
  repeat (split; [reflexivity|]). reflexivity.
Qed.

(** ** Environment merge and text join *)






Lemma joinText_as_specified c g : V2.joinText c g = joinAsSpecified c g.
Proof.
  unfold V2.joinText, joinAsSpecified.
  destruct (startsWith g c); simpl; [reflexivity|].
  destruct (endsWith c (js ".")), (endsWith c (js "!")), (endsWith c (js "?"));
    simpl; now rewrite <- ?app_assoc.
Qed.

(** C7, counterexample.  The first revision puts the consequence, a space
    and the generated text together, whatever they are: no period is added
    after a consequence without terminal punctuation, and a generated text
    that restates the consequence is appended to it all the same. *)
Lemma C7_counterexample :
  (exists seg w',
      V1.nextSegmentBody caveHost V1.fallbackInitialSegment goOn initialWorld
      = (Ret seg, w') /\
      seg_text seg = js "You go on You enter a cave." /\
      joinAsSpecified (consequence goOn) (js "You enter a cave.")
      = js "You go on. You enter a cave.") /\
  (exists seg w',
      V1.nextSegmentBody restatingHost V1.fallbackInitialSegment goOn initialWorld
      = (Ret seg, w') /\
      seg_text seg = js "You go on You go on. It rains." /\
      joinAsSpecified (consequence goOn) (js "You go on. It rains.")
      = js "You go on. It rains.").
Proof.
  split.
  - eexists _, _. split; [vm_compute; reflexivity|].
    split; vm_compute; reflexivity.
  - eexists _, _. split; [vm_compute; reflexivity|].
    split; vm_compute; reflexivity.
Qed.

(** C7, as amended.  In the second revision the text of a successful turn
    is the join of the specification: the sanitized continuation alone when
    it starts with the consequence, and otherwise the consequence, a period
    if the consequence does not end in [.], [!] or [?], a space, and the
    continuation.  In the first revision the text is always the
    consequence, a space and the sanitized continuation. *)
Theorem C7_text_join (h : Host) (cur : StorySegment) (ch : Choice) (w : World) :
  (forall seg w',
      V2.nextSegmentBody h cur ch w = (Ret seg, w') ->
      exists raw,
        complete h (calls w) (V2_prompt cur ch w) = Some raw /\
        seg_text seg
        = joinAsSpecified (consequence ch) (V2.cleanText raw (V2_prompt cur ch w))) /\
  (forall seg w',
      V1.nextSegmentBody h cur ch w = (Ret seg, w') ->
      exists raw,
        complete h (calls (afterRefresh h w)) (continuationPrompt h cur w) = Some raw /\
        seg_text seg
        = consequence ch ++ js " "
            ++ V1.cleanGeneratedText raw (continuationPrompt h cur w)).
Proof.
  split.
  - intros seg w' H. rewrite V2_body_shape in H.
    apply V2_continueStory_returns in H as (raw & Hr & Ht & _).
    exists raw. rewrite V2_calls_afterRefresh in Hr. split; [exact Hr|].
    now rewrite <- joinText_as_specified.
  - intros seg w' H. rewrite V1_body_shape in H.
    apply V1_continueStory_returns in H as (raw & Hr & Ht & _).
    exists raw. now split.
Qed.

Lemma C7_witness :
  (exists seg w' raw,
      V2.nextSegmentBody caveHost V1.fallbackInitialSegment goOn initialWorld
      = (Ret seg, w') /\
      seg_text seg
      = joinAsSpecified (consequence goOn)
          (V2.cleanText raw (V2_prompt V1.fallbackInitialSegment goOn initialWorld))) /\
  (exists seg w' raw,
      V1.nextSegmentBody caveHost V1.fallbackInitialSegment goOn initialWorld
      = (Ret seg, w') /\
      seg_text seg
      = consequence goOn ++ js " "
          ++ V1.cleanGeneratedText raw
               (continuationPrompt caveHost V1.fallbackInitialSegment initialWorld)).
Proof.
  pose proof (C7_text_join caveHost V1.fallbackInitialSegment goOn initialWorld)
    as (H2 & H1).
  split.
  - assert (E : exists seg w',
               V2.nextSegmentBody caveHost V1.fallbackInitialSegment goOn initialWorld
               = (Ret seg, w'))
      by (eexists _, _; vm_compute; reflexivity).
    destruct E as (seg & w' & E). destruct (H2 seg w' E) as (raw & _ & Ht).
    exists seg, w', raw. split; [exact E | exact Ht].
  - assert (E : exists seg w',
               V1.nextSegmentBody caveHost V1.fallbackInitialSegment goOn initialWorld
               = (Ret seg, w'))
      by (eexists _, _; vm_compute; reflexivity).
    destruct E as (seg & w' & E). destruct (H1 seg w' E) as (raw & _ & Ht).
    exists seg, w', raw. split; [exact E | exact Ht].
Defined.

(** ** The matcher: what a match consumes and captures *)

Lemma reached_refl st : reached 0 st st.
Proof. unfold reached. repeat split; try lia. intros k v H. now left. Qed.

Lemma reached_trans m1 m2 a b c :
  reached m1 a b -> reached m2 b c -> reached (m1 + m2) a c.
Proof.
  intros (H1 & H2 & H3) (G1 & G2 & G3). repeat split; try lia.
  intros k v H. destruct (G3 k v H) as [Hb|Hb].
  - destruct (H3 k v Hb) as [Ha|Ha]; [now left | right; lia].
  - right. lia.
Qed.

Lemma reached_weaken m m' st st' : m' <= m -> reached m st st' -> reached m' st st'.
Proof. intros Hm (H1 & H2 & H3). repeat split; try lia. exact H3. Qed.

Lemma star_loop_reached (step : mstate -> list mstate) (greedy : bool) :
  (forall st st', In st' (step st) -> exists m, reached m st st') ->
  forall n st rest st',
    In st' (star_loop step greedy n st rest) -> In st' rest \/ reached 0 st st'.
Proof.
  intros Hstep n. induction n as [|n IH]; intros st rest st' H; simpl in H.
  - destruct H as [<-|H]; [right; apply reached_refl | now left].
  - assert (F : forall l base,
               (forall x, In x l -> exists m, reached m st x) ->
               In st' (fold_right
                         (fun x out => if N.ltb (pos st) (pos x)
                                       then star_loop step greedy n x out else out)
                         base l) ->
               In st' base \/ reached 0 st st').
    { induction l as [|x l IHl]; intros base Hl Hin; simpl in Hin.
      - now left.
      - assert (Hl' : forall y, In y l -> exists m, reached m st y)
          by (intros y Hy; apply Hl; now right).
        destruct (N.ltb (pos st) (pos x)).
        + apply IH in Hin as [Hin|Hin].
          * now apply IHl.
          * right. destruct (Hl x (or_introl eq_refl)) as [m Hm].
            apply reached_weaken with (m := m + 0); [lia|].
            eapply reached_trans; eassumption.
        + now apply IHl. }
    destruct greedy.
    + apply F in H; [|intros x Hx; now apply Hstep].
      destruct H as [[<-|H]|H]; [right; apply reached_refl | now left | now right].
    + destruct H as [<-|H]; [right; apply reached_refl|].
      apply F in H; [exact H | intros x Hx; now apply Hstep].
Qed.

Lemma run_reached (r : re) :
  no_ahead r = true ->
  forall st st', In st' (run r st) -> reached (min_len r) st st'.
Proof.
  induction r as [|p|a IHa b IHb|a IHa b IHb|g a IHa|n a IHa| | | |a IHa];
    intros Hr st st' H; simpl in *; try discriminate.
  - destruct H as [<-|[]]. apply reached_refl.
  - destruct (after st) as [|c t] eqn:Ea; [destruct H|].
    destruct (p c); [|destruct H]. destruct H as [<-|[]].
    unfold reached, at_. simpl. rewrite Ea. simpl. rewrite N2Nat.inj_succ.
    repeat split; try lia. intros k v Hk. now left.
  - apply andb_true_iff in Hr as [Ha Hb].
    apply in_flat_map in H as (st1 & H1 & H2).
    eapply reached_trans; [apply IHa | apply IHb]; eassumption.
  - apply andb_true_iff in Hr as [Ha Hb].
    apply in_app_or in H as [H|H].
    + eapply reached_weaken; [|apply IHa; eassumption]. lia.
    + eapply reached_weaken; [|apply IHb; eassumption]. lia.
  - apply star_loop_reached in H as [[]|H]; [exact H|].
    intros x y Hxy. exists (min_len a). now apply IHa.
  - apply in_map_iff in H as (st1 & <- & H1).
    destruct (IHa Hr st st1 H1) as (G1 & G2 & G3).
    unfold reached, at_ in *. simpl. repeat split; try lia.
    intros k v [E|Hk].
    + injection E as <- <-. right. rewrite length_firstn. lia.
    + now apply G3.
  - destruct (before st); [|destruct H]. destruct H as [<-|[]]. apply reached_refl.
  - destruct (after st); [|destruct H]. destruct H as [<-|[]]. apply reached_refl.
  - destruct (xorb _ _); [|destruct H]. destruct H as [<-|[]]. apply reached_refl.
Qed.

Lemma replace_all_render r f s : replace_all r f s = flat_map (render f) (gpieces r s).
Proof. reflexivity. Qed.

Lemma length_flat_map_Lit f (s : jstring) :
  length (flat_map (render f) (map Lit s)) = length s.
Proof. induction s as [|c s IH]; simpl; [reflexivity | now rewrite IH]. Qed.

Lemma pieces_length (r : re) (f : mres -> jstring) :
  no_ahead r = true ->
  (forall bef aft st', In st' (run r (start bef aft)) ->
                       length (f (hit aft st')) <= at_ st') ->
  forall n bef aft, length (flat_map (render f) (pieces n r bef aft)) <= length aft.
Proof.
  intros Hr Hf n. induction n as [|n IH]; intros bef aft.
  - simpl. now rewrite length_flat_map_Lit.
  - simpl. destruct (run r (start bef aft)) as [|st' l] eqn:Er.
    + destruct aft as [|c t]; simpl; [lia|]. specialize (IH (c :: bef) t). lia.
    + assert (Hin : In st' (run r (start bef aft))) by (rewrite Er; now left).
      pose proof (Hf bef aft st' Hin) as Hlen.
      destruct (run_reached r Hr _ _ Hin) as (_ & Hpos & _).
      unfold at_ in Hpos. simpl in Hpos. fold (at_ st') in Hpos.
      destruct (N.ltb 0 (pos st')) eqn:Ep.
      * simpl. rewrite length_app. specialize (IH (before st') (after st')). lia.
      * apply N.ltb_ge in Ep. assert (at_ st' = 0) by (unfold at_; lia).
        destruct aft as [|c t]; simpl; rewrite ?length_app; simpl.
        -- lia.
        -- specialize (IH (c :: bef) t). lia.
Qed.

Lemma replace_all_length (r : re) (f : mres -> jstring) (s : jstring) :
  no_ahead r = true ->
  (forall bef aft st', In st' (run r (start bef aft)) ->
                       length (f (hit aft st')) <= at_ st') ->
  length (replace_all r f s) <= length s.
Proof. intros Hr Hf. rewrite replace_all_render. now apply pieces_length. Qed.

(** A fixed replacement of one character for a pattern that consumes at
    least one. *)
Lemma replace_all_one (r : re) (c : jstring) (s : jstring) :
  no_ahead r = true -> 1 <= min_len r -> length c <= 1 ->
  length (replace_all r (fun _ => c) s) <= length s.
Proof.
  intros Hr Hm Hc. apply replace_all_length; [exact Hr|].
  intros bef aft st' Hin.
  destruct (run_reached r Hr _ _ Hin) as (H1 & _). cbv beta.
  unfold at_ in *. simpl in H1. lia.
Qed.

(** The replacement [$n]: a capture is never longer than its match. *)
Lemma replace_all_group (r : re) (n : nat) (s : jstring) :
  no_ahead r = true ->
  length (replace_all r (fun m => grp m n) s) <= length s.
Proof.
  intro Hr. apply replace_all_length; [exact Hr|].
  intros bef aft st' Hin.
  destruct (run_reached r Hr _ _ Hin) as (_ & _ & H3).
  unfold grp, hit. simpl.
  destruct (cap_lookup (caps st') n) as [v|] eqn:E; [|simpl; lia].
  assert (Hv : In (n, v) (caps st')).
  { clear -E. induction (caps st') as [|[k u] l IH]; simpl in E; [discriminate|].
    destruct (Nat.eqb k n) eqn:Ek.
    - apply Nat.eqb_eq in Ek. injection E as <-. subst. now left.
    - right. now apply IH. }
  destruct (H3 n v Hv) as [[]|H]. unfold at_ in *. simpl in H. lia.
Qed.

(** ** The text sanitizer *)

Lemma drop_while_length p (s : jstring) : length (drop_while p s) <= length s.
Proof.
  induction s as [|c s IH]; simpl; [lia|]. destruct (p c); simpl; lia.
Qed.

Lemma drop_while_idem p (s : jstring) : drop_while p (drop_while p s) = drop_while p s.
Proof.
  induction s as [|c s IH]; simpl; [reflexivity|].
  destruct (p c) eqn:E; [exact IH|]. simpl. now rewrite E.
Qed.

Lemma drop_while_suffix p (s : jstring) : exists d, s = d ++ drop_while p s.
Proof.
  induction s as [|c s [d IH]]; simpl; [now exists []|].
  destruct (p c).
  - exists (c :: d). simpl. now rewrite <- IH.
  - now exists [].
Qed.

Lemma trim_length (s : jstring) : length (trim s) <= length s.
Proof.
  unfold trim, trimEnd, trimStart. rewrite length_rev.
  pose proof (drop_while_length is_space (rev (drop_while is_space s))) as H1.
  pose proof (drop_while_length is_space s) as H2.
  rewrite length_rev in H1. lia.
Qed.

Lemma trimEnd_idem (s : jstring) : trimEnd (trimEnd s) = trimEnd s.
Proof. unfold trimEnd. now rewrite rev_involutive, drop_while_idem. Qed.

Lemma trimEnd_prefix (s : jstring) : exists d, s = trimEnd s ++ d.
Proof.
  unfold trimEnd. destruct (drop_while_suffix is_space (rev s)) as [d Hd].
  exists (rev d). rewrite <- rev_app_distr, <- Hd. now rewrite rev_involutive.
Qed.

Lemma trimStart_trimEnd (s : jstring) :
  trimStart s = s -> trimStart (trimEnd s) = trimEnd s.
Proof.
  intro Hs. destruct (trimEnd_prefix s) as [d Hd].
  destruct (trimEnd s) as [|c t] eqn:E; [reflexivity|].
  rewrite Hd in Hs. unfold trimStart in *. simpl in *.
  destruct (is_space c) eqn:Ec; [|reflexivity].
  exfalso. pose proof (drop_while_length is_space (t ++ d)) as Hl.
  rewrite Hs in Hl. simpl in Hl. lia.
Qed.

Lemma trim_idem (s : jstring) : trim (trim s) = trim s.
Proof.
  unfold trim. rewrite trimStart_trimEnd.
  - apply trimEnd_idem.
  - unfold trimStart. apply drop_while_idem.
Qed.

Lemma lastIndexOf_from_bound s c : forall i acc,
  (acc < i)%Z ->
  (lastIndexOf_from i acc s c < i + Z.of_nat (length s))%Z.
Proof.
  induction s as [|x s IH]; intros i acc H; simpl lastIndexOf_from.
  - simpl. lia.
  - specialize (IH (i + 1)%Z (if cu_eqb x c then i else acc)).
    assert ((if cu_eqb x c then i else acc) < i + 1)%Z by (destruct (cu_eqb x c); lia).
    specialize (IH H0). simpl length. lia.
Qed.

Lemma lastIndexOf_bound s c : (lastIndexOf s c < Z.of_nat (length s))%Z.
Proof. unfold lastIndexOf. pose proof (lastIndexOf_from_bound s c 0 (-1)%Z). lia. Qed.

Lemma lastSentenceEndOf_bound s : (V1.lastSentenceEndOf s < Z.of_nat (length s))%Z.
Proof.
  unfold V1.lastSentenceEndOf.
  pose proof (lastIndexOf_bound s (ch ".")).
  pose proof (lastIndexOf_bound s (ch "!")).
  pose proof (lastIndexOf_bound s (ch "?")). lia.
Qed.

Lemma limitLength_length (t : jstring) : length (V1.limitLength t) <= length t.
Proof.
  unfold V1.limitLength. destruct (Nat.ltb 300 (length t)); [|lia].
  destruct (Z.ltb 0 _); [|lia]. unfold substring0. rewrite length_firstn. lia.
Qed.

Lemma limitLength_cap (t : jstring) :
  length t <= 300 \/ (0 < V1.lastSentenceEndOf (substring0 300 t))%Z ->
  length (V1.limitLength t) <= 300.
Proof.
  intro H. unfold V1.limitLength.
  destruct (Nat.ltb 300 (length t)) eqn:E.
  - apply Nat.ltb_lt in E. destruct H as [H|H]; [lia|].
    apply Z.ltb_lt in H. rewrite H.
    pose proof (lastSentenceEndOf_bound (substring0 300 t)) as B.
    pose proof (length_firstn 300 t) as L. unfold substring0 in *.
    rewrite length_firstn. lia.
  - apply Nat.ltb_ge in E. exact E.
Qed.

Lemma finalCleanup_length (t : jstring) : length (V1.finalCleanup t) <= length t.
Proof.
  unfold V1.finalCleanup.
  eapply Nat.le_trans; [apply replace_all_group; reflexivity|].
  eapply Nat.le_trans;
    [apply replace_all_one; [reflexivity | simpl; lia | simpl; lia]|].
  eapply Nat.le_trans;
    [apply replace_all_one; [reflexivity | simpl; lia | simpl; lia]|].
  eapply Nat.le_trans;
    [apply replace_all_one; [reflexivity | simpl; lia | simpl; lia]|].
  apply trim_length.
Qed.

Lemma startsWith_nil (s : jstring) : startsWith s [] = true.
Proof. now destruct s. Qed.

Lemma stripPrompt_once (raw prompt : jstring) :
  V1.stripPrompt raw prompt
  = V1.stripPrompt (if startsWith (trim raw) prompt
                    then slice_from (length prompt) (trim raw) else raw) [].
Proof.
  unfold V1.stripPrompt. rewrite startsWith_nil. unfold slice_from at 2. simpl skipn.
  rewrite trim_idem. now destruct (startsWith (trim raw) prompt).
Qed.

Lemma or_else_nonempty (x d : jstring) : d <> [] -> V1.or_else x d <> [].
Proof. intros Hd. destruct x; [exact Hd | discriminate]. Qed.

Lemma or_else_length (x d : jstring) n :
  length x <= n -> length d <= n -> length (V1.or_else x d) <= n.
Proof. intros Hx Hd. now destruct x. Qed.

(** Where the length cap applies the sanitizer returns at most 300
    characters. *)
Lemma cleanGeneratedText_cap (raw prompt : jstring) :
  capApplies raw prompt -> length (V1.cleanGeneratedText raw prompt) <= 300.
Proof.
  intro H. unfold V1.cleanGeneratedText. apply or_else_length.
  - eapply Nat.le_trans; [apply finalCleanup_length|]. now apply limitLength_cap.
  - apply Nat.leb_le. vm_compute. reflexivity.
Qed.

(** C4, counterexample.  The text "aa" cleaned against the prompt "a" is
    "a": it has no terminal punctuation (none is added) and it begins with
    the prompt (the prompt is removed once).  A text of 301 letters without
    a sentence end is returned whole: 301 characters, not the first 300. *)
Lemma C4_counterexample :
  ~ cleanContract (js "aa") (js "a") /\
  V1.cleanGeneratedText (js "aa") (js "a") = js "a" /\
  ~ cleanContract unbroken (js "The") /\
  V1.cleanGeneratedText unbroken (js "The") = unbroken.
Proof.
  assert (E1 : V1.cleanGeneratedText (js "aa") (js "a") = js "a")
    by (vm_compute; reflexivity).
  assert (E2 : V1.cleanGeneratedText unbroken (js "The") = unbroken)
    by (vm_compute; reflexivity).
  split; [|split; [exact E1|split; [|exact E2]]].
  - unfold cleanContract. rewrite E1. intros (_ & H & _). vm_compute in H. discriminate.
  - unfold cleanContract. rewrite E2. intros (_ & _ & H & _).
    apply Nat.leb_le in H. vm_compute in H. discriminate.
Qed.


(** C4, as amended.  For every raw text and prompt the sanitizer returns a
    non-empty string.  Its length is at most 300 whenever the text that
    reaches the length cap (after the prompt, the JSON tail, the
    instructional phrases and the duplicate sentences are removed) is
    itself at most 300 long or has a [.], [!] or [?] at an index from 1 to
    299 ([capApplies]).  The prompt is taken off the trimmed text once if
    the text begins with it, and plays no other part: the result is that of
    cleaning the remainder against the empty prompt, and may begin with the
    prompt again. *)
Theorem C4_clean_contract (raw prompt : jstring) :
  V1.cleanGeneratedText raw prompt <> [] /\
  (capApplies raw prompt -> length (V1.cleanGeneratedText raw prompt) <= 300) /\
  V1.cleanGeneratedText raw prompt
  = V1.cleanGeneratedText
      (if startsWith (trim raw) prompt
       then slice_from (length prompt) (trim raw) else raw) [].
Proof.
  split; [|split].
  - unfold V1.cleanGeneratedText. apply or_else_nonempty. discriminate.
  - apply cleanGeneratedText_cap.
  - unfold V1.cleanGeneratedText. now rewrite stripPrompt_once.
Qed.

Lemma C4_witness :
  length (V1.cleanGeneratedText echoed (js "Tell a tale.")) <= 300 /\
  V1.cleanGeneratedText echoed (js "Tell a tale.")
  = js "The gate opens. The gate opens. A bell rings.".
Proof.
  split.
  - apply (proj1 (proj2 (C4_clean_contract echoed (js "Tell a tale.")))).
    left. apply Nat.leb_le. vm_compute. reflexivity.
  - vm_compute. reflexivity.
Defined.








(** ** The summary and its caps *)





Lemma V1_generateSummary_eq h t p w :
  V1.generateSummary h t p w =
    match complete h (calls w) (V1.summaryPrompt t p) with
    | Some raw => (Ret (trim (V1.cleanGeneratedText raw (V1.summaryPrompt t p))),
                   asked (V1.summaryPrompt t p) true w)
    | None => (Ret (V1.simpleSummary t p), asked (V1.summaryPrompt t p) false w)
    end.
Proof.
  unfold V1.generateSummary, try_catch, bind. rewrite V1_generateText_eq.
  now destruct (complete h (calls w) (V1.summaryPrompt t p)).
Qed.







(** ** Occurrences in strings *)

Lemma cu_eqb_eq (a b : cu) : cu_eqb a b = true <-> a = b.
Proof. apply N.eqb_eq. Qed.

Lemma startsWith_spec (s p : jstring) : startsWith s p = true <-> exists b, s = p ++ b.
Proof.
  revert s; induction p as [|x p IH]; intros s; simpl.
  - rewrite startsWith_nil. split; [intros _; now exists s | reflexivity].
  - destruct s as [|y s]; simpl.
    + split; [discriminate | intros [b H]; discriminate].
    + rewrite andb_true_iff, cu_eqb_eq, IH. split.
      * intros [-> [b ->]]. now exists b.
      * intros [b H]. injection H as -> ->. split; [reflexivity | now exists b].
Qed.

Lemma indexOf_from_None (p : jstring) : forall s i,
  indexOf_from i s p = None <-> ~ occurs p s.
Proof.
  induction s as [|c s IH]; intro i; cbn [indexOf_from].
  - destruct (startsWith [] p) eqn:E.
    + split; [discriminate|]. intro H. exfalso. apply H.
      apply startsWith_spec in E as [b E]. now exists [], b.
    + split; [|reflexivity]. intros _ (a & b & H).
      assert (startsWith [] p = true); [|congruence].
      apply startsWith_spec. destruct a; [now exists b | discriminate].
  - destruct (startsWith (c :: s) p) eqn:E.
    + split; [discriminate|]. intro H. exfalso. apply H.
      apply startsWith_spec in E as [b E]. now exists [], b.
    + rewrite IH. split.
      * intros H (a & b & Hab). destruct a as [|x a].
        -- assert (startsWith (c :: s) p = true); [|congruence].
           apply startsWith_spec. now exists b.
        -- injection Hab as -> ->. apply H. now exists a, b.
      * intros H (a & b & Hab). apply H. exists (c :: a), b. now rewrite Hab.
Qed.

Lemma indexOf_from_Some (p : jstring) : forall s i k,
  indexOf_from i s p = Some k ->
  i <= k /\ startsWith (skipn (k - i) s) p = true /\
  (p <> [] -> ~ occurs p (firstn (k - i + (length p - 1)) s)).
Proof.
  induction s as [|c s IH]; intros i k; cbn [indexOf_from].
  - destruct (startsWith [] p) eqn:E; [|discriminate].
    intro H. injection H as <-. rewrite Nat.sub_diag. simpl.
    split; [lia|]. split; [exact E|].
    intros Hp (a & b & Hab). rewrite firstn_nil in Hab.
    destruct a, p; try discriminate. now apply Hp.
  - destruct (startsWith (c :: s) p) eqn:E.
    + intro H. injection H as <-. rewrite Nat.sub_diag. simpl skipn.
      split; [lia|]. split; [exact E|].
      intros Hp (a & b & Hab).
      assert (L : length (firstn (0 + (length p - 1)) (c :: s)) <= length p - 1)
        by (rewrite length_firstn; lia).
      rewrite Hab, !length_app in L.
      destruct p; [now apply Hp|]. simpl in L. lia.
    + intro H. apply IH in H as (Hi & Hs & Hn).
      split; [lia|].
      replace (k - i) with (S (k - S i)) by lia. simpl skipn.
      split; [exact Hs|].
      intros Hp (a & b & Hab). simpl in Hab.
      destruct a as [|x a].
      * assert (startsWith (c :: s) p = true); [|congruence].
        apply startsWith_spec. simpl in Hab.
        destruct (firstn_skipn (k - S i + (length p - 1)) s).
        exists (b ++ skipn (k - S i + (length p - 1)) s).
        rewrite app_assoc, <- Hab. simpl.
        now rewrite firstn_skipn.
      * injection Hab as -> Hab. apply (Hn Hp). now exists a, b.
Qed.

Lemma indexOf_from_hit (s p : jstring) i :
  startsWith s p = true -> indexOf_from i s p = Some i.
Proof. intro H. destruct s; cbn [indexOf_from]; now rewrite H. Qed.

Lemma occurs_infix (p a s b : jstring) : occurs p s -> occurs p (a ++ s ++ b).
Proof.
  intros (x & y & ->). exists (a ++ x), (y ++ b). now rewrite <- !app_assoc.
Qed.

Lemma trimStart_suffix (s : jstring) : exists d, s = d ++ trimStart s.
Proof. apply drop_while_suffix. Qed.

Lemma trim_infix (s : jstring) : exists a b, s = a ++ trim s ++ b.
Proof.
  unfold trim. destruct (trimStart_suffix s) as [a Ha].
  destruct (trimEnd_prefix (trimStart s)) as [b Hb].
  exists a, b. now rewrite <- Hb.
Qed.

Lemma drop_while_head p (s : jstring) c r : drop_while p s = c :: r -> p c = false.
Proof.
  induction s as [|x s IH]; simpl; [discriminate|].
  destruct (p x) eqn:E; [exact IH|]. intro H. injection H as <- _. exact E.
Qed.

Lemma trim_head (s : jstring) c r : trim s = c :: r -> is_space c = false.
Proof.
  unfold trim. intro H.
  destruct (trimEnd_prefix (trimStart s)) as [d Hd]. rewrite H in Hd.
  unfold trimStart in Hd. simpl in Hd. now apply drop_while_head in Hd.
Qed.

Lemma startsWith_trim_space (s : jstring) c p :
  is_space c = true -> startsWith (trim s) (c :: p) = false.
Proof.
  intro Hc. destruct (startsWith (trim s) (c :: p)) eqn:E; [|reflexivity].
  apply startsWith_spec in E as [b E]. apply trim_head in E. congruence.
Qed.

(** ** The sanitizer, first revision: prompt, JSON tail and length cap *)

Lemma stripPrompt_nil (raw : jstring) : V1.stripPrompt raw [] = trim raw.
Proof.
  unfold V1.stripPrompt. rewrite startsWith_nil. unfold slice_from. simpl skipn.
  apply trim_idem.
Qed.

Lemma stripPrompt_space (raw : jstring) c p :
  is_space c = true -> V1.stripPrompt raw (c :: p) = V1.stripPrompt raw [].
Proof.
  intro Hc. rewrite stripPrompt_nil. unfold V1.stripPrompt.
  now rewrite startsWith_trim_space.
Qed.

Lemma clean_space_prompt (raw : jstring) c p :
  is_space c = true -> V1.cleanGeneratedText raw (c :: p) = V1.cleanGeneratedText raw [].
Proof. intro Hc. unfold V1.cleanGeneratedText. now rewrite stripPrompt_space. Qed.

(** X1.  The sanitizer of the first revision looks for the prompt at the
    start of the trimmed text, so a prompt that begins with a blank is never
    found there: the text is only trimmed, and the result is that of cleaning
    against the empty prompt.  The prompts built by [buildPrompt],
    [buildFreshPrompt], [generateSummary] and [refreshStoryPrompt] all begin
    with a line break, so cleaning an answer to any of them never removes the
    prompt. *)
Theorem prompts_with_leading_blank_are_not_removed (raw : jstring) :
  (forall c p, is_space c = true ->
               V1.stripPrompt raw (c :: p) = trim raw /\
               V1.cleanGeneratedText raw (c :: p) = V1.cleanGeneratedText raw []) /\
  (forall summary lastParagraph setting,
      V1.cleanGeneratedText raw (V1.buildPrompt summary lastParagraph setting)
      = V1.cleanGeneratedText raw []) /\
  (forall summary lastParagraph setting metadata,
      V1.cleanGeneratedText raw (V1.buildFreshPrompt summary lastParagraph setting metadata)
      = V1.cleanGeneratedText raw []) /\
  (forall text previousSummary,
      V1.cleanGeneratedText raw (V1.summaryPrompt text previousSummary)
      = V1.cleanGeneratedText raw []) /\
  (forall storySummary,
      V1.cleanGeneratedText raw (V1.newSummaryPrompt storySummary)
      = V1.cleanGeneratedText raw []).
Proof.
  split; [|repeat split; intros; now apply clean_space_prompt].
  intros c p Hc. split; [|now apply clean_space_prompt].
  now rewrite stripPrompt_space, stripPrompt_nil.
Qed.

Lemma prompts_with_leading_blank_witness :
  is_space 10%N = true /\
  V1.stripPrompt (js "  Tale: once upon a time.") (10%N :: js "Tale:")
  = js "Tale: once upon a time.".
Proof.
  split; [reflexivity|].
  transitivity (trim (js "  Tale: once upon a time.")); [|vm_compute; reflexivity].
  apply (proj1 (prompts_with_leading_blank_are_not_removed
                  (js "  Tale: once upon a time."))).
  reflexivity.
Defined.

Lemma cutJson_json_first (b : jstring) : V1.cutJson (js "[{" ++ b) = [].
Proof.
  unfold V1.cutJson, indexOf.
  rewrite indexOf_from_hit by (apply startsWith_spec; now exists b).
  reflexivity.
Qed.

(** X2.  The step of the sanitizer that handles JSON leaves a text in
    which the two characters [[{] do not occur; what it returns is a part of
    its input; and a text that begins with them is cut down to the empty
    string. *)
Theorem cutJson_leaves_no_json (t : jstring) :
  ~ occurs (js "[{") (V1.cutJson t) /\
  (exists a b, t = a ++ V1.cutJson t ++ b) /\
  (forall b, V1.cutJson (js "[{" ++ b) = []).
Proof.
  split; [|split].
  - unfold V1.cutJson, indexOf.
    destruct (indexOf_from 0 t (js "[{")) as [k|] eqn:E.
    + apply indexOf_from_Some in E as (_ & _ & Hn).
      intro Ho. apply Hn; [discriminate|].
      rewrite Nat.sub_0_r. simpl length. simpl Nat.sub.
      destruct (trim_infix (substring0 k t)) as (a & b & Hab).
      apply (occurs_infix _ a _ b) in Ho. rewrite <- Hab in Ho.
      destruct Ho as (x & y & Hxy).
      exists x, (y ++ skipn k (firstn (k + 1) t)).
      unfold substring0 in Hxy.
      rewrite <- (firstn_skipn k (firstn (k + 1) t)) at 1.
      rewrite firstn_firstn, Nat.min_l by lia.
      rewrite Hxy. now rewrite <- !app_assoc.
    + now apply indexOf_from_None in E.
  - unfold V1.cutJson. destruct (indexOf t (js "[{")) as [k|].
    + destruct (trim_infix (substring0 k t)) as (a & b & Hab).
      exists a, (b ++ skipn k t). unfold substring0 in *.
      rewrite <- (firstn_skipn k t) at 1. rewrite Hab at 1.
      now rewrite <- !app_assoc.
    + exists [], []. now rewrite app_nil_r.
  - apply cutJson_json_first.
Qed.

Lemma clean_of_json (raw prompt : jstring) :
  startsWith (V1.stripPrompt raw prompt) (js "[{") = true ->
  V1.cleanGeneratedText raw prompt = V1.fallbackSentence.
Proof.
  intro H. apply startsWith_spec in H as [b H].
  unfold V1.cleanGeneratedText. rewrite H.
  rewrite cutJson_json_first.
  vm_compute. reflexivity.
Qed.

Lemma parse_fallbackSentence (h : Host) (w : World) :
  V1.parseChoicesFromText h V1.fallbackSentence w = (Ret V1.defaultChoices, w).
Proof. vm_compute. reflexivity. Qed.

Lemma V1_continueStory_choices h cur ch b ws w seg w' :
  V1.continueStory h cur ch b ws w = (Ret seg, w') ->
  exists g n raw wc,
    complete h n (V1.nextChoicesPrompt g) = Some raw /\
    V1.parseChoicesFromText h (V1.cleanGeneratedText raw (V1.nextChoicesPrompt g)) wc
    = (Ret (choices seg), w').
Proof.
  unfold V1.continueStory, bind at 1. rewrite V1_generateText_eq.
  destruct (complete h (calls w) (V1.storyPromptOf cur b ws)) as [raw|]; [|discriminate].
  generalize (V1.cleanGeneratedText raw (V1.storyPromptOf cur b ws)).
  intro g. unfold bind at 1.
  match goal with
  | |- context [match ?m ?w0 with _ => _ end] => destruct (m w0) as [[[]|] w1]
  end; [|discriminate].
  unfold bind at 1. rewrite V1_generateText_eq.
  destruct (complete h (calls w1) _) as [rawC|] eqn:Ec; [|discriminate].
  unfold bind at 1.
  match goal with
  | |- context [V1.parseChoicesFromText h ?c ?w0] =>
      destruct (V1.parseChoicesFromText h c w0) as [[cs|] w2] eqn:E
  end; [|discriminate].
  unfold ret. intro H. injection H as <- <-.
  exists g, (calls w1), rawC. eexists. split; [exact Ec|]. exact E.
Qed.

(** X4.  When the model answers every request for choices with a
    text that begins with the JSON the prompt asks for, a call of
    [generateNextStorySegment] of the first revision never returns the
    model's choices: [generateText] cleans the answer before the parser sees
    it, the JSON is cut away, and the segment either is the fallback segment
    or carries the default pair of choices. *)
Theorem json_answers_give_the_default_choices (h : Host) (cur : StorySegment)
  (ch : Choice) (w : World) :
  answersWithJson h ->
  exists seg w',
    V1.generateNextStorySegment h cur ch w = (Ret seg, w') /\
    (seg = V1.fallbackSegment cur ch \/ choices seg = V1.defaultChoices).
Proof.
  intro Hj. unfold V1.generateNextStorySegment, try_catch.
  destruct (V1.nextSegmentBody h cur ch w) as [[seg|] w'] eqn:E.
  - exists seg, w'. split; [reflexivity|]. right.
    rewrite V1_body_shape in E.
    apply V1_continueStory_choices in E as (g & n & raw & wc & Hc & Hp).
    rewrite (clean_of_json _ _ (Hj _ _ _ Hc)), parse_fallbackSentence in Hp.
    now injection Hp as <- _.
  - eexists _, _. split; [reflexivity|]. now left.
Qed.

Lemma obedientHost_answersWithJson : answersWithJson obedientHost.
Proof.
  intros n g raw. unfold obedientHost, complete.
  replace (startsWith (V1.nextChoicesPrompt g) (js "Answer with ONLY a JSON array"))
    with true.
  - intro H. injection H as <-. vm_compute. reflexivity.
  - symmetry. apply startsWith_spec. unfold V1.nextChoicesPrompt.
    eexists. vm_compute. reflexivity.
Qed.

Lemma json_answers_witness :
  answersWithJson obedientHost /\
  exists seg w',
    V1.generateNextStorySegment obedientHost V1.fallbackInitialSegment goOn initialWorld
    = (Ret seg, w') /\
    (seg = V1.fallbackSegment V1.fallbackInitialSegment goOn \/
     choices seg = V1.defaultChoices).
Proof.
  split; [exact obedientHost_answersWithJson|].
  exact (json_answers_give_the_default_choices obedientHost V1.fallbackInitialSegment
           goOn initialWorld obedientHost_answersWithJson).
Defined.

Lemma lastIndexOf_from_hit (s : jstring) (c : cu) : forall i acc,
  (0 <= i)%Z ->
  let r := lastIndexOf_from i acc s c in
  r = acc \/ ((i <= r)%Z /\ nth_error s (Z.to_nat (r - i)) = Some c).
Proof.
  induction s as [|x s IH]; intros i acc Hi; simpl.
  - now left.
  - destruct (cu_eqb x c) eqn:E.
    + destruct (IH (i + 1)%Z i ltac:(lia)) as [H|[H1 H2]].
      * right. rewrite H. split; [lia|]. rewrite Z.sub_diag. simpl.
        apply cu_eqb_eq in E. now subst.
      * right. split; [lia|].
        replace (Z.to_nat (lastIndexOf_from (i + 1) i s c - i))
          with (S (Z.to_nat (lastIndexOf_from (i + 1) i s c - (i + 1)))) by lia.
        exact H2.
    + destruct (IH (i + 1)%Z acc ltac:(lia)) as [H|[H1 H2]].
      * now left.
      * right. split; [lia|].
        replace (Z.to_nat (lastIndexOf_from (i + 1) acc s c - i))
          with (S (Z.to_nat (lastIndexOf_from (i + 1) acc s c - (i + 1)))) by lia.
        exact H2.
Qed.

Lemma lastIndexOf_hit (s : jstring) (c : cu) :
  (0 <= lastIndexOf s c)%Z -> nth_error s (Z.to_nat (lastIndexOf s c)) = Some c.
Proof.
  intro H. unfold lastIndexOf in *.
  destruct (lastIndexOf_from_hit s c 0 (-1) ltac:(lia)) as [E|[_ E]].
  - rewrite E in H. lia.
  - now rewrite Z.sub_0_r in E.
Qed.

Lemma lastSentenceEndOf_hit (s : jstring) :
  (0 <= V1.lastSentenceEndOf s)%Z ->
  exists c, nth_error s (Z.to_nat (V1.lastSentenceEndOf s)) = Some c /\
            in_set ".!?" c = true.
Proof.
  unfold V1.lastSentenceEndOf. intro H.
  pose proof (lastIndexOf_hit s (ch ".")) as H1.
  pose proof (lastIndexOf_hit s (ch "!")) as H2.
  pose proof (lastIndexOf_hit s (ch "?")) as H3.
  destruct (Z.max_spec (Z.max (lastIndexOf s (ch ".")) (lastIndexOf s (ch "!")))
              (lastIndexOf s (ch "?"))) as [[_ E]|[_ E]]; rewrite E in *.
  - exists (ch "?"). split; [now apply H3 | reflexivity].
  - destruct (Z.max_spec (lastIndexOf s (ch ".")) (lastIndexOf s (ch "!")))
      as [[_ E']|[_ E']]; rewrite E' in *.
    + exists (ch "!"). split; [now apply H2 | reflexivity].
    + exists (ch "."). split; [now apply H1 | reflexivity].
Qed.

Lemma firstn_snoc {A : Type} (l : list A) (k : nat) (x : A) :
  nth_error l k = Some x -> firstn (S k) l = firstn k l ++ [x].
Proof.
  revert k; induction l as [|y l IH]; intros [|k] H; try discriminate.
  - simpl in H. now injection H as ->.
  - simpl in H. change (firstn (S (S k)) (y :: l)) with (y :: firstn (S k) l).
    now rewrite (IH _ H).
Qed.

Lemma nth_error_firstn_Some {A : Type} (l : list A) (n k : nat) (x : A) :
  nth_error (firstn n l) k = Some x -> nth_error l k = Some x.
Proof.
  revert n k; induction l as [|y l IH]; intros [|n] [|k]; simpl; try discriminate;
    try (intro H; exact H).
  apply IH.
Qed.

(** X3.  The length cap either returns the text as it is or cuts it
    just after a [.], [!] or [?]: the cut text is a beginning of the input,
    it ends with that character, and it is between 2 and 300 characters
    long.  It never cuts a text of at most 300 characters. *)
Theorem length_cap_cuts_after_a_sentence_end (t : jstring) :
  V1.limitLength t = t \/
  exists pre c rest,
    V1.limitLength t = pre ++ [c] /\ t = pre ++ c :: rest /\
    in_set ".!?" c = true /\ 0 < length pre < 300 /\ 300 < length t.
Proof.
  unfold V1.limitLength.
  destruct (Nat.ltb 300 (length t)) eqn:L; [|now left].
  destruct (Z.ltb 0 (V1.lastSentenceEndOf (substring0 300 t))) eqn:E; [|now left].
  right. apply Z.ltb_lt in E. apply Nat.ltb_lt in L.
  destruct (lastSentenceEndOf_hit (substring0 300 t)) as (c & Hc & Hp); [lia|].
  pose proof (lastSentenceEndOf_bound (substring0 300 t)) as B.
  pose proof (length_substring0 300 t) as B'.
  set (k := Z.to_nat (V1.lastSentenceEndOf (substring0 300 t))) in *.
  replace (Z.to_nat (V1.lastSentenceEndOf (substring0 300 t) + 1)) with (S k) by lia.
  unfold substring0 in Hc. apply nth_error_firstn_Some in Hc.
  exists (firstn k t), c, (skipn (S k) t). unfold substring0.
  split; [now apply firstn_snoc|]. split.
  - rewrite <- (firstn_skipn (S k) t) at 1. rewrite (firstn_snoc _ _ _ Hc).
    now rewrite <- app_assoc.
  - split; [exact Hp|]. rewrite length_firstn. lia.
Qed.

(** ** Calls of generateText *)

Lemma costs_ret {A : Type} (a : A) : costs 0 (ret a).
Proof. intros w x w' H. injection H as _ <-. lia. Qed.

Lemma costs_throw {A : Type} k : costs k (@throw A).
Proof. intros w x w' H. discriminate. Qed.

Lemma costs_bind {A B : Type} k1 k2 (m : M A) (f : A -> M B) :
  costs k1 m -> (forall a, costs k2 (f a)) -> costs (k1 + k2) (bind m f).
Proof.
  intros H1 H2 w b w'. unfold bind.
  destruct (m w) as [[a|] w1] eqn:E; [|discriminate].
  intro H. apply H2 in H. apply H1 in E. lia.
Qed.

Lemma costs_eq {A : Type} k k' (m : M A) : k = k' -> costs k m -> costs k' m.
Proof. now intros ->. Qed.

Lemma within_ret {A : Type} (a : A) : within 0 0 (ret a).
Proof. intro w. simpl. lia. Qed.

Lemma within_throw {A : Type} : within 0 0 (@throw A).
Proof. intro w. simpl. lia. Qed.

Lemma within_weaken {A : Type} lo hi lo' hi' (m : M A) :
  lo' <= lo -> hi <= hi' -> within lo hi m -> within lo' hi' m.
Proof. intros H1 H2 H w. specialize (H w). lia. Qed.

Lemma within_bind {A B : Type} l1 h1 l2 h2 (m : M A) (f : A -> M B) :
  within l1 h1 m -> (forall a, within l2 h2 (f a)) -> within l1 (h1 + h2) (bind m f).
Proof.
  intros H1 H2 w. unfold bind. specialize (H1 w).
  destruct (m w) as [[a|] w1]; cbn [snd] in *; [|lia].
  specialize (H2 a w1). lia.
Qed.

Lemma within_try_catch {A : Type} k l1 h1 l2 h2 lo hi (m hd : M A) :
  costs k m -> within l1 h1 m -> within l2 h2 hd ->
  lo <= k <= hi -> lo <= l1 + l2 -> h1 + h2 <= hi ->
  within lo hi (try_catch m hd).
Proof.
  intros Hk H1 H2 B1 B2 B3 w. unfold try_catch. specialize (H1 w).
  destruct (m w) as [[a|] w1] eqn:E; cbn [snd] in *.
  - apply Hk in E. lia.
  - specialize (H2 w1). lia.
Qed.

Lemma within_request h p : within 1 1 (request h p).
Proof. intro w. unfold request. destruct (complete h (calls w) p); simpl; lia. Qed.

Lemma costs_request h p : costs 1 (request h p).
Proof.
  intros w a w'. unfold request.
  destruct (complete h (calls w) p); [|discriminate].
  intro H. injection H as _ <-. reflexivity.
Qed.

Lemma within_of_keeps_calls {A : Type} (m : M A) :
  (forall w, calls (snd (m w)) = calls w) -> within 0 0 m.
Proof. intros H w. rewrite H. lia. Qed.

Lemma costs_of_keeps_calls {A : Type} (m : M A) :
  (forall w, calls (snd (m w)) = calls w) -> costs 0 m.
Proof. intros H w a w' E. specialize (H w). rewrite E in H. simpl in H. lia. Qed.

Lemma calls_parseChoicesFromText h s w :
  calls (snd (V1.parseChoicesFromText h s w)) = calls w.
Proof. now destruct (keeps_quiet_parseChoicesFromText h s w) as (_ & H & _). Qed.

Lemma calls_mathRandom h w : calls (snd (mathRandom h w)) = calls w.
Proof. reflexivity. Qed.

Ltac cost_step :=
  first
    [ apply costs_ret | apply within_ret | apply within_throw
    | apply costs_request | apply within_request
    | apply within_of_keeps_calls; first
        [ apply calls_parseChoicesFromText | intro; reflexivity ]
    | apply costs_of_keeps_calls; first
        [ apply calls_parseChoicesFromText | intro; reflexivity ] ].

Lemma V1_within_generateText h p : within 1 1 (V1.generateText h p).
Proof.
  intro w. rewrite V1_generateText_eq. destruct (complete h (calls w) p); simpl; lia.
Qed.

Lemma V1_costs_generateText h p : costs 1 (V1.generateText h p).
Proof.
  intros w a w'. rewrite V1_generateText_eq.
  destruct (complete h (calls w) p); [|discriminate].
  intro H. injection H as _ <-. reflexivity.
Qed.

Lemma V1_within_generateSummary h t p : within 1 1 (V1.generateSummary h t p).
Proof.
  intro w. rewrite V1_generateSummary_eq. destruct (complete h (calls w) _); simpl; lia.
Qed.

Lemma V1_costs_generateSummary h t p : costs 1 (V1.generateSummary h t p).
Proof.
  intros w a w' E. pose proof (V1_within_generateSummary h t p w) as H.
  rewrite E in H. simpl in H. lia.
Qed.

Lemma V1_within_continueStory h cur ch (b : bool) ws :
  within 1 (if b then 2 else 3) (V1.continueStory h cur ch b ws).
Proof.
  unfold V1.continueStory.
  eapply within_weaken;
    [ | | eapply within_bind; [apply V1_within_generateText|] ].
  3:{ intro g. cbv zeta.
      eapply within_bind with (l1 := 0) (h1 := if b then 0 else 1).
      - destruct b; [cost_step|].
        eapply within_weaken;
          [ | | eapply within_bind; [apply V1_within_generateSummary|intro; cost_step] ];
          lia.
      - intros _. eapply within_bind; [apply V1_within_generateText|].
        intro c. eapply within_bind; [cost_step|]. intro cs. cost_step. }
  - lia.
  - destruct b; simpl; lia.
Qed.

Lemma V1_costs_continueStory h cur ch (b : bool) ws :
  costs (if b then 2 else 3) (V1.continueStory h cur ch b ws).
Proof.
  unfold V1.continueStory.
  eapply costs_eq; [|eapply costs_bind; [apply V1_costs_generateText|]].
  2:{ intro g. cbv zeta.
      eapply costs_bind with (k1 := if b then 0 else 1).
      - destruct b; [cost_step|].
        eapply costs_eq;
          [|eapply costs_bind; [apply V1_costs_generateSummary|intro; cost_step]].
        lia.
      - intros _. eapply costs_bind; [apply V1_costs_generateText|].
        intro c. eapply costs_bind; [cost_step|]. intro cs. cost_step. }
  destruct b; simpl; lia.
Qed.

Lemma calls_afterRefresh h w :
  calls (afterRefresh h w)
  = calls w + (if V1.shouldRefresh (store w) then 1 else 0).
Proof.
  unfold afterRefresh. destruct (V1.shouldRefresh (store w)); simpl; [|lia].
  now destruct (refreshAnswer h w).
Qed.

Lemma costs_try_catch {A : Type} k (m hd : M A) :
  costs k m -> within k k m -> costs 0 hd -> costs k (try_catch m hd).
Proof.
  intros Hk Hw Hh w a w'. unfold try_catch. specialize (Hw w).
  destruct (m w) as [[x|] w1] eqn:E; cbn [snd] in *.
  - intro H. injection H as _ <-. lia.
  - intro H. apply Hh in H. lia.
Qed.

(** X7.  What a call costs in the first revision, counted in calls
    of [generateText]: [generateNextStorySegment] makes at least one and at
    most three, and exactly three when its [try] block returns;
    [generateInitialStory] makes at least two and at most four. *)
Theorem V1_requests_per_call (h : Host) (cur : StorySegment) (ch : Choice) :
  within 1 3 (V1.generateNextStorySegment h cur ch) /\
  costs 3 (V1.nextSegmentBody h cur ch) /\
  within 2 4 (V1.generateInitialStory h).
Proof.
  split; [|split].
  - intro w. unfold V1.generateNextStorySegment, try_catch. rewrite V1_body_shape.
    pose proof (V1_within_continueStory h cur ch (V1.shouldRefresh (store w))
                  (workingSummaryOf h w) (afterRefresh h w)) as H.
    rewrite calls_afterRefresh in H.
    destruct (V1.continueStory _ _ _ _ _ _) as [[seg|] w']; cbn [snd ret] in *;
      destruct (V1.shouldRefresh (store w)); lia.
  - intros w seg w'. rewrite V1_body_shape. intro E.
    apply V1_costs_continueStory in E. rewrite calls_afterRefresh in E.
    destruct (V1.shouldRefresh (store w)); lia.
  - unfold V1.generateInitialStory.
    eapply within_try_catch with (k := 3) (l1 := 1) (h1 := 3) (l2 := 1) (h2 := 1);
      try lia.
    + cbv zeta.
      eapply costs_eq; [|eapply costs_bind; [apply V1_costs_generateText|]].
      2:{ intro g. eapply costs_bind; [apply V1_costs_generateSummary|].
          intro s. eapply costs_bind; [cost_step|].
          intros _. eapply costs_bind; [apply V1_costs_generateText|].
          intro c. eapply costs_bind; [cost_step|]. intro cs. cost_step. }
      lia.
    + cbv zeta.
      eapply within_weaken; [ | | eapply within_bind; [apply V1_within_generateText|] ].
      3:{ intro g. eapply within_bind; [apply V1_within_generateSummary|].
          intro s. eapply within_bind; [cost_step|].
          intros _. eapply within_bind; [apply V1_within_generateText|].
          intro c. eapply within_bind; [cost_step|]. intro cs. cost_step. }
      all: lia.
    + cbv zeta.
      eapply within_weaken; [ | | eapply within_bind ].
      3:{ eapply within_try_catch with (k := 1) (l1 := 1) (h1 := 1) (l2 := 0) (h2 := 0)
                                      (lo := 1) (hi := 1); try lia.
          - apply V1_costs_generateSummary.
          - apply V1_within_generateSummary.
          - cost_step. }
      3:{ intro s. eapply within_bind; [cost_step|]. intros _. cost_step. }
      all: lia.
Qed.

Lemma V1_requests_witness :
  exists seg w',
    V1.nextSegmentBody steadyHost V1.fallbackInitialSegment goOn initialWorld
    = (Ret seg, w') /\
    calls w' = calls initialWorld + 3.
Proof.
  destruct (V1.nextSegmentBody steadyHost V1.fallbackInitialSegment goOn initialWorld)
    as [[seg|] w'] eqn:E; [|exfalso; vm_compute in E; discriminate].
  exists seg, w'. split; [reflexivity|].
  exact (proj1 (proj2 (V1_requests_per_call steadyHost V1.fallbackInitialSegment goOn))
           initialWorld seg w' E).
Defined.

Lemma V2_within_generateText h p : within 1 1 (V2.generateText h p).
Proof.
  intro w. rewrite V2_generateText_eq. destruct (complete h (calls w) p); simpl; lia.
Qed.

Lemma V2_costs_generateText h p : costs 1 (V2.generateText h p).
Proof.
  intros w a w' E. pose proof (V2_within_generateText h p w) as H.
  rewrite E in H. simpl in H. lia.
Qed.

Lemma V2_within_generateChoices h ctx : within 1 1 (V2.generateChoices h ctx).
Proof.
  unfold V2.generateChoices.
  assert (B : within 1 1
    (let trimmedContext := slice_last 200 ctx in
     choicesText <- V2.generateText h (V2.choicesPrompt trimmedContext) ;;
     let lines := filter V2.goodLine (map trim (split_on V2.is_separator choicesText)) in
     match lines with
     | l0 :: l1 :: _ =>
         r <- mathRandom h ;;
         let secondChoiceTransition := if Qle_bool r 0.5 then slide else zoom in
         ret [ {| text := JStr l0; consequence := JStr (V2.consequenceOf h l0);
                  environmentImpact := impact 0.8 0.1 (Some fade) 1.2 2 |};
               {| text := JStr l1; consequence := JStr (V2.consequenceOf h l1);
                  environmentImpact :=
                    impact 1.2 0.01 (Some secondChoiceTransition) 1.3 2.5 |} ]
     | _ => ret V2.defaultChoices
     end)).
  { cbv zeta.
    eapply within_weaken; [ | | eapply within_bind; [apply V2_within_generateText|] ].
    3:{ intro t. destruct (filter _ _) as [|l0 [|l1 ?]]; cost_step. }
    all: lia. }
  intro w. unfold try_catch. specialize (B w).
  match goal with
  | |- context [match ?X with _ => _ end] => destruct X as [[a|] w1]
  end; cbn [snd ret] in *; lia.
Qed.

Lemma V2_costs_generateChoices h ctx : costs 1 (V2.generateChoices h ctx).
Proof.
  intros w a w' E. pose proof (V2_within_generateChoices h ctx w) as H.
  rewrite E in H. simpl in H. lia.
Qed.

Lemma V2_within_continueStory h cur ch summ prompt :
  within 1 2 (V2.continueStory h cur ch summ prompt).
Proof.
  unfold V2.continueStory.
  eapply within_weaken; [ | | eapply within_bind; [apply V2_within_generateText|] ].
  3:{ intro g. cbv zeta. eapply within_bind; [cost_step|].
      intros _. eapply within_bind; [apply V2_within_generateChoices|].
      intro cs. cost_step. }
  all: lia.
Qed.

Lemma V2_costs_continueStory h cur ch summ prompt :
  costs 2 (V2.continueStory h cur ch summ prompt).
Proof.
  unfold V2.continueStory.
  eapply costs_eq; [|eapply costs_bind; [apply V2_costs_generateText|]].
  2:{ intro g. cbv zeta. eapply costs_bind; [cost_step|].
      intros _. eapply costs_bind; [apply V2_costs_generateChoices|].
      intro cs. cost_step. }
  lia.
Qed.

Lemma V2_continueStory_outcome h cur ch summ prompt w :
  (exists seg, fst (V2.continueStory h cur ch summ prompt w) = Ret seg) <->
  (exists raw, complete h (calls w) prompt = Some raw).
Proof.
  unfold V2.continueStory, bind at 1. rewrite V2_generateText_eq.
  destruct (complete h (calls w) prompt) as [raw|].
  - split; [intros _; now exists raw|]. intros _.
    generalize (V2.joinText (consequence ch) (V2.cleanText raw prompt)). intro t.
    unfold bind at 1. unfold updateStorySummary at 1. unfold bind at 1.
    match goal with
    | |- context [V2.generateChoices h ?c ?w0] =>
        destruct (V2_total_generateChoices h c w0) as (cs & w2 & E)
    end.
    rewrite E. eexists. reflexivity.
  - split; intros [x H]; discriminate.
Qed.

(** X14.  What a call costs in the second revision, counted in calls
    of [generateText]: [generateNextStorySegment] and [generateInitialStory]
    make one or two, and two when the [try] block returns.  The [try] block
    of [generateNextStorySegment] throws exactly when the continuation
    request fails: nothing after it can fail. *)
Theorem V2_requests_per_call (h : Host) (cur : StorySegment) (ch : Choice) :
  within 1 2 (V2.generateNextStorySegment h cur ch) /\
  costs 2 (V2.nextSegmentBody h cur ch) /\
  within 1 2 (V2.generateInitialStory h) /\
  (forall w,
      (exists w', V2.nextSegmentBody h cur ch w = (Throw, w')) <->
      complete h (calls w) (V2_prompt cur ch w) = None).
Proof.
  split; [|split; [|split]].
  - intro w. unfold V2.generateNextStorySegment, try_catch. rewrite V2_body_shape.
    pose proof (V2_within_continueStory h cur ch (storySummary (store w))
                  (V2_prompt cur ch w) (V2_afterRefresh w)) as H.
    rewrite V2_calls_afterRefresh in H.
    destruct (V2.continueStory _ _ _ _ _ _) as [[seg|] w']; cbn [snd ret] in *; lia.
  - intros w seg w'. rewrite V2_body_shape. intro E.
    apply V2_costs_continueStory in E. rewrite V2_calls_afterRefresh in E. exact E.
  - unfold V2.generateInitialStory.
    eapply within_try_catch with (k := 2) (l1 := 1) (h1 := 2) (l2 := 0) (h2 := 0);
      try lia.
    + eapply costs_eq; [|eapply costs_bind; [apply V2_costs_generateText|]].
      2:{ intro g. eapply costs_bind; [cost_step|].
          intros _. eapply costs_bind; [apply V2_costs_generateChoices|].
          intro cs. cost_step. }
      lia.
    + eapply within_weaken; [ | | eapply within_bind; [apply V2_within_generateText|] ].
      3:{ intro g. eapply within_bind; [cost_step|].
          intros _. eapply within_bind; [apply V2_within_generateChoices|].
          intro cs. cost_step. }
      all: lia.
    + cost_step.
  - intro w. rewrite V2_body_shape.
    pose proof (V2_continueStory_outcome h cur ch (storySummary (store w))
                  (V2_prompt cur ch w) (V2_afterRefresh w)) as H.
    rewrite V2_calls_afterRefresh in H.
    destruct (V2.continueStory _ _ _ _ _ _) as [[seg|] w'] eqn:E; cbn [fst] in H.
    + split; [intros [x Hx]; discriminate|]. intro Hn.
      destruct (proj1 H) as [raw Hr]; [now eexists|]. congruence.
    + split; [|intros _; now eexists]. intros _.
      destruct (complete h (calls w) (V2_prompt cur ch w)) as [raw|]; [|reflexivity].
      destruct (proj2 H) as [seg Hs]; [now eexists|]. discriminate.
Qed.

(** ** What a run returns *)

Lemma yields_ret {A : Type} (P : A -> Prop) (a : A) : P a -> yields P (ret a).
Proof. intros H w x w' E. now injection E as <- _. Qed.

Lemma yields_throw {A : Type} (P : A -> Prop) : yields P throw.
Proof. intros w x w' E. discriminate. Qed.

Lemma yields_bind {A B : Type} (Q : A -> Prop) (P : B -> Prop) (m : M A) (f : A -> M B) :
  yields Q m -> (forall a, Q a -> yields P (f a)) -> yields P (bind m f).
Proof.
  intros Hm Hf w b w'. unfold bind.
  destruct (m w) as [[a|] w1] eqn:E; [|discriminate].
  apply Hf. now apply Hm in E.
Qed.

Lemma yields_try_catch {A : Type} (P : A -> Prop) (m hd : M A) :
  yields P m -> yields P hd -> yields P (try_catch m hd).
Proof.
  intros Hm Hh w a w'. unfold try_catch.
  destruct (m w) as [[x|] w1] eqn:E.
  - intro H. injection H as <- _. now apply Hm in E.
  - apply Hh.
Qed.

Lemma yields_any {A : Type} (m : M A) : yields (fun _ => True) m.
Proof. now intros w a w' _. Qed.

Lemma always_intro {A : Type} (P : A -> Prop) (m : M A) :
  total m -> yields P m -> always P m.
Proof.
  intros Ht Hy w. destruct (Ht w) as (a & w' & E).
  exists a, w'. split; [exact E|]. now apply Hy in E.
Qed.

Lemma V2_total_generateNextStorySegment h cur ch :
  total (V2.generateNextStorySegment h cur ch).
Proof. apply total_try_catch, total_ret. Qed.

Lemma V2_total_generateInitialStory h : total (V2.generateInitialStory h).
Proof. apply total_try_catch, total_ret. Qed.

(** ** Environments and locations *)

(** X10.  In every segment that the generators return, in both
    revisions and on the fallback paths too, the location of the metadata is
    the base environment of the segment. *)
Theorem location_names_the_environment (h : Host) (cur : StorySegment) (ch : Choice) :
  always located (V1.generateInitialStory h) /\
  always located (V1.generateNextStorySegment h cur ch) /\
  always located (V2.generateInitialStory h) /\
  always located (V2.generateNextStorySegment h cur ch).
Proof.
  split; [|split; [|split]]; apply always_intro;
    try apply V1_total_generateInitialStory;
    try apply V1_total_generateNextStorySegment;
    try apply V2_total_generateInitialStory;
    try apply V2_total_generateNextStorySegment.
  - unfold V1.generateInitialStory. apply yields_try_catch; cbv zeta.
    + repeat (eapply yields_bind; [apply yields_any|]; intros ? _).
      apply yields_ret. reflexivity.
    + repeat (eapply yields_bind; [apply yields_any|]; intros ? _).
      apply yields_ret. reflexivity.
  - unfold V1.generateNextStorySegment. apply yields_try_catch.
    + unfold V1.nextSegmentBody, V1.continueStory. cbv zeta.
      repeat (eapply yields_bind; [apply yields_any|]; intros ? _).
      apply yields_ret. reflexivity.
    + apply yields_ret. reflexivity.
  - unfold V2.generateInitialStory. apply yields_try_catch.
    + repeat (eapply yields_bind; [apply yields_any|]; intros ? _).
      apply yields_ret. reflexivity.
    + apply yields_ret. reflexivity.
  - unfold V2.generateNextStorySegment. apply yields_try_catch.
    + unfold V2.nextSegmentBody, V2.continueStory. cbv zeta.
      repeat (eapply yields_bind; [apply yields_any|]; intros ? _).
      apply yields_ret. reflexivity.
    + apply yields_ret. reflexivity.
Qed.

Lemma nextEnvironmentOf_cases h cur g :
  V1.nextEnvironmentOf h cur g = js "cave" \/
  V1.nextEnvironmentOf h cur g = js "ruins" \/
  V1.nextEnvironmentOf h cur g = cur.
Proof.
  unfold V1.nextEnvironmentOf.
  destruct (_ || _ || _); [now left|].
  destruct (_ || _ || _); [right; now left|]. right. now right.
Qed.

Lemma V1_next_environment h cur ch :
  yields (fun seg =>
            baseEnvironment (environment seg) = js "cave" \/
            baseEnvironment (environment seg) = js "ruins" \/
            baseEnvironment (environment seg) = baseEnvironment (environment cur))
         (V1.generateNextStorySegment h cur ch).
Proof.
  unfold V1.generateNextStorySegment. apply yields_try_catch.
  - unfold V1.nextSegmentBody, V1.continueStory. cbv zeta.
    repeat (eapply yields_bind; [apply yields_any|]; intros ? _).
    apply yields_ret. apply nextEnvironmentOf_cases.
  - apply yields_ret. right. right. reflexivity.
Qed.

Lemma V1_play_environment h chosen : forall seg w,
  baseEnvironment (environment (fst (V1_play h chosen seg w))) = js "cave" \/
  baseEnvironment (environment (fst (V1_play h chosen seg w))) = js "ruins" \/
  baseEnvironment (environment (fst (V1_play h chosen seg w)))
  = baseEnvironment (environment seg).
Proof.
  induction chosen as [|ch rest IH]; intros seg w; simpl.
  - right. now right.
  - destruct (V1.generateNextStorySegment h seg ch w) as [[seg'|] w'] eqn:E.
    + apply V1_next_environment in E.
      destruct (IH seg' w') as [H|[H|H]]; [now left | right; now left |].
      rewrite H. exact E.
    + right. now right.
Qed.

(** ** The segment count over a session *)

Lemma V1_mute_turn h cur ch w :
  countOf (worldAfter (mute h) cur ch w) = countOf w + 1 /\
  storySummary (store (worldAfter (mute h) cur ch w)) = storySummary (store w).
Proof.
  unfold worldAfter, countOf. rewrite V1_generateNext_mute. cbn [snd asked store].
  unfold afterRefresh, refreshAnswer. cbn [mute complete].
  destruct (V1.shouldRefresh (store w)); split; reflexivity.
Qed.

(** X8.  With a model that always fails, the first revision returns
    the fallback segment at every turn, leaves the summary as it is and adds
    one to the segment count each time: the count is never reset, and each
    turn that starts at or above the threshold tries the refresh again, so it
    makes two calls of [generateText] instead of one. *)
Theorem a_failing_model_never_resets_the_count (h : Host)
  (inputs : list (StorySegment * Choice)) (w : World) :
  countOf (V1_turns (mute h) inputs w) = countOf w + length inputs /\
  storySummary (store (V1_turns (mute h) inputs w)) = storySummary (store w) /\
  (forall cur ch w0,
      fst (V1.generateNextStorySegment (mute h) cur ch w0)
      = Ret (V1.fallbackSegment cur ch) /\
      calls (worldAfter (mute h) cur ch w0)
      = calls w0 + (if V1.shouldRefresh (store w0) then 2 else 1)).
Proof.
  split; [|split].
  - revert w. induction inputs as [|[cur ch] rest IH]; intro w; simpl; [lia|].
    rewrite IH. destruct (V1_mute_turn h cur ch w) as [-> _]. lia.
  - revert w. induction inputs as [|[cur ch] rest IH]; intro w; simpl; [reflexivity|].
    rewrite IH. now destruct (V1_mute_turn h cur ch w) as [_ ->].
  - intros cur ch w0. unfold worldAfter. rewrite V1_generateNext_mute.
    split; [reflexivity|]. cbn [snd asked calls].
    rewrite calls_afterRefresh. destruct (V1.shouldRefresh (store w0)); lia.
Qed.

Lemma V2_keeps_count_continueStory h cur ch summ prompt :
  keeps same_count (V2.continueStory h cur ch summ prompt).
Proof.
  unfold V2.continueStory.
  repeat first
    [ apply keeps_weaken with (R := same_store);
      [ exact same_store_count
      | first [ apply V2_keeps_store_generateText
              | apply V2_keeps_store_generateChoices ] ]
    | keeps_step ].
Qed.

Lemma V2_turn_count h cur ch w :
  countOf (V2_worldAfter h cur ch w)
  = if Nat.leb 3 (countOf w) then 0 else countOf w + 1.
Proof.
  unfold V2_worldAfter, V2.generateNextStorySegment, countOf.
  rewrite snd_try_catch_ret, V2_body_shape.
  rewrite (V2_keeps_count_continueStory h cur ch _ _ (V2_afterRefresh w)).
  unfold V2_afterRefresh, V2.shouldRefresh, V2.REFRESH_PROMPT_AFTER_SEGMENTS.
  now destruct (Nat.leb 3 _).
Qed.

(** X15.  In the second revision the segment count after a turn is a
    function of the count before it alone, whatever the model does: 0 when
    the turn started at or above the threshold of 3, one more otherwise.  So
    a count that is at most 3 stays at most 3 over every sequence of
    turns. *)
Theorem V2_count_stays_within_the_threshold (h : Host)
  (inputs : list (StorySegment * Choice)) (w : World) :
  countOf w <= 3 ->
  countOf (V2_turns h inputs w) <= 3 /\
  (forall cur ch w0,
      countOf (V2_worldAfter h cur ch w0)
      = if Nat.leb 3 (countOf w0) then 0 else countOf w0 + 1).
Proof.
  intro Hw. split; [|intros; apply V2_turn_count].
  revert w Hw. induction inputs as [|[cur ch] rest IH]; intros w Hw; simpl; [exact Hw|].
  apply IH. rewrite V2_turn_count.
  destruct (Nat.leb 3 (countOf w)) eqn:E; [lia|]. apply Nat.leb_gt in E. lia.
Qed.

Lemma V2_requests_witness :
  exists seg w',
    V2.nextSegmentBody caveHost V2.fallbackInitialSegment goOn initialWorld
    = (Ret seg, w') /\
    calls w' = calls initialWorld + 2.
Proof.
  destruct (V2.nextSegmentBody caveHost V2.fallbackInitialSegment goOn initialWorld)
    as [[seg|] w'] eqn:E; [|exfalso; vm_compute in E; discriminate].
  exists seg, w'. split; [reflexivity|].
  exact (proj1 (proj2 (V2_requests_per_call caveHost V2.fallbackInitialSegment goOn))
           initialWorld seg w' E).
Defined.

Lemma V2_count_witness :
  countOf initialWorld <= 3 /\
  countOf (V2_turns silentHost
             [(V2.fallbackInitialSegment, goOn); (V2.fallbackInitialSegment, goOn);
              (V2.fallbackInitialSegment, goOn); (V2.fallbackInitialSegment, goOn);
              (V2.fallbackInitialSegment, goOn)]
             initialWorld) <= 3.
Proof.
  assert (H : countOf initialWorld <= 3) by (vm_compute; lia).
  split; [exact H|].
  exact (proj1 (V2_count_stays_within_the_threshold silentHost _ initialWorld H)).
Defined.

(** ** Tests with small patterns *)

Lemma exec_from_class_end (p : cu -> bool) : forall aft bef,
  (exists m, exec_from (seqs [Chr p; Eol]) bef aft = Some m) <->
  (exists pre c, aft = pre ++ [c] /\ p c = true).
Proof.
  induction aft as [|c t IH]; intro bef.
  - simpl. split; [intros [m H]; discriminate|].
    intros (pre & c & H & _). destruct pre; discriminate.
  - cbn [exec_from]. unfold seqs. cbn [fold_right run start after flat_map].
    destruct (p c) eqn:Pc.
    + destruct t as [|d t'].
      * simpl. split; [intros _; now exists [], c|]. intros _. now eexists.
      * cbn [flat_map run after app]. rewrite IH. split.
        -- intros (pre & x & -> & Hx). now exists (c :: pre), x.
        -- intros (pre & x & H & Hx). destruct pre as [|y pre]; [discriminate|].
           injection H as _ ->. now exists pre, x.
    + cbn [flat_map]. rewrite IH. split.
      * intros (pre & x & -> & Hx). now exists (c :: pre), x.
      * intros (pre & x & H & Hx). destruct pre as [|y pre].
        -- injection H as -> <-. congruence.
        -- injection H as _ ->. now exists pre, x.
Qed.

Lemma test_class_end (p : cu -> bool) (s : jstring) :
  test (seqs [Chr p; Eol]) s = true <-> exists pre c, s = pre ++ [c] /\ p c = true.
Proof.
  unfold test, exec. rewrite <- (exec_from_class_end p s []).
  destruct (exec_from _ _ _) as [m|]; split; try discriminate; try reflexivity.
  - intros _. now exists m.
  - intros [m H]. discriminate.
Qed.

Lemma exec_from_class (p : cu -> bool) : forall aft bef,
  (exists m, exec_from (Chr p) bef aft = Some m) <-> existsb p aft = true.
Proof.
  induction aft as [|c t IH]; intro bef.
  - simpl. split; [intros [m H]|intro H]; discriminate.
  - cbn [exec_from run start after existsb].
    destruct (p c); [split; [reflexivity|intros _; now eexists]|].
    rewrite IH. reflexivity.
Qed.

Lemma test_class (p : cu -> bool) (s : jstring) : test (Chr p) s = existsb p s.
Proof.
  unfold test, exec. pose proof (exec_from_class p s []) as H.
  destruct (exec_from _ _ _) as [m|]; destruct (existsb p s); try reflexivity.
  - destruct (proj1 H); [now exists m | reflexivity].
  - destruct (proj2 H eq_refl). discriminate.
Qed.

Lemma exec_from_not_at_start (p : cu -> bool) : forall aft bef,
  bef <> [] -> exec_from (Seq Bol (Chr p)) bef aft = None.
Proof.
  induction aft as [|c t IH]; intros bef Hb; cbn [exec_from run start before flat_map].
  - now destruct bef.
  - destruct bef; [now elim Hb|]. cbn [flat_map]. apply IH. discriminate.
Qed.

Lemma test_class_at_start (p : cu -> bool) (s : jstring) :
  test (Seq Bol (Chr p)) s = match s with c :: _ => p c | [] => false end.
Proof.
  unfold test, exec. destruct s as [|c t]; [reflexivity|].
  cbn [exec_from run start before after flat_map app].
  destruct (p c); [reflexivity|]. cbn [app].
  now rewrite exec_from_not_at_start.
Qed.

(** ** The sanitizer and the choices of the second revision *)

Lemma endsWith_snoc (pre : jstring) (c x : cu) : endsWith (pre ++ [c]) [x] = cu_eqb x c.
Proof.
  unfold endsWith. rewrite rev_app_distr. cbn [rev app startsWith].
  now rewrite startsWith_nil, andb_true_r.
Qed.

Lemma endsInTerminalPunctuation_snoc (pre : jstring) (c : cu) :
  endsInTerminalPunctuation (pre ++ [c]) = in_set ".!?" c.
Proof.
  unfold endsInTerminalPunctuation, in_set.
  change (js ".") with [ch "."]. change (js "!") with [ch "!"].
  change (js "?") with [ch "?"]. change (js ".!?") with [ch "."; ch "!"; ch "?"].
  rewrite !endsWith_snoc. cbn [existsb]. unfold cu_eqb.
  rewrite (N.eqb_sym c (ch ".")), (N.eqb_sym c (ch "!")), (N.eqb_sym c (ch "?")).
  now rewrite orb_false_r, orb_assoc.
Qed.

Lemma cleanText_shape (raw prompt : jstring) :
  endsInTerminalPunctuation (V2.cleanText raw prompt) = true /\
  V2.cleanText raw prompt <> [] /\
  (trim raw = [] -> V2.cleanText raw prompt = js ".") /\
  (V2.cleanText raw prompt
   = V2.normalise (V1.limitLength (V2.stripPrompt raw prompt)) \/
   V2.cleanText raw prompt
   = V2.normalise (V1.limitLength (V2.stripPrompt raw prompt)) ++ js ".").
Proof.
  assert (E : V2.cleanText raw prompt
              = if test V2.endsInPunctuationRegex
                     (V2.normalise (V1.limitLength (V2.stripPrompt raw prompt)))
                then V2.normalise (V1.limitLength (V2.stripPrompt raw prompt))
                else V2.normalise (V1.limitLength (V2.stripPrompt raw prompt)) ++ js ".").
  { unfold V2.cleanText.
    generalize (V2.normalise (V1.limitLength (V2.stripPrompt raw prompt))). intro t.
    cbv zeta. destruct (Nat.ltb 20 _); [reflexivity|].
    destruct (test V2.endsInPunctuationRegex t) eqn:T.
    - apply test_class_end in T as (pre & c & -> & _). now destruct pre.
    - now destruct t. }
  assert (P : endsInTerminalPunctuation (V2.cleanText raw prompt) = true).
  { rewrite E.
    generalize (V2.normalise (V1.limitLength (V2.stripPrompt raw prompt))). intro t.
    destruct (test V2.endsInPunctuationRegex t) eqn:T.
    - apply test_class_end in T as (pre & c & -> & Hc).
      now rewrite endsInTerminalPunctuation_snoc.
    - change (js ".") with [ch "."]. now rewrite endsInTerminalPunctuation_snoc. }
  split; [exact P|]. split; [|split].
  - intro H. rewrite H in P. discriminate.
  - intro H. rewrite E. unfold V2.stripPrompt. rewrite H.
    replace (if startsWith [] prompt then trim (slice_from (length prompt) []) else [])
      with (@nil cu).
    + vm_compute. reflexivity.
    + destruct (startsWith [] prompt); [|reflexivity].
      unfold slice_from. now rewrite skipn_nil.
  - rewrite E. destruct (test _ _); [now left | now right].
Qed.

(** X12.  The sanitizer of the second revision always returns a text
    that is not empty and ends with [.], [!] or [?]: it is the normalised
    text, or the normalised text with a period added.  A blank answer comes
    back as a single period; the fallback sentence of the source is never
    needed. *)
Theorem cleanText_ends_a_sentence (raw prompt : jstring) :
  endsInTerminalPunctuation (V2.cleanText raw prompt) = true /\
  V2.cleanText raw prompt <> [] /\
  (trim raw = [] -> V2.cleanText raw prompt = js ".") /\
  (V2.cleanText raw prompt
   = V2.normalise (V1.limitLength (V2.stripPrompt raw prompt)) \/
   V2.cleanText raw prompt
   = V2.normalise (V1.limitLength (V2.stripPrompt raw prompt)) ++ js ".").
Proof. exact (cleanText_shape raw prompt). Qed.

Lemma cleanText_witness :
  trim (js "  ") = [] /\ V2.cleanText (js "  ") (js "Once") = js ".".
Proof.
  split; [reflexivity|].
  apply (proj1 (proj2 (proj2 (cleanText_ends_a_sentence (js "  ") (js "Once"))))).
  reflexivity.
Defined.

Lemma split_acc_clean (p : cu -> bool) : forall s cur,
  Forall (fun c => p c = false) cur ->
  Forall (Forall (fun c => p c = false)) (split_acc p cur s).
Proof.
  induction s as [|c t IH]; intros cur Hc; simpl.
  - constructor; [|constructor]. now apply Forall_rev.
  - destruct (p c) eqn:E.
    + constructor; [now apply Forall_rev|]. apply IH. constructor.
    + apply IH. now constructor.
Qed.

Lemma Forall_trim (P : cu -> Prop) (s : jstring) : Forall P s -> Forall P (trim s).
Proof.
  intro H. destruct (trim_infix s) as (a & b & E). rewrite E in H.
  apply Forall_app in H as [_ H]. now apply Forall_app in H as [H _].
Qed.

Lemma goodLine_tidy (text : jstring) (l : jstring) :
  In l (filter V2.goodLine (map trim (split_on V2.is_separator text))) -> tidyLine l.
Proof.
  intro H. apply filter_In in H as [Hin Hg].
  apply in_map_iff in Hin as (x & <- & Hx).
  pose proof (split_acc_clean V2.is_separator text [] (Forall_nil _)) as Hs.
  rewrite Forall_forall in Hs. specialize (Hs x Hx). apply Forall_trim in Hs.
  unfold V2.goodLine in Hg. cbv zeta in Hg.
  apply andb_true_iff in Hg as [Hg H3]. apply andb_true_iff in Hg as [H1 H2].
  apply andb_true_iff in H1 as [La Lb].
  apply Nat.ltb_lt in La, Lb.
  apply negb_true_iff in H2, H3.
  unfold V2.unwantedRegex in H2. rewrite test_class in H2.
  unfold V2.leadingRegex in H3. rewrite test_class_at_start in H3.
  split; [lia|]. split; [apply trim_idem|]. split.
  - rewrite Forall_forall in *. intros c Hc. split; [now apply Hs|].
    assert (N : (in_set ":|" c || cu_eqb c c_quote) = false).
    { destruct (in_set ":|" c || cu_eqb c c_quote) eqn:E; [|reflexivity].
      assert (existsb (fun c => in_set ":|" c || cu_eqb c c_quote) (trim x) = true)
        by (apply existsb_exists; now exists c).
      congruence. }
    apply orb_false_iff in N as [N1 N2]. split; [exact N1|].
    intros ->. unfold cu_eqb in N2. now rewrite N.eqb_refl in N2.
  - destruct (trim x) as [|c r]; [exact I|].
    apply orb_false_iff in H3 as [H3 N3]. apply orb_false_iff in H3 as [N1 N2].
    repeat split; try assumption.
    intros ->. unfold cu_eqb in N3. now rewrite N.eqb_refl in N3.
Qed.

Lemma generateChoices_shape (h : Host) (context : jstring) :
  always (fun cs =>
            length cs = 2 /\
            map lightingIntensity cs = [Some 0.8%Q; Some 1.2%Q] /\
            (cs = V2.defaultChoices \/ cs = V2.failedChoices \/ generatedPair h cs))
         (V2.generateChoices h context).
Proof.
  apply always_intro; [apply V2_total_generateChoices|].
  unfold V2.generateChoices. apply yields_try_catch.
  - cbv zeta. eapply yields_bind; [apply yields_any|]. intros t _.
    destruct (filter _ _) as [|l0 [|l1 rest]] eqn:F.
    + apply yields_ret. repeat split. now left.
    + apply yields_ret. repeat split. now left.
    + eapply yields_bind; [apply yields_any|]. intros r _.
      apply yields_ret. repeat split. right. right.
      exists l0, l1. split; [|split; [|split; reflexivity]].
      * apply (goodLine_tidy t). rewrite F. now left.
      * apply (goodLine_tidy t). rewrite F. right. now left.
  - apply yields_ret. repeat split. right. now left.
Qed.

(** X13.  [generateChoices] always returns exactly two choices, the
    first with the lighting intensity 0.8 and the second with 1.2.  They are
    the default pair, the pair for a failed request, or a pair made of two
    lines of the answer, and then each text is a trimmed line of 4 to 49
    characters that holds no period, bar, semicolon, line break, colon or
    double quote and does not begin with a digit, a dash, a star or a
    bullet. *)
Theorem generateChoices_returns_two (h : Host) (context : jstring) :
  always (fun cs =>
            length cs = 2 /\
            map lightingIntensity cs = [Some 0.8%Q; Some 1.2%Q] /\
            (cs = V2.defaultChoices \/ cs = V2.failedChoices \/ generatedPair h cs))
         (V2.generateChoices h context).
Proof. exact (generateChoices_shape h context). Qed.

(** ** The opening segment *)

Lemma parse_at_least_two h s : yields (fun cs => 2 <= length cs) (V1.parseChoicesFromText h s).
Proof.
  intros w cs w'. unfold V1.parseChoicesFromText, try_catch, bind.
  destruct (approach1_total h (trim s) w) as (r1 & w1 & E1). rewrite E1.
  destruct r1 as [cs1|].
  - intro H. injection H as <- _. now apply approach1_spec in E1.
  - destruct (V1.approach2 (trim s)) as [cs2|] eqn:E2.
    + intro H. injection H as <- _.
      destruct (approach2_scraped _ _ E2) as (t1 & q1 & t2 & q2 & ->). simpl. lia.
    + destruct (V1.approach3 (trim s)) as [cs3|] eqn:E3.
      * intro H. injection H as <- _.
        destruct (approach3_scraped _ _ E3) as (t1 & q1 & t2 & q2 & ->). simpl. lia.
      * intro H. injection H as <- _. simpl. lia.
Qed.

Lemma cleanText_nonempty raw prompt : V2.cleanText raw prompt <> [].
Proof. apply cleanText_shape. Qed.

Lemma V2_generateChoices_two h ctx :
  yields (fun cs => length cs = 2) (V2.generateChoices h ctx).
Proof.
  intros w cs w' E. destruct (generateChoices_shape h ctx w) as (a & w1 & E1 & H & _).
  rewrite E in E1. now injection E1 as -> _.
Qed.

Lemma V2_generateText_nonempty h p : yields (fun t => t <> []) (V2.generateText h p).
Proof.
  intros w t w'. rewrite V2_generateText_eq.
  destruct (complete h (calls w) p); [|discriminate].
  intro H. injection H as <- _. apply cleanText_nonempty.
Qed.

Lemma V1_keeps_count_generateInitialStory h : keeps same_count (V1.generateInitialStory h).
Proof.
  unfold V1.generateInitialStory. cbv zeta.
  repeat first
    [ apply keeps_weaken with (R := same_store);
      [ exact same_store_count
      | first [ apply V1_keeps_store_generateText
              | apply V1_keeps_store_generateSummary
              | apply keeps_store_parseChoicesFromText ] ]
    | keeps_step ].
Qed.

Lemma V2_keeps_count_generateInitialStory h : keeps same_count (V2.generateInitialStory h).
Proof.
  unfold V2.generateInitialStory.
  repeat first
    [ apply keeps_weaken with (R := same_store);
      [ exact same_store_count
      | first [ apply V2_keeps_store_generateText
              | apply V2_keeps_store_generateChoices ] ]
    | keeps_step ].
Qed.

(** X9.  [generateInitialStory] always returns, in both revisions, a
    segment set in the forest, with the forest preset's lighting, atmosphere
    and metadata, no props and a text that is not empty; its choices are at
    least two in the first revision and exactly two in the second.  It leaves
    the segment count as it is. *)
Theorem the_story_opens_in_the_forest (h : Host) :
  always (fun seg =>
            environment seg = V1.forestEnvironment /\
            metadata seg = V1.p_metadata V1.forest /\
            seg_text seg <> [] /\ 2 <= length (choices seg))
         (V1.generateInitialStory h) /\
  always (fun seg =>
            environment seg = V2.forestEnvironment /\
            metadata seg = V1.p_metadata (V2.environments V2.k_forest) /\
            seg_text seg <> [] /\ length (choices seg) = 2)
         (V2.generateInitialStory h) /\
  keeps same_count (V1.generateInitialStory h) /\
  keeps same_count (V2.generateInitialStory h).
Proof.
  split; [|split; [|split]].
  - apply always_intro; [apply V1_total_generateInitialStory|].
    unfold V1.generateInitialStory. apply yields_try_catch; cbv zeta.
    + eapply yields_bind; [apply yields_any|]. intros g _.
      eapply yields_bind; [apply yields_any|]. intros s _.
      eapply yields_bind; [apply yields_any|]. intros _ _.
      eapply yields_bind; [apply yields_any|]. intros ct _.
      eapply yields_bind; [apply parse_at_least_two|]. intros cs Hcs.
      apply yields_ret. cbn [environment metadata seg_text choices].
      split; [reflexivity|]. split; [reflexivity|]. split; [|exact Hcs].
      apply or_else_nonempty. discriminate.
    + eapply yields_bind; [apply yields_any|]. intros s _.
      eapply yields_bind; [apply yields_any|]. intros _ _.
      apply yields_ret.
      split; [reflexivity|]. split; [reflexivity|]. split; [discriminate|].
      simpl. lia.
  - apply always_intro; [apply V2_total_generateInitialStory|].
    unfold V2.generateInitialStory. apply yields_try_catch.
    + eapply yields_bind; [apply V2_generateText_nonempty|]. intros t Ht.
      eapply yields_bind; [apply yields_any|]. intros _ _.
      eapply yields_bind; [apply V2_generateChoices_two|]. intros cs Hcs.
      apply yields_ret. cbn [environment metadata seg_text choices].
      split; [reflexivity|]. split; [reflexivity|]. split; assumption.
    + apply yields_ret.
      split; [reflexivity|]. split; [reflexivity|]. split; [discriminate|reflexivity].
  - apply V1_keeps_count_generateInitialStory.
  - apply V2_keeps_count_generateInitialStory.
Qed.

Lemma index_floor_animationTypes (r : Q) :
  (0 <= r)%Q -> (r < 1)%Q ->
  exists t, V1.index_floor V1.animationTypes
              (r * inject_Z (Z.of_nat (length V1.animationTypes)))%Q = Some t.
Proof.
  intros H0 H1. unfold V1.index_floor. cbv zeta.
  change (inject_Z (Z.of_nat (length V1.animationTypes))) with (3 # 1)%Q.
  set (x := (r * (3 # 1))%Q).
  assert (Hx0 : (0 <= x)%Q) by (unfold x; lra).
  assert (Hx3 : (x < 3 # 1)%Q) by (unfold x; lra).
  assert (F0 : (0 <= Qfloor x)%Z).
  { change 0%Z with (Qfloor 0). now apply Qfloor_resp_le. }
  assert (F3 : (Qfloor x < 3)%Z).
  { pose proof (Qfloor_le x) as L.
    assert (Q : (inject_Z (Qfloor x) < inject_Z 3)%Q).
    { eapply Qle_lt_trans; [exact L|]. exact Hx3. }
    now rewrite <- Zlt_Qlt in Q. }
  destruct (Z.ltb_spec (Qfloor x) 0); [lia|].
  assert (C : Z.to_nat (Qfloor x) = 0 \/ Z.to_nat (Qfloor x) = 1 \/ Z.to_nat (Qfloor x) = 2)
    by lia.
  destruct C as [->|[->| ->]]; simpl; now eexists.
Qed.

Lemma choiceOfParsed_tempered h c i :
  fairHost h -> yields tempered (V1.choiceOfParsed h c i).
Proof.
  intros Hf w x w'.
  unfold V1.choiceOfParsed, V1.prop, bind, mathRandom, ret.
  destruct (get_prop c (js "text")) as [t|]; [|discriminate].
  destruct (get_prop c (js "consequence")) as [q|]; [|discriminate].
  cbn [draws]. intro H. injection H as <- _.
  destruct (index_floor_animationTypes (random h (draws w + 1)))
    as [tt Ht]; try apply Hf.
  unfold tempered. cbn [environmentImpact animationEffect atmosphereChange].
  eexists _, tt, _, _, _, _.
  split; [reflexivity|]. split; [exact Ht|].
  pose proof (Hf (draws w)) as [A1 A2].
  pose proof (Hf (draws w + 1 + 1)) as [B1 B2].
  pose proof (Hf (draws w + 1 + 1 + 1)) as [C1 C2].
  cbn [anim_intensity duration d_fogDensity].
  split; [reflexivity|]. split; [lra|]. split; [lra|].
  split; [reflexivity|]. split; [lra|]. split; [lra|].
  split; [reflexivity|]. split; [reflexivity|]. split; lra.
Qed.

Lemma mapChoices_tempered h l :
  fairHost h -> forall i, yields (Forall tempered) (V1.mapChoices h l i).
Proof.
  intro Hf. induction l as [|c l IH]; intro i; simpl.
  - apply yields_ret. constructor.
  - eapply yields_bind; [now apply choiceOfParsed_tempered|]. intros x Hx.
    eapply yields_bind; [apply IH|]. intros xs Hxs.
    apply yields_ret. now constructor.
Qed.

Lemma tempered_impact li fd tt ai du (t c : json) :
  (1 <= ai)%Q -> (ai <= 1.5)%Q -> (2 <= du)%Q -> (du <= 3)%Q ->
  (0 <= fd)%Q -> (fd <= 0.1)%Q ->
  tempered {| text := t; consequence := c;
              environmentImpact := impact li fd (Some tt) ai du |}.
Proof.
  intros. unfold tempered. eexists _, tt, ai, du, _, fd.
  repeat (split; [reflexivity || assumption|]). assumption.
Qed.

Ltac tempered_literals :=
  repeat constructor; apply tempered_impact; unfold Qle; simpl; lia.

Lemma parse_tempered h s :
  fairHost h -> yields (Forall tempered) (V1.parseChoicesFromText h s).
Proof.
  intros Hf w cs w'. unfold V1.parseChoicesFromText, try_catch, bind.
  destruct (V1.approach1 h (trim s) w) as [[[cs1|]|] w1] eqn:E1.
  - intro H. injection H as <- _. revert E1.
    unfold V1.approach1, try_catch.
    destruct (exec V1.jsonArrayRegex (trim s)) as [m|]; [|discriminate].
    destruct (m_0 m); [discriminate|].
    destruct (JSON_parse _) as [[| | | |parsed|]|]; try discriminate.
    destruct (Nat.leb 2 (length parsed)); [|discriminate].
    unfold bind.
    destruct (V1.mapChoices h parsed 0 w) as [[xs|] w2] eqn:Exs; [|discriminate].
    unfold ret. intro H. injection H as <- _.
    now apply (mapChoices_tempered h parsed Hf) in Exs.
  - destruct (V1.approach2 (trim s)) as [cs2|] eqn:E2.
    + intro H. injection H as <- _.
      destruct (approach2_scraped _ _ E2) as (t1 & q1 & t2 & q2 & ->).
      unfold V1.pairOf, V1.firstImpact, V1.secondImpact. tempered_literals.
    + destruct (V1.approach3 (trim s)) as [cs3|] eqn:E3.
      * intro H. injection H as <- _.
        destruct (approach3_scraped _ _ E3) as (t1 & q1 & t2 & q2 & ->).
        unfold V1.pairOf, V1.firstImpact, V1.secondImpact. tempered_literals.
      * intro H. injection H as <- _.
        unfold V1.defaultChoices, choice_lit. tempered_literals.
  - destruct (approach1_total h (trim s) w) as (r & w2 & E). congruence.
Qed.

(** X5.  When [Math.random] gives numbers from 0 up to 1, every choice
    that [parseChoicesFromText] returns names one of the three transitions
    (the index into the array of transitions is never out of range) and has
    a fog density within 0 and 0.1, an animation intensity within 1 and 1.5
    and a duration within 2 and 3, whatever the text. *)
Theorem parsed_choices_are_tempered (h : Host) (s : jstring) :
  fairHost h -> always (Forall tempered) (V1.parseChoicesFromText h s).
Proof.
  intro Hf. apply always_intro; [apply total_parseChoicesFromText|].
  now apply parse_tempered.
Qed.

Lemma silentHost_fair : fairHost silentHost.
Proof. intro n. split; simpl; [apply Qle_refl | reflexivity]. Qed.

Lemma parsed_choices_witness :
  fairHost silentHost /\
  always (Forall tempered) (V1.parseChoicesFromText silentHost threeObjects).
Proof.
  split; [exact silentHost_fair|].
  exact (parsed_choices_are_tempered silentHost threeObjects silentHost_fair).
Defined.

(** ** The store, the hook and the application *)

Lemma lastOf_snoc {A : Type} (l : list A) (x : A) : lastOf (l ++ [x]) = Some x.
Proof. unfold lastOf. now rewrite rev_app_distr. Qed.

Lemma generateNextSegment_none next rejection choice st :
  currentSegment st = None ->
  generateNextSegment next rejection choice st
  = {| currentSegment := None; storyHistory := storyHistory st; isLoading := false;
       error := Some noSegmentMessage; session := session st |}.
Proof.
  intro H. unfold generateNextSegment, setError, setLoading.
  cbn [currentSegment storyHistory isLoading error session messageOf].
  now rewrite H.
Qed.

Lemma generateNextSegment_some next rejection choice st cur seg w :
  currentSegment st = Some cur ->
  next cur choice (session st) = (Ret seg, w) ->
  generateNextSegment next rejection choice st
  = {| currentSegment := Some seg; storyHistory := storyHistory st ++ [seg];
       isLoading := false; error := None; session := w |}.
Proof.
  intros H E. unfold generateNextSegment, setError, setLoading.
  cbn [currentSegment storyHistory isLoading error session messageOf].
  rewrite H, E. reflexivity.
Qed.


Lemma hook_next_total (next : StorySegment -> Choice -> M StorySegment)
  (rejection : thrown) (choice : Choice) (st : StoryState) :
  (forall cur ch, total (next cur ch)) ->
  (currentSegment st = None /\
   generateNextSegment next rejection choice st
   = {| currentSegment := None; storyHistory := storyHistory st; isLoading := false;
        error := Some noSegmentMessage; session := session st |}) \/
  (exists cur seg w,
      currentSegment st = Some cur /\
      next cur choice (session st) = (Ret seg, w) /\
      generateNextSegment next rejection choice st
      = {| currentSegment := Some seg; storyHistory := storyHistory st ++ [seg];
           isLoading := false; error := None; session := w |}).
Proof.
  intro Ht. destruct (currentSegment st) as [cur|] eqn:C.
  - right. destruct (Ht cur choice (session st)) as (seg & w & E).
    exists cur, seg, w. split; [reflexivity|]. split; [exact E|].
    now apply generateNextSegment_some with (cur := cur).
  - left. split; [reflexivity|]. now apply generateNextSegment_none.
Qed.



Lemma currentIsLast_start opening rejection st :
  currentIsLast st -> currentIsLast (generateStoryStart opening rejection st).
Proof.
  unfold currentIsLast, generateStoryStart, setError, setLoading.
  cbn [currentSegment storyHistory isLoading error session].
  intro H. destruct (opening (session st)) as [[seg|] w]; cbn.
  - now rewrite lastOf_snoc.
  - exact H.
Qed.

Lemma currentIsLast_next next rejection choice st :
  currentIsLast st -> currentIsLast (generateNextSegment next rejection choice st).
Proof.
  unfold currentIsLast, generateNextSegment, setError, setLoading.
  cbn [currentSegment storyHistory isLoading error session].
  intro H. destruct (currentSegment st) as [cur|] eqn:C.
  - destruct (next cur choice (session st)) as [[seg|] w]; cbn.
    + now rewrite lastOf_snoc.
    + now rewrite <- H.
  - cbn. exact H.
Qed.

Lemma currentIsLast_act opening next st a :
  currentIsLast st -> currentIsLast (act opening next st a).
Proof.
  intro H. destruct a; cbn [act];
    try exact H; try reflexivity.
  - unfold currentIsLast. cbn. now rewrite lastOf_snoc.
  - now apply currentIsLast_start.
  - now apply currentIsLast_next.
Qed.

Lemma nth_error_snoc_previous {A : Type} (l : list A) (x y : A) :
  lastOf l = Some x -> nth_error (l ++ [y]) (length (l ++ [y]) - 2) = Some x.
Proof.
  unfold lastOf. intro H.
  destruct (rev l) as [|z r] eqn:R; [discriminate|]. injection H as ->.
  assert (L : l = rev r ++ [x]) by (rewrite <- (rev_involutive l), R; reflexivity).
  subst l. rewrite !length_app. simpl.
  replace (length (rev r) + 1 + 1 - 2) with (length (rev r)) by lia.
  rewrite <- app_assoc. rewrite nth_error_app2 by lia.
  now rewrite Nat.sub_diag.
Qed.

(** X19.  Whatever sequence of store actions and hook calls runs from
    the initial store, the current segment is the last entry of the history
    (or both are empty).  Hence, after [generateNextSegment] with a service
    that always returns, the previous segment that the application shows
    transitions from is the segment on which the choice was made. *)
Theorem the_current_segment_ends_the_history (opening : M StorySegment)
  (next : StorySegment -> Choice -> M StorySegment) (actions : list action) :
  currentIsLast (fold_left (act opening next) actions initialState) /\
  (forall st rejection choice cur,
      currentIsLast st -> currentSegment st = Some cur ->
      (forall c ch, total (next c ch)) ->
      getPreviousSegment (generateNextSegment next rejection choice st) = Some cur).
Proof.
  split.
  - assert (G : forall st, currentIsLast st ->
                  currentIsLast (fold_left (act opening next) actions st)).
    { induction actions as [|a rest IH]; intros st H; simpl; [exact H|].
      apply IH. now apply currentIsLast_act. }
    apply G. reflexivity.
  - intros st rejection choice cur Hl Hc Ht.
    destruct (Ht cur choice (session st)) as (seg & w & E).
    rewrite (generateNextSegment_some next rejection choice st cur seg w Hc E).
    unfold getPreviousSegment. cbn [storyHistory].
    unfold currentIsLast in Hl. rewrite Hc in Hl. symmetry in Hl.
    destruct (Nat.ltb_spec (length (storyHistory st ++ [seg])) 2) as [L|L].
    + rewrite length_app in L. simpl in L.
      destruct (storyHistory st); [discriminate|simpl in L; lia].
    + now apply nth_error_snoc_previous.
Qed.

Lemma history_witness :
  currentIsLast openedState /\
  currentSegment openedState = Some V1.fallbackInitialSegment /\
  getPreviousSegment
    (generateNextSegment (V1.generateNextStorySegment silentHost) NotAnError goOn
       openedState)
  = Some V1.fallbackInitialSegment.
Proof.
  assert (H1 : currentIsLast openedState) by (vm_compute; reflexivity).
  assert (H2 : currentSegment openedState = Some V1.fallbackInitialSegment)
    by (vm_compute; reflexivity).
  split; [exact H1|]. split; [exact H2|].
  exact (proj2 (the_current_segment_ends_the_history
                  (V1.generateInitialStory silentHost)
                  (V1.generateNextStorySegment silentHost) [])
           openedState NotAnError goOn V1.fallbackInitialSegment H1 H2
           (V1_total_generateNextStorySegment silentHost)).
Defined.

Lemma find_app_none {A : Type} (f : A -> bool) (l l' : list A) :
  find f l = None -> find f (l ++ l') = find f l'.
Proof.
  induction l as [|x l IH]; simpl; [reflexivity|].
  destruct (f x); [discriminate | exact IH].
Qed.

Lemma find_filter_negb {A : Type} (f : A -> bool) (l : list A) :
  find f (filter (fun x => negb (f x)) l) = None.
Proof.
  induction l as [|x l IH]; simpl; [reflexivity|].
  destruct (f x) eqn:E; simpl; [exact IH|]. now rewrite E.
Qed.

Lemma filter_filter_same {A : Type} (f : A -> bool) (l : list A) :
  filter f (filter f l) = filter f l.
Proof.
  induction l as [|x l IH]; simpl; [reflexivity|].
  destruct (f x) eqn:E; simpl; [now rewrite E, IH | exact IH].
Qed.

Lemma isAnimationProp_animationProp e : isAnimationProp (animationProp e) = true.
Proof. reflexivity. Qed.

(** X20.  The props that [handleChoiceSelected] assigns hold exactly
    one animation prop, the one of the choice just made, after the other
    props in their order; assigning them twice is assigning them once.  What
    the environment view reads back from them is the animation of that
    choice: its transition (zoom when the choice names none), its intensity
    (1 when absent or 0) and its duration (2 when absent or 0). *)
Theorem the_view_reads_the_animation_of_the_last_choice
  (impact : EnvironmentModification) (props : list Prop_) (e : AnimationEffect) :
  animationEffect impact = Some e ->
  animationOfProps (propsAfterChoice impact props) = Some (animationOf e) /\
  filter isAnimationProp (propsAfterChoice impact props) = [animationProp e] /\
  filter (fun p => negb (isAnimationProp p)) (propsAfterChoice impact props)
  = filter (fun p => negb (isAnimationProp p)) props /\
  propsAfterChoice impact (propsAfterChoice impact props) = propsAfterChoice impact props.
Proof.
  intro He. unfold propsAfterChoice. rewrite He.
  split; [|split; [|split]].
  - unfold animationOfProps. rewrite find_app_none by apply find_filter_negb.
    cbn [find]. rewrite isAnimationProp_animationProp.
    unfold animationProp, animationOf. cbn [position].
    destruct (transitionType e) as [[| |]|]; reflexivity.
  - rewrite filter_app. cbn [filter]. rewrite isAnimationProp_animationProp.
    replace (filter isAnimationProp (filter (fun p => negb (isAnimationProp p)) props))
      with (@nil Prop_); [reflexivity|].
    induction props as [|p ps IH]; simpl; [reflexivity|].
    destruct (isAnimationProp p) eqn:E; simpl; [exact IH|]. now rewrite E.
  - rewrite filter_app. cbn [filter]. rewrite isAnimationProp_animationProp.
    cbn [negb]. now rewrite app_nil_r, filter_filter_same.
  - rewrite filter_app. cbn [filter]. rewrite isAnimationProp_animationProp.
    cbn [negb]. now rewrite app_nil_r, filter_filter_same.
Qed.

Lemma animation_witness :
  animationEffect (environmentImpact goOn)
  = Some {| transitionType := Some fade; anim_intensity := Some 1.2%Q;
            duration := Some 2%Q |} /\
  animationOfProps (propsAfterChoice (environmentImpact goOn) [])
  = Some (fade, 1.2%Q, 2%Q).
Proof.
  split; [reflexivity|].
  exact (proj1 (the_view_reads_the_animation_of_the_last_choice
                  (environmentImpact goOn) [] _ eq_refl)).
Defined.

Lemma jeqb_false_neq (a b : jstring) : jeqb a b = false -> a <> b.
Proof. intros H E. apply jeqb_spec in E. congruence. Qed.

(** X22.  [transitionEnvironment] keeps the base environment, changes
    nothing when the modification is empty, and removes after it adds: no
    prop of a removed type is left, not even one that the same modification
    added.  Every prop of the result comes from the environment or from the
    added props, and without removals they are all there, in that order. *)
Theorem transition_removes_after_it_adds (env : EnvironmentDescription)
  (m : EnvironmentModification) :
  baseEnvironment (transitionEnvironment env m) = baseEnvironment env /\
  transitionEnvironment env noChange = env /\
  (forall removed, removeProps m = Some removed ->
     Forall (fun p => ~ In (prop_type p) removed) (props (transitionEnvironment env m))) /\
  (forall p, In p (props (transitionEnvironment env m)) ->
             In p (props env) \/ exists added, addProps m = Some added /\ In p added) /\
  (removeProps m = None ->
   props (transitionEnvironment env m)
   = props env ++ match addProps m with Some added => added | None => [] end).
Proof.
  split; [reflexivity|]. split; [now destruct env|]. split; [|split].
  - intros removed Hr. unfold transitionEnvironment. cbn [props]. rewrite Hr.
    apply Forall_forall. intros p Hp. apply filter_In in Hp as [_ Hp].
    apply negb_true_iff in Hp. intro Hin.
    assert (existsb (jeqb (prop_type p)) removed = true); [|congruence].
    apply existsb_exists. exists (prop_type p). split; [exact Hin | apply jeqb_refl].
  - intros p. unfold transitionEnvironment. cbn [props].
    assert (G : In p (match addProps m with
                      | Some added => props env ++ added
                      | None => props env
                      end) ->
                In p (props env) \/ exists added, addProps m = Some added /\ In p added).
    { destruct (addProps m) as [added|]; [|now left].
      intro H. apply in_app_or in H as [H|H]; [now left|]. right. now exists added. }
    destruct (removeProps m); [|exact G].
    intro H. apply filter_In in H as [H _]. now apply G.
  - intro Hr. unfold transitionEnvironment. cbn [props]. rewrite Hr.
    destruct (addProps m); [reflexivity | now rewrite app_nil_r].
Qed.

Lemma transition_witness :
  removeProps addThenRemove = Some [animationEffectType] /\
  Forall (fun p => ~ In (prop_type p) [animationEffectType])
         (props (transitionEnvironment V1.forestEnvironment addThenRemove)) /\
  props (transitionEnvironment V1.forestEnvironment addThenRemove) = [].
Proof.
  split; [reflexivity|]. split; [|reflexivity].
  exact (proj1 (proj2 (proj2 (transition_removes_after_it_adds V1.forestEnvironment
                                addThenRemove)))
           [animationEffectType] eq_refl).
Defined.

(** ** The last scene and the size of the prompt *)

Lemma split_acc_nonempty p : forall s cur, split_acc p cur s <> [].
Proof.
  induction s as [|c t IH]; intro cur; simpl; [discriminate|].
  destruct (p c); [discriminate | apply IH].
Qed.

Lemma join_cons sep (x : jstring) (l : list jstring) :
  l <> [] -> join sep (x :: l) = x ++ sep ++ join sep l.
Proof. destruct l; [now intros []|reflexivity]. Qed.

Lemma join_split_acc (c : cu) : forall s cur,
  join [c] (split_acc (cu_eqb c) cur s) = rev cur ++ s.
Proof.
  induction s as [|x t IH]; intro cur; simpl.
  - now rewrite app_nil_r.
  - destruct (cu_eqb c x) eqn:E.
    + apply cu_eqb_eq in E. subst x.
      rewrite join_cons by apply split_acc_nonempty. rewrite IH. reflexivity.
    + rewrite IH. simpl. now rewrite <- app_assoc.
Qed.

Lemma join_split (c : cu) (s : jstring) : join [c] (split_on (cu_eqb c) s) = s.
Proof. unfold split_on. now rewrite join_split_acc. Qed.

Lemma join_app sep (a b : list jstring) :
  a <> [] -> b <> [] -> join sep (a ++ b) = join sep a ++ sep ++ join sep b.
Proof.
  intros Ha Hb. induction a as [|x a IH]; [now elim Ha|].
  destruct a as [|y a].
  - simpl app. now rewrite join_cons.
  - change ((x :: y :: a) ++ b) with (x :: (y :: a) ++ b).
    rewrite join_cons by discriminate. rewrite IH by discriminate.
    rewrite (join_cons sep x (y :: a)) by discriminate.
    now rewrite <- !app_assoc.
Qed.

Lemma drop_while_split p (s : jstring) :
  exists d, s = d ++ drop_while p s /\ Forall (fun c => p c = true) d.
Proof.
  induction s as [|c t (d & Hd & Hf)]; simpl.
  - now exists [].
  - destruct (p c) eqn:E.
    + exists (c :: d). split; [now rewrite Hd at 1 | now constructor].
    + now exists [].
Qed.

Lemma trimEnd_split (s : jstring) :
  exists d, s = trimEnd s ++ d /\ Forall (fun c => is_space c = true) d.
Proof.
  unfold trimEnd. destruct (drop_while_split is_space (rev s)) as (d & Hd & Hf).
  exists (rev d). split; [|now apply Forall_rev].
  rewrite <- rev_app_distr, <- Hd. now rewrite rev_involutive.
Qed.

Lemma trim_split (s : jstring) :
  exists a b, s = a ++ trim s ++ b /\
              Forall (fun c => is_space c = true) a /\
              Forall (fun c => is_space c = true) b.
Proof.
  unfold trim, trimStart.
  destruct (drop_while_split is_space s) as (a & Ha & Fa).
  destruct (trimEnd_split (drop_while is_space s)) as (b & Hb & Fb).
  exists a, b. split; [|now split]. now rewrite <- Hb.
Qed.

Lemma count_join (p : cu -> bool) (c : cu) (l : list jstring) :
  Forall (Forall (fun x => p x = false)) l ->
  length (filter p (join [c] l)) <= length l - 1.
Proof.
  induction l as [|x l IH]; intro H; simpl; [lia|].
  inversion H as [|? ? Hx Hl]; subst.
  assert (Z : filter p x = []).
  { clear - Hx. induction Hx as [|y r Hy _ IH]; simpl; [reflexivity|]. now rewrite Hy. }
  destruct l as [|y l].
  - rewrite Z. simpl. lia.
  - rewrite filter_app, Z. simpl app. cbn [filter].
    specialize (IH Hl). simpl length in *.
    destruct (p c); simpl; lia.
Qed.

Lemma lastTwo_length {A : Type} (l : list A) : length (V1.lastTwo l) <= 2.
Proof. unfold V1.lastTwo. rewrite length_skipn. lia. Qed.

(** X6.  Splitting a text at its periods and joining the pieces with
    a period gives the text back.  The last scene that
    [generateNextStorySegment] puts into the prompt is the end of the current
    text, from just after a period (or from the start) on, without the blanks
    around it, and it holds at most one period. *)
Theorem the_last_scene_is_the_end_of_the_text (text : jstring) :
  join (js ".") (split_on (cu_eqb (ch ".")) text) = text /\
  (exists before blanks blanks',
      text = before ++ blanks ++ V1.lastParagraphOf text ++ blanks' /\
      Forall (fun c => is_space c = true) blanks /\
      Forall (fun c => is_space c = true) blanks' /\
      (before = [] \/ exists sooner, before = sooner ++ js ".")) /\
  length (filter (cu_eqb (ch ".")) (V1.lastParagraphOf text)) <= 1.
Proof.
  split; [apply (join_split (ch "."))|].
  set (pieces := split_on (cu_eqb (ch ".")) text).
  assert (Hp : Forall (Forall (fun x => cu_eqb (ch ".") x = false)) pieces)
    by (apply split_acc_clean; constructor).
  assert (Hl : Forall (Forall (fun x => cu_eqb (ch ".") x = false)) (V1.lastTwo pieces)).
  { unfold V1.lastTwo. rewrite <- (firstn_skipn (length pieces - 2) pieces) in Hp.
    now apply Forall_app in Hp. }
  split.
  - unfold V1.lastParagraphOf. fold pieces.
    destruct (trim_split (join (js ".") (V1.lastTwo pieces))) as (a & b & E & Fa & Fb).
    assert (S : exists before, text = before ++ join (js ".") (V1.lastTwo pieces) /\
                  (before = [] \/ exists sooner, before = sooner ++ js ".")).
    { unfold V1.lastTwo.
      destruct (Nat.leb_spec (length pieces) 2) as [L|L].
      - replace (length pieces - 2) with 0 by lia. exists []. split; [|now left].
        simpl. symmetry. apply (join_split (ch ".")).
      - exists (join (js ".") (firstn (length pieces - 2) pieces) ++ js ".").
        split; [|right; now eexists].
        rewrite <- app_assoc, <- join_app, firstn_skipn.
        + symmetry. apply (join_split (ch ".")).
        + intro H. apply (f_equal (@length _)) in H. rewrite length_firstn in H.
          simpl in H. lia.
        + intro H. apply (f_equal (@length _)) in H. rewrite length_skipn in H.
          simpl in H. lia. }
    destruct S as (before & Hb & Hs).
    exists before, a, b. split; [|now repeat split].
    rewrite Hb at 1. now rewrite E at 1.
  - unfold V1.lastParagraphOf. fold pieces.
    destruct (trim_split (join (js ".") (V1.lastTwo pieces))) as (a & b & E & _ & _).
    pose proof (count_join (cu_eqb (ch ".")) (ch ".") (V1.lastTwo pieces) Hl) as C.
    change [ch "."] with (js ".") in C. rewrite E in C at 1.
    rewrite !filter_app, !length_app in C.
    pose proof (lastTwo_length pieces). lia.
Qed.

Lemma length_slice_last_min n (s : jstring) : length (slice_last n s) = Nat.min n (length s).
Proof. unfold slice_last. rewrite length_skipn. lia. Qed.

(** X16.  The continuation prompts of the second revision grow with
    the summary by at most the summary's length: the standard prompt holds
    the last 300 characters of the summary at most, the fresh prompt the
    whole summary.  With a summary within the cap of 1000, the prompt of a
    turn is at most 1000 characters longer than the longer of the two prompts
    for an empty summary. *)
Theorem V2_prompt_takes_a_bounded_part_of_the_summary (cur : StorySegment)
  (summary : jstring) (ch : Choice) (w : World) :
  length (V2.standardPrompt summary ch)
  = length (V2.standardPrompt [] ch) + Nat.min 300 (length summary) /\
  length (V2.freshPrompt cur summary ch)
  = length (V2.freshPrompt cur [] ch) + length summary /\
  (summaryWithinCap w ->
   length (V2_prompt cur ch w)
   <= Nat.max (length (V2.standardPrompt [] ch)) (length (V2.freshPrompt cur [] ch))
      + 1000).
Proof.
  assert (A : length (V2.standardPrompt summary ch)
              = length (V2.standardPrompt [] ch) + Nat.min 300 (length summary)).
  { unfold V2.standardPrompt. rewrite !length_app, !length_slice_last_min.
    simpl length. lia. }
  assert (B : forall s, length (V2.freshPrompt cur s ch)
                        = length (V2.freshPrompt cur [] ch) + length s).
  { intro s. unfold V2.freshPrompt. rewrite !length_app. simpl length. lia. }
  split; [exact A|]. split; [apply B|].
  unfold summaryWithinCap, summaryWithin, V2.maxSummaryLength, V2_prompt. intro Hw.
  destruct (V2.shouldRefresh (store w)).
  - rewrite B. lia.
  - clear A.
    assert (A : length (V2.standardPrompt (storySummary (store w)) ch)
                = length (V2.standardPrompt [] ch)
                  + Nat.min 300 (length (storySummary (store w)))).
    { unfold V2.standardPrompt. rewrite !length_app, !length_slice_last_min.
      simpl length. lia. }
    rewrite A. lia.
Qed.

Lemma V2_prompt_witness :
  summaryWithinCap initialWorld /\
  length (V2_prompt V2.fallbackInitialSegment goOn initialWorld)
  <= Nat.max (length (V2.standardPrompt [] goOn))
             (length (V2.freshPrompt V2.fallbackInitialSegment [] goOn)) + 1000.
Proof.
  assert (H : summaryWithinCap initialWorld)
    by (unfold summaryWithinCap, summaryWithin; apply Nat.leb_le; vm_compute; reflexivity).
  split; [exact H|].
  exact (proj2 (proj2 (V2_prompt_takes_a_bounded_part_of_the_summary
                         V2.fallbackInitialSegment [] goOn initialWorld)) H).
Defined.

Lemma V2_next_environment h cur ch :
  yields (fun seg => inAPreset seg \/
                     baseEnvironment (environment seg) = baseEnvironment (environment cur))
         (V2.generateNextStorySegment h cur ch).
Proof.
  unfold V2.generateNextStorySegment. apply yields_try_catch.
  - unfold V2.nextSegmentBody, V2.continueStory. cbv zeta.
    repeat (eapply yields_bind; [apply yields_any|]; intros ? _).
    apply yields_ret. left. eexists. reflexivity.
  - apply yields_ret. now right.
Qed.

Lemma V2_play_environment h chosen : forall seg w,
  inAPreset seg -> inAPreset (fst (V2_play h chosen seg w)).
Proof.
  induction chosen as [|ch rest IH]; intros seg w Hs; simpl; [exact Hs|].
  destruct (V2.generateNextStorySegment h seg ch w) as [[seg'|] w'] eqn:E; [|exact Hs].
  apply IH. apply V2_next_environment in E as [E|E]; [exact E|].
  destruct Hs as [k Hk]. exists k. now rewrite E.
Qed.

(** X11.  Over a story of any length, each choice made on the segment
    that the choice before led to: in the first revision the environment is
    the cave, the ruins or the one the story started in, so a story that is
    in the cave or in the ruins never comes back to the forest; in the second
    revision a story that starts in one of the three presets stays in
    them. *)
Theorem where_a_story_can_lead (h : Host) (chosen : list Choice) (seg : StorySegment)
  (w : World) :
  (baseEnvironment (environment (fst (V1_play h chosen seg w))) = js "cave" \/
   baseEnvironment (environment (fst (V1_play h chosen seg w))) = js "ruins" \/
   baseEnvironment (environment (fst (V1_play h chosen seg w)))
   = baseEnvironment (environment seg)) /\
  (inCaveOrRuins seg -> inCaveOrRuins (fst (V1_play h chosen seg w))) /\
  (inAPreset seg -> inAPreset (fst (V2_play h chosen seg w))).
Proof.
  split; [apply V1_play_environment|]. split; [|apply V2_play_environment].
  intros Hs. unfold inCaveOrRuins in *.
  destruct (V1_play_environment h chosen seg w) as [H|[H|H]];
    [now left | now right | now rewrite H].
Qed.

Lemma where_a_story_can_lead_witness :
  (inCaveOrRuins caveSegment /\
   inCaveOrRuins (fst (V1_play steadyHost [goOn; goOn] caveSegment initialWorld))) /\
  (inAPreset caveSegment /\
   inAPreset (fst (V2_play steadyHost [goOn; goOn] caveSegment initialWorld))).
Proof.
  assert (H1 : inCaveOrRuins caveSegment) by (left; reflexivity).
  assert (H2 : inAPreset caveSegment) by (exists V2.k_cave; reflexivity).
  split; (split; [assumption|]).
  - exact (proj1 (proj2 (where_a_story_can_lead steadyHost [goOn; goOn] caveSegment
                           initialWorld)) H1).
  - exact (proj2 (proj2 (where_a_story_can_lead steadyHost [goOn; goOn] caveSegment
                           initialWorld)) H2).
Defined.

(** X17.  The two revisions of [generateText] take the same text from
    every result of the pipeline, and fail on the same results: the text is
    the [generated_text] of the result, or of the first element when the
    result is an array, provided that it is a string; everything else is a
    failure. *)
Theorem both_revisions_take_the_same_text (result : option json) :
  V1_generatedTextOf result = V2_generatedTextOf result /\
  (forall s,
      V1_generatedTextOf result = Some s <->
      (exists l, result = Some (JObj l) /\
                 member (js "generated_text") (rev l) = Some (JStr s)) \/
      (exists l rest, result = Some (JArr (JObj l :: rest)) /\
                      member (js "generated_text") (rev l) = Some (JStr s))).
Proof.
  assert (N : forall v, isObjectType v = false ->
                (truthy v && isObjectType v && hasGeneratedText v
                 && isString (generated_text v)) = false
                /\ (truthy v && isObjectType v && hasGeneratedText v) = false).
  { intros v H. rewrite H. now rewrite !andb_false_r. }
  assert (O : forall l,
     V1_generatedTextOf (Some (JObj l))
     = match member (js "generated_text") (rev l) with
       | Some (JStr s) => Some s
       | _ => None
       end /\
     V2_generatedTextOf (Some (JObj l))
     = match member (js "generated_text") (rev l) with
       | Some (JStr s) => Some s
       | _ => None
       end).
  { intro l. unfold V1_generatedTextOf, V2_generatedTextOf, isGenerationArray,
      isSingleGeneration, generated_text.
    cbn [truthy isObjectType hasGeneratedText get_prop andb].
    destruct (member (js "generated_text") (rev l)) as [[| | | | |]|];
      cbn [isString andb]; split; reflexivity. }
  assert (P : forall v, isObjectType v = false ->
                V1_generatedTextOf (Some v) = None /\ V2_generatedTextOf (Some v) = None).
  { intros v H. destruct (N v H) as [N1 N2].
    unfold V1_generatedTextOf, V2_generatedTextOf, isGenerationArray, isSingleGeneration.
    destruct v; try discriminate; rewrite ?N1, ?N2; split; reflexivity. }
  assert (A : forall v rest,
     V1_generatedTextOf (Some (JArr (v :: rest)))
     = match v with
       | JObj l => match member (js "generated_text") (rev l) with
                   | Some (JStr s) => Some s
                   | _ => None
                   end
       | _ => None
       end /\
     V2_generatedTextOf (Some (JArr (v :: rest)))
     = match v with
       | JObj l => match member (js "generated_text") (rev l) with
                   | Some (JStr s) => Some s
                   | _ => None
                   end
       | _ => None
       end).
  { intros v rest.
    unfold V1_generatedTextOf, V2_generatedTextOf, isGenerationArray, isSingleGeneration,
      generated_text.
    cbn [length Nat.ltb Nat.leb nth_error andb truthy isObjectType hasGeneratedText
         get_prop].
    destruct v as [|b|neg m e|s|l|l].
    - split; reflexivity.
    - rewrite !andb_false_r. split; reflexivity.
    - rewrite !andb_false_r. split; reflexivity.
    - rewrite !andb_false_r. split; reflexivity.
    - split; reflexivity.
    - cbn [andb get_prop truthy isObjectType hasGeneratedText].
      destruct (member (js "generated_text") (rev l)) as [[| | | | |]|];
        cbn [isString andb]; split; reflexivity. }
  assert (E : V1_generatedTextOf (Some (JArr [])) = None /\
              V2_generatedTextOf (Some (JArr [])) = None) by (split; reflexivity).
  assert (U : V1_generatedTextOf (Some JNull) = None /\
              V2_generatedTextOf (Some JNull) = None) by (split; reflexivity).
  split.
  - destruct result as [[|b|neg m e|s|[|v rest]|l]|].
    + now destruct U as [-> ->].
    + now destruct (P (JBool b) eq_refl) as [-> ->].
    + now destruct (P (JNum neg m e) eq_refl) as [-> ->].
    + now destruct (P (JStr s) eq_refl) as [-> ->].
    + now destruct E as [-> ->].
    + now destruct (A v rest) as [-> ->].
    + now destruct (O l) as [-> ->].
    + reflexivity.
  - intro s. split.
    + destruct result as [[|b|neg m e|s0|[|v rest]|l]|].
      * now rewrite (proj1 U).
      * now rewrite (proj1 (P (JBool b) eq_refl)).
      * now rewrite (proj1 (P (JNum neg m e) eq_refl)).
      * now rewrite (proj1 (P (JStr s0) eq_refl)).
      * now rewrite (proj1 E).
      * rewrite (proj1 (A v rest)). destruct v as [| | | | |l]; try discriminate.
        destruct (member (js "generated_text") (rev l)) as [[| | |x| |]|] eqn:M;
          try discriminate.
        intro H. injection H as ->. right. now exists l, rest.
      * rewrite (proj1 (O l)).
        destruct (member (js "generated_text") (rev l)) as [[| | |x| |]|] eqn:M;
          try discriminate.
        intro H. injection H as ->. left. now exists l.
      * discriminate.
    + intros [(l & -> & M)|(l & rest & -> & M)].
      * rewrite (proj1 (O l)). now rewrite M.
      * rewrite (proj1 (A (JObj l) rest)). now rewrite M.
Qed.






Lemma same_text_witness :
  V1_generatedTextOf oneGeneration = Some (js "Once upon a time") /\
  V2_generatedTextOf oneGeneration = Some (js "Once upon a time").
Proof.
  assert (H : V1_generatedTextOf oneGeneration = Some (js "Once upon a time")).
  { apply (proj2 (both_revisions_take_the_same_text oneGeneration)).
    right. eexists _, _. split; reflexivity. }
  split; [exact H|].
  now rewrite <- (proj1 (both_revisions_take_the_same_text oneGeneration)).
Defined.
